(** * Canvelete CLI: a shallow embedding of the client, the credential
    stores, the render commands and the watch engine, with the properties
    of the specification settled against it.

    JavaScript values are modelled by a small value type with the
    language's truthiness; plain objects used as dictionaries are finite
    maps of their own keys, read together with the names every object
    inherits where the code looks a user-given name up; the event loop is a
    state machine whose inputs are the callbacks the runtime delivers. *)

From Stdlib Require Import ZArith Lia Bool List Ascii String.
From stdpp Require Import base option list strings gmap pretty.
Import ListNotations.
Local Set Warnings "-register-all".
Local Open Scope string_scope.
Local Open Scope list_scope.
Local Open Scope Z_scope.

(* ===================================================================== *)
(** ** JavaScript values *)
(* ===================================================================== *)

Module Js.

(** The values that reach the code under study.  Numbers are the integers
    [parseInt] and integer JSON literals produce, plus [NaN]; fractions
    and the two infinities are not among them. *)
Inductive Val : Type :=
| Undefined
| Null
| Bool (b : bool)
| Num (z : Z)
| NaN
| Str (s : string)
| Obj (fields : list (string * Val))
| Arr (items : list Val).

(** [ToBoolean]: the falsy values are undefined, null, false, 0, NaN and
    the empty string. *)
Definition truthy (v : Val) : bool :=
  match v with
  | Undefined | Null | NaN => false
  | Bool b => b
  | Num z => negb (z =? 0)
  | Str s => negb (String.eqb s "")
  | Obj _ | Arr _ => true
  end.

(** [a || b] *)
Definition or (a b : Val) : Val := if truthy a then a else b.

(** Property read [o.k] on an object value; [undefined] when absent. *)
Fixpoint assoc (k : string) (fields : list (string * Val)) : Val :=
  match fields with
  | [] => Undefined
  | (k', v) :: rest => if String.eqb k k' then v else assoc k rest
  end.

Definition get (o : Val) (k : string) : Val :=
  match o with
  | Obj fields => assoc k fields
  | _ => Undefined
  end.

(** [String(v)], as template literals and [new Error(v)] apply it. *)
Fixpoint show (v : Val) : string :=
  match v with
  | Str s => s
  | Num z => pretty z
  | Undefined => "undefined"
  | Null => "null"
  | NaN => "NaN"
  | Bool true => "true"
  | Bool false => "false"
  | Obj _ => "[object Object]"
  | Arr items =>
      (fix join (l : list Val) : string :=
         match l with
         | [] => ""
         | x :: rest =>
             let shown := match x with
                          | Undefined | Null => ""
                          | _ => show x
                          end in
             match rest with
             | [] => shown
             | _ :: _ => shown +:+ "," +:+ join rest
             end
         end) items
  end.

(** The names every plain object inherits from [Object.prototype]: for
    these [o[k]] is truthy (a function, or the prototype for [__proto__])
    also when [o] has no property [k] of its own. *)
Definition inherited_names : list string :=
  ["constructor"; "__defineGetter__"; "__defineSetter__"; "hasOwnProperty";
   "__lookupGetter__"; "__lookupSetter__"; "isPrototypeOf";
   "propertyIsEnumerable"; "toString"; "valueOf"; "__proto__";
   "toLocaleString"].

Definition inherited (k : string) : bool :=
  existsb (String.eqb k) inherited_names.

End Js.

(* ===================================================================== *)
(** ** Strings and paths ([String.prototype], Node's [path]) *)
(* ===================================================================== *)

Module Path.

Definition chars (s : string) : list ascii := list_ascii_of_string s.
Definition of_chars (l : list ascii) : string := string_of_list_ascii l.

Definition is_slash (a : ascii) : bool := Ascii.eqb a "/"%char.

Fixpoint starts_with (pre l : list ascii) : bool :=
  match pre, l with
  | [], _ => true
  | a :: pre', b :: l' => Ascii.eqb a b && starts_with pre' l'
  | _ :: _, [] => false
  end.

(** [s.endsWith(suffix)] *)
Definition endsWith (s suffix : string) : bool :=
  starts_with (rev (chars suffix)) (rev (chars s)).

Fixpoint drop_slashes (l : list ascii) : list ascii :=
  match l with
  | a :: rest => if is_slash a then drop_slashes rest else l
  | [] => []
  end.

Fixpoint until_slash (l : list ascii) : list ascii :=
  match l with
  | a :: rest => if is_slash a then [] else a :: until_slash rest
  | [] => []
  end.

(** [path.basename(p)]: the last component, trailing slashes apart. *)
Definition basename (p : string) : string :=
  of_chars (rev (until_slash (drop_slashes (rev (chars p))))).

(** The segments of a path between its slashes. *)
Fixpoint split_slash (p : string) : list string :=
  match p with
  | EmptyString => [""]
  | String a rest =>
      if is_slash a then "" :: split_slash rest
      else match split_slash rest with
           | seg :: segs => String a seg :: segs
           | [] => [String a ""]
           end
  end.

(** One step of [normalizeString]: the next segment against the segments
    kept so far, the last one first.  Empty segments and [.] are dropped;
    [..] removes the segment before it, and is kept only in a relative
    path ([above]) that has no segment left to remove. *)
Definition keep_segment (above : bool) (kept : list string) (seg : string) :
    list string :=
  if String.eqb seg "" || String.eqb seg "." then kept
  else if String.eqb seg ".." then
    match kept with
    | previous :: before =>
        if String.eqb previous ".."
        then (if above then seg :: kept else kept)
        else before
    | [] => if above then [seg] else []
    end
  else seg :: kept.

Definition kept_segments (above : bool) (p : string) : list string :=
  rev (fold_left (keep_segment above) (split_slash p) []).

Fixpoint join_slash (segs : list string) : string :=
  match segs with
  | [] => ""
  | [seg] => seg
  | seg :: rest => seg +:+ "/" +:+ join_slash rest
  end.

Definition first_is_slash (p : string) : bool :=
  match p with
  | String a _ => is_slash a
  | EmptyString => false
  end.

Definition last_is_slash (p : string) : bool :=
  match rev (chars p) with
  | a :: _ => is_slash a
  | [] => false
  end.

(** [path.normalize(p)] (POSIX). *)
Definition normalize (p : string) : string :=
  if String.eqb p "" then "."
  else
    let absolute := first_is_slash p in
    let trailing := last_is_slash p in
    match kept_segments (negb absolute) p with
    | [] => if absolute then "/" else if trailing then "./" else "."
    | kept =>
        (if absolute then "/" else "") +:+ join_slash kept
        +:+ (if trailing then "/" else "")
    end.

(** [path.join(dir, name)]: the arguments that are not empty, joined by a
    slash and normalised. *)
Definition path_join (dir name : string) : string :=
  if String.eqb dir "" then
    (if String.eqb name "" then "." else normalize name)
  else if String.eqb name "" then normalize dir
  else normalize (dir +:+ "/" +:+ name).

(** The name of a directory entry, as [readdirSync] gives them: not
    empty, neither [.] nor [..], and without a slash. *)
Definition plain (name : string) : bool :=
  negb (String.eqb name "") && negb (String.eqb name ".")
  && negb (String.eqb name "..") && negb (existsb is_slash (chars name)).

(** What [path.join(dir, name)] puts before a plain [name]. *)
Definition dir_prefix (dir : string) : string :=
  match kept_segments (negb (first_is_slash dir)) dir with
  | [] => if first_is_slash dir then "/" else ""
  | kept => (if first_is_slash dir then "/" else "") +:+ join_slash kept +:+ "/"
  end.

(** [s.replace(pattern, replacement)] with a non-empty string pattern and
    a replacement that holds no [$]: the first occurrence only. *)
Fixpoint replace_chars (pattern replacement l : list ascii) : list ascii :=
  match l with
  | [] => []
  | a :: rest =>
      if starts_with pattern l
      then replacement ++ skipn (length pattern) l
      else a :: replace_chars pattern replacement rest
  end.

Definition replace (s pattern replacement : string) : string :=
  of_chars (replace_chars (chars pattern) (chars replacement) (chars s)).

End Path.

(* ===================================================================== *)
(** ** src/client.js *)
(* ===================================================================== *)

Module Client.

(** [class CanveleteAPIClient]: the two fields set by the constructor. *)
Record CanveleteAPIClient : Type := {
  apiKey : string;
  baseUrl : string
}.

(** The [options] argument of [request]. *)
Record RequestOptions : Type := {
  json : option (list (string * Js.Val));
  params : option (list (string * string));
  binary : bool
}.

Definition no_options : RequestOptions :=
  {| json := None; params := None; binary := false |}.

(** What [request] hands to [fetch]: the URL and the [fetchOptions]
    object; [f_binary] is the flag forwarded to [handleResponse].  The
    body is the object given to [JSON.stringify]. *)
Record Fetch : Type := {
  f_url : string;
  f_method : string;
  f_headers : list (string * string);
  f_body : option (list (string * Js.Val));
  f_binary : bool
}.

(** [url.includes('?')] *)
Fixpoint includes_qmark (s : string) : bool :=
  match s with
  | EmptyString => false
  | String c rest => if Ascii.eqb c "?"%char then true else includes_qmark rest
  end.

(** [URLSearchParams] serialisation of string pairs (reserved characters
    are left as they are). *)
Fixpoint search_params (ps : list (string * string)) : string :=
  match ps with
  | [] => ""
  | [(k, v)] => k +:+ "=" +:+ v
  | (k, v) :: rest => k +:+ "=" +:+ v +:+ "&" +:+ search_params rest
  end.

Definition request (c : CanveleteAPIClient) (method endpoint : string)
    (options : RequestOptions) : Fetch :=
  let url := baseUrl c +:+ endpoint in
  let headers := [("Authorization", "Bearer " +:+ apiKey c);
                  ("User-Agent", "canvelete-cli/2.0.0")] in
  let headers :=
    match json options with
    | Some _ => headers ++ [("Content-Type", "application/json")]
    | None => headers
    end in
  let full :=
    match params options with
    | Some ps =>
        let separator := if includes_qmark url then "&" else "?" in
        url +:+ separator +:+ search_params ps
    | None => url
    end in
  {| f_url := full; f_method := method; f_headers := headers;
     f_body := json options; f_binary := binary options |}.

Definition getDesign (c : CanveleteAPIClient) (id : string) : Fetch :=
  request c "GET" ("/api/automation/designs/" +:+ id) no_options.

Definition getTemplate (c : CanveleteAPIClient) (id : string) : Fetch :=
  request c "GET" ("/api/automation/designs/" +:+ id) no_options.

Definition getRenderStatus (c : CanveleteAPIClient) (jobId : string) : Fetch :=
  request c "GET" ("/api/v1/render/status/" +:+ jobId) no_options.

(** The [options] object of [render]: every property is a value, absent
    ones are [undefined]. *)
Record RenderOptions : Type := {
  designId : Js.Val;
  templateId : Js.Val;
  format : Js.Val;
  quality : Js.Val;
  dynamicData : Js.Val;
  width : Js.Val;
  height : Js.Val
}.

(** [if (v) data.k = v]: the property is appended when [v] is truthy. *)
Definition set_if (k : string) (v : Js.Val) (data : list (string * Js.Val)) :
    list (string * Js.Val) :=
  if Js.truthy v then data ++ [(k, v)] else data.

(** The [data] object [render] builds. *)
Definition render_data (options : RenderOptions) : list (string * Js.Val) :=
  let data := [("format", Js.or (format options) (Js.Str "png"));
               ("quality", Js.or (quality options) (Js.Num 90))] in
  let data := set_if "designId" (designId options) data in
  let data := set_if "templateId" (templateId options) data in
  let data := set_if "dynamicData" (dynamicData options) data in
  let data := set_if "width" (width options) data in
  let data := set_if "height" (height options) data in
  data.

Definition render (c : CanveleteAPIClient) (options : RenderOptions) : Fetch :=
  request c "POST" "/api/automation/render"
    {| json := Some (render_data options); params := None; binary := true |}.

(** [k in data]: the body has the property. *)
Definition has_key (k : string) (data : list (string * Js.Val)) : bool :=
  existsb (fun kv => String.eqb k (fst kv)) data.

(** The property of the request body, [undefined] when there is no body. *)
Definition body_get (f : Fetch) (k : string) : Js.Val :=
  match f_body f with
  | Some data => Js.assoc k data
  | None => Js.Undefined
  end.

Definition body_has (f : Fetch) (k : string) : bool :=
  match f_body f with
  | Some data => has_key k data
  | None => false
  end.

(** What [fetch] resolves to: [r_json] is what [response.json()] gives
    ([None] when the body is not JSON and the call rejects), [r_bytes] what
    [response.arrayBuffer()] gives. *)
Record Response : Type := {
  r_ok : bool;
  r_status : Z;
  r_json : option Js.Val;
  r_bytes : list Z
}.

(** The [Error] objects of the client: message and, for HTTP errors, the
    status. *)
Record Error : Type := {
  e_message : string;
  e_status : option Z
}.

(** An awaited call either gives a value or throws. *)
Inductive Result (A : Type) : Type :=
| Ok (a : A)
| Throw (e : Error).
Arguments Ok {A} a.
Arguments Throw {A} e.

(** What a request awaits: [fetch] rejecting (network failure) or a
    response. *)
Inductive Fetched : Type :=
| Rejected (message : string)
| Responded (r : Response).

(** A successful [handleResponse] value: parsed JSON, or the bytes of a
    binary payload. *)
Inductive Payload : Type :=
| Json (v : Js.Val)
| Binary (bytes : list Z).

Definition handleResponse (response : Response) (binary : bool) : Result Payload :=
  if negb (r_ok response) then
    let errorMessage := Js.Str ("HTTP " +:+ pretty (r_status response)) in
    let errorMessage :=
      match r_json response with
      | Some Js.Undefined | Some Js.Null | None => errorMessage
      | Some errorData =>
          Js.or (Js.or (Js.get errorData "error") (Js.get errorData "message"))
                errorMessage
      end in
    Throw {| e_message := Js.show errorMessage;
             e_status := Some (r_status response) |}
  else if binary then Ok (Binary (r_bytes response))
  else
    match r_json response with
    | Some v => Ok (Json v)
    | None => Throw {| e_message := "Unexpected token"; e_status := None |}
    end.

(** [await fetch(...)] followed by [handleResponse]. *)
Definition await_request (f : Fetch) (answer : Fetched) : Result Payload :=
  match answer with
  | Rejected message =>
      Throw {| e_message := message; e_status := None |}
  | Responded response => handleResponse response (f_binary f)
  end.

(** A client and two requests used as concrete inputs. *)
Definition demo_client : CanveleteAPIClient :=
  {| apiKey := "cvt_demo"; baseUrl := "https://www.canvelete.com" |}.

Definition request_with_quality (q : Js.Val) : RenderOptions :=
  {| designId := Js.Str "design-1"; templateId := Js.Undefined;
     format := Js.Str "jpg"; quality := q; dynamicData := Js.Null;
     width := Js.Undefined; height := Js.Undefined |}.

End Client.

(* ===================================================================== *)
(** ** src/config.js and src/commands/profiles.js: the credential stores *)
(* ===================================================================== *)

Module Store.

(** [process.env]: the two variables the CLI reads. *)
Record Env : Type := {
  CANVELETE_API_KEY : option string;
  CANVELETE_BASE_URL : option string
}.

(** The [config] store of src/config.js ([new Conf] with its schema: a
    key that was never set or was deleted reads as its default). *)
Record Config : Type := {
  apiKey : string;
  baseUrl : string;
  defaultFormat : string;
  defaultQuality : Z
}.

Definition default_config : Config :=
  {| apiKey := ""; baseUrl := "https://www.canvelete.com";
     defaultFormat := "png"; defaultQuality := 90 |}.

(** One entry of the [profiles] object. *)
Record Profile : Type := {
  p_apiKey : string;
  p_description : string;
  p_baseUrl : string;
  p_createdAt : string
}.

(** The [profilesConfig] store of src/commands/profiles.js. *)
Record ProfilesConfig : Type := {
  profiles : gmap string Profile;
  activeProfile : string
}.

Definition default_profiles : ProfilesConfig :=
  {| profiles := ∅; activeProfile := "default" |}.

(** Both persisted stores. *)
Record State : Type := {
  config : Config;
  profilesConfig : ProfilesConfig
}.

Definition initial : State :=
  {| config := default_config; profilesConfig := default_profiles |}.

(** Truthiness of a string. *)
Definition non_empty (s : string) : bool := negb (String.eqb s "").

(** [getApiKey()] *)
Definition getApiKey (env : Env) (st : State) : string :=
  match CANVELETE_API_KEY env with
  | Some envKey => if non_empty envKey then envKey else apiKey (config st)
  | None => apiKey (config st)
  end.

(** [setApiKey(key)] *)
Definition setApiKey (key : string) (st : State) : State :=
  {| config := {| apiKey := key; baseUrl := baseUrl (config st);
                  defaultFormat := defaultFormat (config st);
                  defaultQuality := defaultQuality (config st) |};
     profilesConfig := profilesConfig st |}.

(** [clearApiKey()]: the key reads as the schema default again. *)
Definition clearApiKey (st : State) : State := setApiKey "" st.

(** [profilesConfig.set('activeProfile', name)] *)
Definition setActiveProfile (name : string) (st : State) : State :=
  {| config := config st;
     profilesConfig := {| profiles := profiles (profilesConfig st);
                          activeProfile := name |} |}.

(** [profilesConfig.set('profiles', all)] *)
Definition setProfiles (all : gmap string Profile) (st : State) : State :=
  {| config := config st;
     profilesConfig := {| profiles := all;
                          activeProfile := activeProfile (profilesConfig st) |} |}.

(** [getProfileApiKey()]: [profile?.apiKey || getApiKey()]. *)
Definition getProfileApiKey (env : Env) (st : State) : string :=
  match profiles (profilesConfig st) !! activeProfile (profilesConfig st) with
  | Some profile =>
      if non_empty (p_apiKey profile) then p_apiKey profile else getApiKey env st
  | None => getApiKey env st
  end.

(** How a command ends: normally, through [process.exit(code)] after an
    error message, or on an error that nothing catches.  The
    specification's NotFoundError is the exit of [profiles use] and
    [profiles remove] on an unknown name. *)
Inductive Outcome : Type :=
| Done (message : string)
| Exit (code : Z) (message : string)
| Uncaught (error : string).

(** The double-quote character of the messages. *)
Definition dq : string := String (Ascii.ascii_of_nat 34) EmptyString.

Definition NotFoundError (name : string) : Outcome :=
  Exit 1 ("Profile " +:+ dq +:+ name +:+ dq +:+ " not found").

(** [allProfiles[name]] is truthy: the store holds a profile under the
    name, or the name is one every object inherits. *)
Definition has_member (all : gmap string Profile) (name : string) : bool :=
  bool_decide (is_Some (all !! name)) || Js.inherited name.

(** [profiles use <name>].  A name that is not stored but inherited gets
    past [if (!allProfiles[name])]: the active profile is written, then
    [allProfiles[name].apiKey] is [undefined] and [config.set] throws on
    it. *)
Definition profiles_use (name : string) (st : State) : Outcome * State :=
  match profiles (profilesConfig st) !! name with
  | Some profile =>
      let st := setActiveProfile name st in
      let st := setApiKey (p_apiKey profile) st in
      (Done ("Switched to " +:+ dq +:+ name +:+ dq), st)
  | None =>
      if Js.inherited name
      then (Uncaught "TypeError", setActiveProfile name st)
      else (NotFoundError name, st)
  end.

(** [profiles remove <name> --force].  [delete allProfiles[name]] removes
    a property of the object itself and nothing else. *)
Definition profiles_remove (name : string) (st : State) : Outcome * State :=
  if has_member (profiles (profilesConfig st)) name then
    let st := setProfiles (delete name (profiles (profilesConfig st))) st in
    let st :=
      if String.eqb (activeProfile (profilesConfig st)) name
      then setActiveProfile "default" st else st in
    (Done ("Profile " +:+ dq +:+ name +:+ dq +:+ " removed"), st)
  else (NotFoundError name, st).

(** The stored key of the active profile, when there is one. *)
Definition active_profile_key (st : State) : option string :=
  p_apiKey <$> profiles (profilesConfig st) !! activeProfile (profilesConfig st).

(** The first candidate that is set and non-empty, else the fallback. *)
Fixpoint first_set (candidates : list (option string)) (fallback : string) : string :=
  match candidates with
  | [] => fallback
  | Some k :: rest => if non_empty k then k else first_set rest fallback
  | None :: rest => first_set rest fallback
  end.

(** The resolution order in the specification's words: environment
    override, then the active profile's stored key, then the legacy
    single-key config field. *)
Definition getEffectiveApiKey_spec (env : Env) (st : State) : string :=
  first_set [CANVELETE_API_KEY env; active_profile_key st] (apiKey (config st)).

(** An override counts when the variable is set to a non-empty string. *)
Definition env_override (env : Env) : bool :=
  match CANVELETE_API_KEY env with
  | Some k => non_empty k
  | None => false
  end.

(** Concrete stores: profile [prod] added and switched to; then a later
    [auth login --key cvt_login], which writes the config field only. *)
Definition prod_profile : Profile :=
  {| p_apiKey := "cvt_prod"; p_description := "";
     p_baseUrl := "https://www.canvelete.com";
     p_createdAt := "2024-01-01T00:00:00.000Z" |}.

Definition prod_state : State :=
  snd (profiles_use "prod" (setProfiles {[ "prod" := prod_profile ]} initial)).

Definition prod_then_login : State := setApiKey "cvt_login" prod_state.

Definition no_env : Env :=
  {| CANVELETE_API_KEY := None; CANVELETE_BASE_URL := None |}.

Definition env_with_key : Env :=
  {| CANVELETE_API_KEY := Some "cvt_env"; CANVELETE_BASE_URL := None |}.

End Store.

(* ===================================================================== *)
(** ** The render commands ([registerRenderCommands]): [renders status
    --wait] and [batch-render] *)
(* ===================================================================== *)

Module Renders.
Import Client.

(** *** The polling loop of [renders status <jobId> --wait] *)

Definition pollInterval : Z := 2000.

(** The environment's side of one loop iteration: what the status request
    resolves to, and how many milliseconds the iteration takes beyond the
    [pollInterval] sleep (round trip of the request, lateness of the
    timer).  [Date.now()] is taken not to run backwards. *)
Record Poll : Type := {
  answer : Fetched;
  delay : N
}.

(** [parseInt(options.timeout) * 1000] on the value [parseInt] gave. *)
Definition timeout_ms (parsed : Js.Val) : Js.Val :=
  match parsed with
  | Js.Num z => Js.Num (z * 1000)
  | _ => Js.NaN
  end.

(** [elapsed < timeout] for a number on the left; false against [NaN]. *)
Definition lt_timeout (elapsed : Z) (timeout : Js.Val) : bool :=
  match timeout with
  | Js.Num t => elapsed <? t
  | _ => false
  end.

(** [status.status === s] *)
Definition status_is (job : Js.Val) (s : string) : bool :=
  match Js.get job "status" with
  | Js.Str t => String.eqb t s
  | _ => false
  end.

(** What one awaited [getRenderStatus] amounts to for the loop. *)
Inductive Observation : Type :=
| SawCompleted (job : Js.Val)
| SawFailed (job : Js.Val)
| SawPending (job : Js.Val)
| SawError (e : Error).

Definition observe (r : Result Payload) : Observation :=
  match r with
  | Throw e => SawError e
  | Ok (Binary _) => SawPending (Js.Obj [])
  | Ok (Json Js.Null) | Ok (Json Js.Undefined) =>
      SawError {| e_message := "Cannot read properties of null";
                  e_status := None |}
  | Ok (Json job) =>
      if status_is job "completed" then SawCompleted job
      else if status_is job "failed" then SawFailed job
      else SawPending job
  end.

Definition is_terminal (o : Observation) : bool :=
  match o with
  | SawCompleted _ | SawFailed _ => true
  | _ => false
  end.

Definition is_pending (o : Observation) : bool :=
  match o with
  | SawPending _ => true
  | _ => false
  end.

(** How the command ends.  [Completed] is the plain [return]; the three
    others are [process.exit(1)]: after [Render failed], after
    [Timeout waiting for render] (the specification's TimeoutError), and
    from the [catch] block. *)
Inductive WaitOutcome : Type :=
| Completed (job : Js.Val)
| RenderFailed (job : Js.Val)
| TimedOut
| CheckFailed (e : Error)
| OutOfFuel.

Definition exit_code (o : WaitOutcome) : Z :=
  match o with
  | Completed _ => 0
  | _ => 1
  end.

(** The outcome, the observations of the polls issued in order, and the
    number of [pollInterval] sleeps. *)
Record WaitRun : Type := {
  outcome : WaitOutcome;
  observed : list Observation;
  sleeps : nat
}.

Definition polls (r : WaitRun) : nat := length (observed r).

Section Wait.

Variable c : CanveleteAPIClient.
Variable jobId : string.
(** [server k] is the environment at the poll numbered [k] from 0. *)
Variable server : nat -> Poll.
Variable timeout : Js.Val.

Definition poll (k : nat) : Observation :=
  observe (await_request (getRenderStatus c jobId) (answer (server k))).

(** The [while] loop; [elapsed] is [Date.now() - startTime] at the loop
    test, [k] the number of polls issued so far. *)
Fixpoint wait_loop (fuel k : nat) (elapsed : Z) : WaitRun :=
  match fuel with
  | O => {| outcome := OutOfFuel; observed := []; sleeps := 0 |}
  | S fuel' =>
      if lt_timeout elapsed timeout then
        match poll k with
        | SawCompleted job =>
            {| outcome := Completed job; observed := [poll k]; sleeps := 0 |}
        | SawFailed job =>
            {| outcome := RenderFailed job; observed := [poll k]; sleeps := 0 |}
        | SawError e =>
            {| outcome := CheckFailed e; observed := [poll k]; sleeps := 0 |}
        | SawPending _ =>
            let rest :=
              wait_loop fuel' (S k)
                        (elapsed + Z.of_N (delay (server k)) + pollInterval) in
            {| outcome := outcome rest;
               observed := poll k :: observed rest;
               sleeps := S (sleeps rest) |}
        end
      else {| outcome := TimedOut; observed := []; sleeps := 0 |}
  end.

(** Loop tests that can succeed are [pollInterval] apart at least, so this
    many unfoldings reach the end of the loop. *)
Definition fuel_for : nat :=
  match timeout with
  | Js.Num t => Z.to_nat (t / pollInterval) + 2
  | _ => 1
  end.

Definition wait : WaitRun := wait_loop fuel_for 0 0.

(** [Date.now() - startTime] at the test before poll [k], had all earlier
    polls been followed by the sleep. *)
Fixpoint elapsed_before (k : nat) : Z :=
  match k with
  | O => 0
  | S k' => elapsed_before k' + Z.of_N (delay (server k')) + pollInterval
  end.

End Wait.

(** The whole command from the parsed [--timeout] value. *)
Definition renders_status_wait (c : CanveleteAPIClient) (jobId : string)
    (server : nat -> Poll) (parsedTimeout : Js.Val) : WaitRun :=
  wait c jobId server (timeout_ms parsedTimeout).

(** *** The loop of [batch-render] *)

(** What the command leaves behind: the render requests issued in order,
    the files written, and the two counters of the summary line. *)
Record BatchRun : Type := {
  attempts : list Fetch;
  written : list (string * list Z);
  completed : nat;
  failed : nat
}.

Definition batch_start : BatchRun :=
  {| attempts := []; written := []; completed := 0; failed := 0 |}.

Section Batch.

Variable c : CanveleteAPIClient.
Variable outputDir : string.
(** The environment at the item numbered [i] from 0: what its render
    request resolves to, and whether [fs.writeFileSync] succeeds there. *)
Variable render_answer : nat -> Fetched.
Variable write_ok : nat -> string -> bool.

(** The argument [batch-render] gives [client.render] for one entry of the
    batch file (a JSON object, as its properties). *)
Definition item_options (config : list (string * Js.Val)) : RenderOptions :=
  {| designId := Js.assoc "designId" config;
     templateId := Js.assoc "templateId" config;
     format := Js.or (Js.assoc "format" config) (Js.Str "png");
     quality := Js.or (Js.assoc "quality" config) (Js.Num 90);
     dynamicData := Js.assoc "data" config;
     width := Js.assoc "width" config;
     height := Js.assoc "height" config |}.

(** [config.output || `${config.designId}.${config.format || 'png'}`] *)
Definition item_output (config : list (string * Js.Val)) : Js.Val :=
  Js.or (Js.assoc "output" config)
        (Js.Str (Js.show (Js.assoc "designId" config) +:+ "." +:+
                 Js.show (Js.or (Js.assoc "format" config) (Js.Str "png")))).

(** The body of the [try] block for item [i]: the file to write when
    nothing throws ([path.join] throws on a name that is not a string). *)
Definition try_item (i : nat) (config : list (string * Js.Val)) :
    option (string * list Z) :=
  match await_request (render c (item_options config)) (render_answer i) with
  | Ok (Binary bytes) =>
      match item_output config with
      | Js.Str name =>
          let outputPath := Path.path_join outputDir name in
          if write_ok i outputPath then Some (outputPath, bytes) else None
      | _ => None
      end
  | Ok (Json _) => None
  | Throw _ => None
  end.

(** One iteration: the request is issued, then [completed++] or, from the
    [catch] block, [failed++]. *)
Definition batch_item (i : nat) (config : list (string * Js.Val))
    (run : BatchRun) : BatchRun :=
  let issued := attempts run ++ [render c (item_options config)] in
  match try_item i config with
  | Some file =>
      {| attempts := issued; written := written run ++ [file];
         completed := S (completed run); failed := failed run |}
  | None =>
      {| attempts := issued; written := written run;
         completed := completed run; failed := S (failed run) |}
  end.

(** [for (const config of configs)] from item [i] on. *)
Fixpoint batch_loop (i : nat) (configs : list (list (string * Js.Val)))
    (run : BatchRun) : BatchRun :=
  match configs with
  | [] => run
  | config :: rest => batch_loop (S i) rest (batch_item i config run)
  end.

Definition batch_render (configs : list (list (string * Js.Val))) : BatchRun :=
  batch_loop 0 configs batch_start.

(** The number of items, numbered from [i], whose [try] block throws. *)
Fixpoint failures_from (i : nat) (configs : list (list (string * Js.Val))) : nat :=
  match configs with
  | [] => 0
  | config :: rest =>
      (match try_item i config with Some _ => 0 | None => 1 end)
      + failures_from (S i) rest
  end%nat.

End Batch.

(** *** Concrete servers *)

Definition job_with_status (s : string) : Js.Val :=
  Js.Obj [("id", Js.Str "job-1"); ("status", Js.Str s)].

Definition respond (job : Js.Val) : Fetched :=
  Responded {| r_ok := true; r_status := 200; r_json := Some job;
               r_bytes := [] |}.

(** Two [processing] answers, then [completed]; 150 ms round trips. *)
Definition finishing_server (k : nat) : Poll :=
  {| answer := respond (job_with_status
                          (if (k <? 2)%nat then "processing" else "completed"));
     delay := 150 |}.

(** Always [processing]; every round trip takes three seconds. *)
Definition slow_server (k : nat) : Poll :=
  {| answer := respond (job_with_status "processing"); delay := 3000 |}.

(** Always [processing], answered at once. *)
Definition instant_server (k : nat) : Poll :=
  {| answer := respond (job_with_status "processing"); delay := 0 |}.

End Renders.

(* ===================================================================== *)
(** ** The watch commands ([registerWatchCommands]): [watch <dataFile>] *)
(* ===================================================================== *)

Module Watch.
Import Client.

(** The data file as [render] sees it: its text and what [JSON.parse]
    makes of it ([None]: reading or parsing throws). *)
Record FileContent : Type := {
  text : string;
  parsed : option Js.Val
}.

(** The options the action reads; [debounce] is the value
    [parseInt(options.debounce)] gave. *)
Record Options : Type := {
  design : Js.Val;
  template : Js.Val;
  format : Js.Val;
  debounce : Js.Val
}.

(** The delay [setTimeout] uses: a delay that is not a number from 1 to
    2^31 - 1 is taken as 1 ms. *)
Definition timer_delay (ms : Js.Val) : Z :=
  match ms with
  | Js.Num d => if (1 <=? d) && (d <=? 2147483647) then d else 1
  | _ => 1
  end.

(** A call of [render] suspended at [await client.render(...)]. *)
Record InFlight : Type := {
  started_at : Z;
  request : Fetch
}.

(** The closure state of the action ([debounceTimer], [renderCount]) and
    what the runtime and the disk hold around it: the clock, the data
    file, the armed timers by handle and due time, the renders awaiting
    their response; [fired] lists the calls of [render] so far (time and
    content read), [saved] the files written (the values substituted for
    [{{count}}] and [{{timestamp}}]), [failures] counts the
    [Render failed] lines. *)
Record Session : Type := {
  now : Z;
  file : FileContent;
  debounceTimer : option nat;
  timers : list (nat * Z);
  nextHandle : nat;
  renderCount : nat;
  inflight : list InFlight;
  fired : list (Z * FileContent);
  saved : list (nat * Z);
  failures : nat
}.

Definition idle (content : FileContent) : Session :=
  {| now := 0; file := content; debounceTimer := None; timers := [];
     nextHandle := 0; renderCount := 0; inflight := []; fired := [];
     saved := []; failures := 0 |}.

Section Engine.

Variable c : CanveleteAPIClient.
Variable options : Options.

Definition render_request (dynamicData : Js.Val) : Fetch :=
  render c {| designId := design options; templateId := template options;
              Client.format := format options; quality := Js.Num 90;
              Client.dynamicData := dynamicData;
              width := Js.Undefined; height := Js.Undefined |}.

(** [render()] up to its [await], called at time [t]: the file is read
    and parsed; a parse error goes to the [catch] block, otherwise the
    request is issued and the call is suspended. *)
Definition render_begin (t : Z) (s : Session) : Session :=
  match parsed (file s) with
  | Some dynamicData =>
      {| now := now s; file := file s; debounceTimer := debounceTimer s;
         timers := timers s; nextHandle := nextHandle s;
         renderCount := renderCount s;
         inflight := inflight s ++ [{| started_at := t;
                                       request := render_request dynamicData |}];
         fired := fired s ++ [(t, file s)];
         saved := saved s; failures := failures s |}
  | None =>
      {| now := now s; file := file s; debounceTimer := debounceTimer s;
         timers := timers s; nextHandle := nextHandle s;
         renderCount := renderCount s; inflight := inflight s;
         fired := fired s ++ [(t, file s)];
         saved := saved s; failures := S (failures s) |}
  end.

(** The rest of [render()] for the suspended call numbered [k], when its
    request settles: on a response that is not an error the counter is
    incremented and the file written ([write_ok]: [mkdirSync] and
    [writeFileSync] do not throw); every throw ends in the [catch]. *)
Definition render_settle (k : nat) (answer : Fetched) (write_ok : bool)
    (s : Session) : Session :=
  match inflight s !! k with
  | None => s
  | Some call =>
      let remaining := delete k (inflight s) in
      match await_request (request call) answer with
      | Ok _ =>
          {| now := now s; file := file s; debounceTimer := debounceTimer s;
             timers := timers s; nextHandle := nextHandle s;
             renderCount := S (renderCount s); inflight := remaining;
             fired := fired s;
             saved := if write_ok
                      then saved s ++ [(S (renderCount s), now s)]
                      else saved s;
             failures := if write_ok then failures s else S (failures s) |}
      | Throw _ =>
          {| now := now s; file := file s; debounceTimer := debounceTimer s;
             timers := timers s; nextHandle := nextHandle s;
             renderCount := renderCount s; inflight := remaining;
             fired := fired s; saved := saved s;
             failures := S (failures s) |}
      end
  end.

(** [clearTimeout(h)] *)
Definition clearTimeout (h : nat) (ts : list (nat * Z)) : list (nat * Z) :=
  filter (fun tm => fst tm <> h) ts.

(** The [fs.watch] callback: only a [change] event re-arms the timer. *)
Definition on_fs_event (eventType : string) (s : Session) : Session :=
  if String.eqb eventType "change" then
    let cleared :=
      match debounceTimer s with
      | Some h => clearTimeout h (timers s)
      | None => timers s
      end in
    {| now := now s; file := file s;
       debounceTimer := Some (nextHandle s);
       timers := cleared ++ [(nextHandle s, now s + timer_delay (debounce options))];
       nextHandle := S (nextHandle s);
       renderCount := renderCount s; inflight := inflight s;
       fired := fired s; saved := saved s; failures := failures s |}
  else s.

(** The disk: the data file now holds [content]. *)
Definition set_file (content : FileContent) (s : Session) : Session :=
  {| now := now s; file := content; debounceTimer := debounceTimer s;
     timers := timers s; nextHandle := nextHandle s;
     renderCount := renderCount s; inflight := inflight s;
     fired := fired s; saved := saved s; failures := failures s |}.

Definition is_due (t : Z) (tm : nat * Z) : bool := snd tm <=? t.

(** The clock moves to [t]: the timers due by then leave the runtime's
    list and their callback, [render], runs at their due time. *)
Definition at_time (t : Z) (armed : list (nat * Z)) (s : Session) : Session :=
  {| now := t; file := file s; debounceTimer := debounceTimer s;
     timers := armed; nextHandle := nextHandle s;
     renderCount := renderCount s; inflight := inflight s;
     fired := fired s; saved := saved s; failures := failures s |}.

Definition advance (t : Z) (s : Session) : Session :=
  let due := filter (fun tm => is_due t tm = true) (timers s) in
  let later := filter (fun tm => is_due t tm = false) (timers s) in
  fold_left (fun s' tm => render_begin (snd tm) s') due (at_time t later s).

(** What the runtime delivers to the session. *)
Inductive Input : Type :=
| FsEvent (eventType : string) (content : FileContent)
| Settle (k : nat) (answer : Fetched) (write_ok : bool)
| Tick.

Definition handle (i : Input) (s : Session) : Session :=
  match i with
  | FsEvent eventType content => on_fs_event eventType (set_file content s)
  | Settle k answer write_ok => render_settle k answer write_ok s
  | Tick => s
  end.

(** One input, [dt] milliseconds after the previous one: the timers due
    in between fire first. *)
Definition step (s : Session) (timed : N * Input) : Session :=
  handle (snd timed) (advance (now s + Z.of_N (fst timed)) s).

Definition run (inputs : list (N * Input)) (s : Session) : Session :=
  fold_left step inputs s.

(** The action up to [fs.watch]: the initial render is awaited with no
    watcher registered and no timer armed. *)
Definition start (content : FileContent) (answer : Fetched) (write_ok : bool) :
    Session :=
  render_settle 0 answer write_ok (render_begin 0 (idle content)).

(** A burst of [change] events, each with the content the file then has. *)
Definition changes (events : list (N * FileContent)) : list (N * Input) :=
  map (fun e => (fst e, FsEvent "change" (snd e))) events.

(** Milliseconds covered by a list of timed items. *)
Definition span {A : Type} (events : list (N * A)) : Z :=
  fold_right (fun e acc => Z.of_N (fst e) + acc) 0 events.

(** Successive times at least [d] apart. *)
Fixpoint spaced (d : Z) (ts : list Z) : Prop :=
  match ts with
  | a :: (b :: _) as rest => a + d <= b /\ spaced d rest
  | _ => True
  end.

(** At most one timer is armed, and it is the one [debounceTimer] holds. *)
Definition one_timer (s : Session) : Prop :=
  match timers s with
  | [] => True
  | [(h, _)] => debounceTimer s = Some h
  | _ => False
  end.

(** What holds between two inputs of a session. *)
Record steady (s : Session) : Prop := {
  steady_timer : one_timer s;
  steady_past : Forall (fun f => fst f <= now s) (fired s);
  steady_due :
    Forall (fun tm => Forall (fun f => fst f + timer_delay (debounce options)
                                       <= snd tm) (fired s)) (timers s);
  steady_spaced : spaced (timer_delay (debounce options)) (map fst (fired s))
}.

End Engine.

(** *** Concrete sessions *)

Definition watch_options : Options :=
  {| design := Js.Str "design-1"; template := Js.Undefined;
     format := Js.Str "png"; debounce := Js.Num 500 |}.

(** The data file holding the JSON text [[n]]. *)
Definition data_v (n : Z) : FileContent :=
  {| text := "[" +:+ pretty n +:+ "]"; parsed := Some (Js.Arr [Js.Num n]) |}.

Definition png_response : Fetched :=
  Responded {| r_ok := true; r_status := 200; r_json := None;
               r_bytes := [137; 80; 78; 71] |}.

(** The session once the initial render has been saved. *)
Definition watching : Session :=
  start demo_client watch_options (data_v 0) png_response true.

(** A change, the timer firing 500 ms later, a second change 100 ms after
    that while the first request is still unanswered, and 500 ms more. *)
Definition overlapping_inputs : list (N * Input) :=
  [(1000%N, FsEvent "change" (data_v 1));
   (600%N, FsEvent "change" (data_v 2));
   (500%N, Tick)].

(** A debounce above what a timer holds, and three changes 100 ms apart. *)
Definition long_debounce_options : Options :=
  {| design := Js.Str "design-1"; template := Js.Undefined;
     format := Js.Str "png"; debounce := Js.Num 3000000000 |}.

Definition watching_long : Session :=
  start demo_client long_debounce_options (data_v 0) png_response true.

Definition three_changes : list (N * FileContent) :=
  [(1000%N, data_v 1); (100%N, data_v 2); (100%N, data_v 3)].

End Watch.

(* ===================================================================== *)
(** ** The watch commands ([registerWatchCommands]): [watch-dir
    <directory>] *)
(* ===================================================================== *)

Module WatchDir.
Import Client.

Record Options : Type := {
  design : Js.Val;
  template : Js.Val;
  format : Js.Val;
  outputDir : string;
  deleteAfter : bool
}.

(** The environment of one [processFile] call that gets past its guards:
    what [readFileSync] and [JSON.parse] give ([None]: one of them
    throws), what the render request resolves to, and whether the writes
    after it succeed. *)
Record Attempt : Type := {
  content : option Js.Val;
  answer : Fetched;
  write_ok : bool
}.

(** Where a [processFile] call comes from: the loop over the files found
    at startup, or a timer set by the [fs.watch] callback. *)
Inductive Origin : Type :=
| AtStartup
| FromEvent.

(** A [processFile] call suspended at [await client.render(...)]. *)
Record InFlight : Type := {
  path : string;
  request : Fetch
}.

(** [processedFiles], the runtime's armed timers (each holds the path its
    callback will process; all have the same 100 ms delay, so the oldest
    fires first) and suspended calls; [processed] lists the calls that got
    past the guards, in order. *)
Record Session : Type := {
  processedFiles : gset string;
  timers : list string;
  inflight : list InFlight;
  processed : list (Origin * string);
  outputs : list string;
  deleted : list string;
  failures : nat
}.

Definition fresh : Session :=
  {| processedFiles := ∅; timers := []; inflight := []; processed := [];
     outputs := []; deleted := []; failures := 0 |}.

Section Engine.

Variable c : CanveleteAPIClient.
Variable options : Options.
Variable directory : string.

Definition render_request (dynamicData : Js.Val) : Fetch :=
  render c {| designId := design options; templateId := template options;
              Client.format := format options; quality := Js.Num 90;
              Client.dynamicData := dynamicData;
              width := Js.Undefined; height := Js.Undefined |}.

(** [processFile(filePath)] up to its [await]. *)
Definition processFile_begin (origin : Origin) (filePath : string)
    (data : option Js.Val) (s : Session) : Session :=
  let fileName := Path.basename filePath in
  if decide (filePath ∈ processedFiles s) then s
  else if negb (Path.endsWith fileName ".json") then s
  else
    let marked := {[ filePath ]} ∪ processedFiles s in
    match data with
    | Some dynamicData =>
        {| processedFiles := marked; timers := timers s;
           inflight := inflight s ++ [{| path := filePath;
                                         request := render_request dynamicData |}];
           processed := processed s ++ [(origin, filePath)];
           outputs := outputs s; deleted := deleted s;
           failures := failures s |}
    | None =>
        {| processedFiles := marked; timers := timers s;
           inflight := inflight s;
           processed := processed s ++ [(origin, filePath)];
           outputs := outputs s; deleted := deleted s;
           failures := S (failures s) |}
    end.

(** The rest of [processFile] for the suspended call numbered [k]. *)
Definition processFile_settle (k : nat) (answer : Fetched) (write_ok : bool)
    (s : Session) : Session :=
  match inflight s !! k with
  | None => s
  | Some call =>
      let remaining := delete k (inflight s) in
      let fileName := Path.basename (path call) in
      let outputName :=
        Path.replace fileName ".json" ("." +:+ Js.show (format options)) in
      let outputPath := Path.path_join (outputDir options) outputName in
      match await_request (request call) answer with
      | Ok _ =>
          if write_ok then
            {| processedFiles := processedFiles s; timers := timers s;
               inflight := remaining; processed := processed s;
               outputs := outputs s ++ [outputPath];
               deleted := if deleteAfter options
                          then deleted s ++ [path call] else deleted s;
               failures := failures s |}
          else
            {| processedFiles := processedFiles s; timers := timers s;
               inflight := remaining; processed := processed s;
               outputs := outputs s; deleted := deleted s;
               failures := S (failures s) |}
      | Throw _ =>
          {| processedFiles := processedFiles s; timers := timers s;
             inflight := remaining; processed := processed s;
             outputs := outputs s; deleted := deleted s;
             failures := S (failures s) |}
      end
  end.

(** [await processFile(file)] with nothing else able to run: no watcher
    is registered yet and no timer armed. *)
Definition processFile_awaited (filePath : string) (a : Attempt) (s : Session) :
    Session :=
  let begun := processFile_begin AtStartup filePath (content a) s in
  if decide (length (inflight begun) = length (inflight s)) then begun
  else processFile_settle (length (inflight s)) (answer a) (write_ok a) begun.

(** [readdirSync(directory).filter(...).map(...)] on the listing. *)
Definition existingFiles (listing : list string) : list string :=
  (Path.path_join directory)
    <$> (filter (fun f => Path.endsWith f ".json" = true) listing).

(** [for (const file of existingFiles) await processFile(file)], from the
    file numbered [i]. *)
Fixpoint process_existing (i : nat) (files : list string)
    (env : nat -> Attempt) (s : Session) : Session :=
  match files with
  | [] => s
  | file :: rest =>
      process_existing (S i) rest env (processFile_awaited file (env i) s)
  end.

(** The [fs.watch] callback; [present] is [fs.existsSync(filePath)]. *)
Definition on_dir_event (filename : option string) (present : bool)
    (s : Session) : Session :=
  match filename with
  | Some name =>
      if Js.truthy (Js.Str name) && Path.endsWith name ".json" && present then
        {| processedFiles := processedFiles s;
           timers := timers s ++ [Path.path_join directory name];
           inflight := inflight s; processed := processed s;
           outputs := outputs s; deleted := deleted s;
           failures := failures s |}
      else s
  | None => s
  end.

(** The oldest armed timer fires: [processFile(filePath)] begins. *)
Definition on_timeout (data : option Js.Val) (s : Session) : Session :=
  match timers s with
  | [] => s
  | filePath :: later =>
      processFile_begin FromEvent filePath data
        {| processedFiles := processedFiles s; timers := later;
           inflight := inflight s; processed := processed s;
           outputs := outputs s; deleted := deleted s;
           failures := failures s |}
  end.

(** What the runtime delivers once [fs.watch] is registered. *)
Inductive Input : Type :=
| DirEvent (eventType : string) (filename : option string) (present : bool)
| Timeout (data : option Js.Val)
| Settle (k : nat) (answer : Fetched) (write_ok : bool).

Definition step (s : Session) (i : Input) : Session :=
  match i with
  | DirEvent _ filename present => on_dir_event filename present s
  | Timeout data => on_timeout data s
  | Settle k answer write_ok => processFile_settle k answer write_ok s
  end.

(** The action: the files found at startup, then the watcher's inputs. *)
Definition startup (listing : list string) (env : nat -> Attempt) : Session :=
  process_existing 0 (existingFiles listing) env fresh.

Definition watch_dir (listing : list string) (env : nat -> Attempt)
    (inputs : list Input) : Session :=
  fold_left step inputs (startup listing env).

(** The path [processFile] writes for an input path. *)
Definition output_for (filePath : string) : string :=
  Path.path_join (outputDir options)
    (Path.replace (Path.basename filePath) ".json"
       ("." +:+ Js.show (format options))).

(** The file parses, the response is ok and the writes go through. *)
Definition succeeds (a : Attempt) : bool :=
  match content a, answer a with
  | Some _, Responded r => r_ok r && write_ok a
  | _, _ => false
  end.

(** [processedFiles] holds exactly the paths of [processed], each once. *)
Definition tracked (s : Session) : Prop :=
  NoDup (snd <$> processed s)
  /\ (forall p, p ∈ processedFiles s <-> p ∈ snd <$> processed s).

End Engine.

(** *** A concrete directory *)

Definition dir_options : Options :=
  {| design := Js.Str "design-1"; template := Js.Undefined;
     format := Js.Str "png"; outputDir := "rendered"; deleteAfter := false |}.

Definition queue_listing : list string := ["b.json"; "notes.txt"; "a.json"].

Definition good_attempt : Attempt :=
  {| content := Some (Js.Obj [("name", Js.Str "x")]);
     answer := Responded {| r_ok := true; r_status := 200; r_json := None;
                            r_bytes := [137; 80; 78; 71] |};
     write_ok := true |}.

(** A new file, the same file reported again, and a file that was there at
    startup, each followed by its timer. *)
Definition queue_inputs : list Input :=
  [DirEvent "rename" (Some "c.json") true; Timeout (content good_attempt);
   DirEvent "change" (Some "c.json") true; Timeout (content good_attempt);
   DirEvent "change" (Some "b.json") true; Timeout (content good_attempt)].

End WatchDir.

(* ===================================================================== *)
(** ** More of the string methods the commands use, and [parseInt] *)
(* ===================================================================== *)

Module Text.

(** [s.substring(0, n)] *)
Fixpoint str_take (n : nat) (s : string) : string :=
  match n, s with
  | S n', String c rest => String c (str_take n' rest)
  | _, _ => ""
  end.

(** [s.substring(n)] *)
Fixpoint str_drop (n : nat) (s : string) : string :=
  match n, s with
  | S n', String _ rest => str_drop n' rest
  | _, _ => s
  end.

(** [s.startsWith(p)] *)
Fixpoint startsWith (s p : string) : bool :=
  match p, s with
  | EmptyString, _ => true
  | String a p', String b s' => Ascii.eqb a b && startsWith s' p'
  | String _ _, EmptyString => false
  end.

(** [s.includes(p)] *)
Fixpoint includes (s p : string) : bool :=
  if startsWith s p then true
  else match s with
       | String _ rest => includes rest p
       | EmptyString => false
       end.

(** [s.toLowerCase()] on the letters A to Z. *)
Definition lower_char (c : ascii) : ascii :=
  let n := nat_of_ascii c in
  if (65 <=? n)%nat && (n <=? 90)%nat then ascii_of_nat (n + 32) else c.

Fixpoint toLowerCase (s : string) : string :=
  match s with
  | EmptyString => EmptyString
  | String c rest => String (lower_char c) (toLowerCase rest)
  end.

(** [list.includes(x)] on strings. *)
Definition list_includes (l : list string) (x : string) : bool :=
  existsb (String.eqb x) l.

(** The results of [parseInt]: an integer that is a double, [NaN], or
    an infinity. *)
Inductive Number : Type :=
| Int (z : Z)
| NotANumber
| Infinite (negative : bool).

(** The result as a value; the infinities are not among [Js.Val]. *)
Definition val (n : Number) : option Js.Val :=
  match n with
  | Int z => Some (Js.Num z)
  | NotANumber => Some Js.NaN
  | Infinite _ => None
  end.

(** The double nearest to the integer [n >= 0], ties going to the even
    significand of 53 bits; [None] past the largest double. *)
Definition nearest_double (n : Z) : option Z :=
  let bits := Z.log2 n + 1 in
  if bits <=? 53 then Some n
  else
    let shift := bits - 53 in
    let q := Z.shiftr n shift in
    let r := n - Z.shiftl q shift in
    let half := Z.shiftl 1 (shift - 1) in
    let q := if (half <? r) || ((r =? half) && Z.odd q) then q + 1 else q in
    let m := Z.shiftl q shift in
    if m <? 2 ^ 1024 then Some m else None.

(** White space [parseInt] skips (the ASCII part of it). *)
Definition is_space (c : ascii) : bool :=
  let n := nat_of_ascii c in
  (n =? 32)%nat || ((9 <=? n)%nat && (n <=? 13)%nat).

Fixpoint skip_spaces (s : string) : string :=
  match s with
  | String c rest => if is_space c then skip_spaces rest else s
  | EmptyString => EmptyString
  end.

(** The value of a digit in the radix, if it is one. *)
Definition digit (radix : Z) (c : ascii) : option Z :=
  let n := Z.of_nat (nat_of_ascii c) in
  let v := if (48 <=? n) && (n <=? 57) then Some (n - 48)
           else if (97 <=? n) && (n <=? 122) then Some (n - 87)
           else if (65 <=? n) && (n <=? 90) then Some (n - 55)
           else None in
  match v with
  | Some d => if d <? radix then Some d else None
  | None => None
  end.

(** The longest run of digits at the start; [None] when there is none. *)
Fixpoint digits (radix : Z) (s : string) (acc : Z) (seen : bool) : option Z :=
  match s with
  | String c rest =>
      match digit radix c with
      | Some d => digits radix rest (acc * radix + d) true
      | None => if seen then Some acc else None
      end
  | EmptyString => if seen then Some acc else None
  end.

(** [parseInt(s)] without a radix argument: leading white space, a sign,
    a [0x] prefix for radix 16, then the digits up to the first character
    that is none; the integer they write is rounded to a double, as Node's
    engine does it (the two zeros are not told apart). *)
Definition parseInt (s : string) : Number :=
  let s := skip_spaces s in
  let signed :=
    match s with
    | String c rest =>
        if Ascii.eqb c "-"%char then (true, rest)
        else if Ascii.eqb c "+"%char then (false, rest)
        else (false, s)
    | EmptyString => (false, s)
    end in
  let prefixed :=
    match snd signed with
    | String z (String x rest) =>
        if Ascii.eqb z "0"%char && (Ascii.eqb x "x"%char || Ascii.eqb x "X"%char)
        then (16, rest) else (10, snd signed)
    | _ => (10, snd signed)
    end in
  match digits (fst prefixed) (snd prefixed) 0 false with
  | Some v =>
      match nearest_double v with
      | Some m => Int (if fst signed then - m else m)
      | None => Infinite (fst signed)
      end
  | None => NotANumber
  end.

End Text.

(* ===================================================================== *)
(** ** src/client.js: [renderAsync] and [exportDesign] *)
(* ===================================================================== *)

Module Api.
Import Client.

(** The [data] object [renderAsync] builds. *)
Definition renderAsync_data (options : RenderOptions) : list (string * Js.Val) :=
  let data := [("format", Js.or (format options) (Js.Str "png"));
               ("quality", Js.or (quality options) (Js.Num 90));
               ("async", Js.Bool true)] in
  let data := set_if "designId" (designId options) data in
  let data := set_if "templateId" (templateId options) data in
  let data := set_if "dynamicData" (dynamicData options) data in
  data.

Definition renderAsync (c : CanveleteAPIClient) (options : RenderOptions) : Fetch :=
  request c "POST" "/api/v1/render/async"
    {| json := Some (renderAsync_data options); params := None;
       binary := false |}.

(** A default parameter value: used for [undefined] only. *)
Definition param_default (v fallback : Js.Val) : Js.Val :=
  match v with
  | Js.Undefined => fallback
  | _ => v
  end.

(** [exportDesign(designId, format = 'png', quality = 100)] *)
Definition exportDesign (c : CanveleteAPIClient) (designId : string)
    (format quality : Js.Val) : Fetch :=
  request c "POST" ("/api/automation/designs/" +:+ designId +:+ "/export")
    {| json := Some [("format", param_default format (Js.Str "png"));
                     ("quality", param_default quality (Js.Num 100))];
       params := None; binary := true |}.

(** What [JSON.stringify] writes for an object, an array or one of their
    members, as the server reads it back: [NaN] is written as [null], a
    property that holds [undefined] is left out, and [undefined] in an
    array is written as [null]. *)
Fixpoint stringified (v : Js.Val) : Js.Val :=
  match v with
  | Js.NaN | Js.Undefined => Js.Null
  | Js.Obj fields =>
      Js.Obj ((fix props (l : list (string * Js.Val)) : list (string * Js.Val) :=
                 match l with
                 | [] => []
                 | (k, Js.Undefined) :: rest => props rest
                 | (k, x) :: rest => (k, stringified x) :: props rest
                 end) fields)
  | Js.Arr items => Js.Arr (map stringified items)
  | _ => v
  end.

(** The property [k] of the body as the server reads it; [undefined]
    when the body has none. *)
Definition sent_get (f : Fetch) (k : string) : Js.Val :=
  match f_body f with
  | Some data => Js.get (stringified (Js.Obj data)) k
  | None => Js.Undefined
  end.

End Api.

(* ===================================================================== *)
(** ** src/config.js, src/commands/auth.js and src/commands/config.js:
    authentication and settings *)
(* ===================================================================== *)

Module Cli.
Import Store.

(** [getBaseUrl()] *)
Definition getBaseUrl (env : Env) (st : State) : string :=
  match CANVELETE_BASE_URL env with
  | Some url => if non_empty url then url else baseUrl (config st)
  | None => baseUrl (config st)
  end.

(** [createClient()]: the constructor reads both settings. *)
Definition createClient (env : Env) (st : State) : Client.CanveleteAPIClient :=
  {| Client.apiKey := getApiKey env st; Client.baseUrl := getBaseUrl env st |}.

(** [requireAuth()]: the key, or the exit of a command that is not
    authenticated. *)
Definition requireAuth (env : Env) (st : State) : string + Outcome :=
  if non_empty (getApiKey env st) then inl (getApiKey env st)
  else inr (Exit 1 "Error: Not authenticated.").

(** [auth login]: [key] is [--key], [prompted] the answer to the prompt
    (asked when [--key] is missing or empty), [validation] what the test
    request resolves to. *)
Definition auth_login (key : option string) (prompted : string)
    (validation : Client.Fetched) (st : State) : Outcome * State :=
  let apiKey :=
    match key with
    | Some k => if non_empty k then k else prompted
    | None => prompted
    end in
  match validation with
  | Client.Rejected message =>
      (Exit 1 ("Authentication failed: " +:+ message), st)
  | Client.Responded response =>
      if Client.r_ok response then
        (Done "Successfully authenticated!", setApiKey apiKey st)
      else if Client.r_status response =? 401 then
        (Exit 1 "Invalid API key. Please check and try again.", st)
      else
        (Exit 1 ("Authentication failed: Validation failed: "
                 +:+ pretty (Client.r_status response)), st)
  end.

(** [auth logout] *)
Definition auth_logout (st : State) : Outcome * State :=
  (Done "Logged out successfully.", clearApiKey st).

(** The key preview of [auth status], [auth token], [whoami] and
    [config list]: [`${k.substring(0, 8)}...${k.substring(k.length - 4)}`]. *)
Definition key_preview (k : string) : string :=
  Text.str_take 8 k +:+ "..." +:+ Text.str_drop (String.length k - 4) k.

(** The characters of the key the preview shows neither at its start nor
    at its end. *)
Definition hidden (k : string) : string :=
  Text.str_drop 8 (Text.str_take (String.length k - 4) k).

(** [auth token]; [show] is [--show]. *)
Definition auth_token (show : bool) (env : Env) (st : State) : Outcome :=
  if non_empty (getApiKey env st) then
    Done (if show then getApiKey env st else key_preview (getApiKey env st))
  else Exit 1 "Not authenticated.".

(** [setConfig(key, value)] for the keys [config set] lets through. *)
Definition setConfig_baseUrl (url : string) (st : State) : State :=
  {| config := {| apiKey := apiKey (config st); baseUrl := url;
                  defaultFormat := defaultFormat (config st);
                  defaultQuality := defaultQuality (config st) |};
     profilesConfig := profilesConfig st |}.

Definition setConfig_defaultFormat (fmt : string) (st : State) : State :=
  {| config := {| apiKey := apiKey (config st); baseUrl := baseUrl (config st);
                  defaultFormat := fmt;
                  defaultQuality := defaultQuality (config st) |};
     profilesConfig := profilesConfig st |}.

Definition setConfig_defaultQuality (q : Z) (st : State) : State :=
  {| config := {| apiKey := apiKey (config st); baseUrl := baseUrl (config st);
                  defaultFormat := defaultFormat (config st);
                  defaultQuality := q |};
     profilesConfig := profilesConfig st |}.

(** [config set <key> <value>] *)
Definition config_set (key value : string) (st : State) : Outcome * State :=
  if negb (Text.list_includes ["baseUrl"; "defaultFormat"; "defaultQuality"] key)
  then (Exit 1 ("Cannot set " +:+ dq +:+ key +:+ dq
                +:+ ". Use " +:+ dq +:+ "canvelete auth login" +:+ dq
                +:+ " for API key."), st)
  else if String.eqb key "defaultQuality" then
    match Text.parseInt value with
    | Text.Int q =>
        if (q <? 1) || (100 <? q)
        then (Exit 1 "Quality must be a number between 1 and 100", st)
        else (Done ("Set defaultQuality = " +:+ pretty q),
              setConfig_defaultQuality q st)
    | Text.NotANumber | Text.Infinite _ =>
        (Exit 1 "Quality must be a number between 1 and 100", st)
    end
  else if String.eqb key "baseUrl" then
    (Done ("Set baseUrl = " +:+ value), setConfig_baseUrl value st)
  else
    (Done ("Set defaultFormat = " +:+ value), setConfig_defaultFormat value st).

(** A sequence of [config set] commands. *)
Definition config_sets (commands : list (string * string)) (st : State) : State :=
  fold_left (fun s kv => snd (config_set (fst kv) (snd kv) s)) commands st.

End Cli.

(* ===================================================================== *)
(** ** src/commands/profiles.js: [add], [export] and [import] *)
(* ===================================================================== *)

Module Profiles.
Import Store.

(** The answers to the prompts of [profiles add]: to the overwrite
    question, to the key prompt and to the switch question; [now] is
    [new Date().toISOString()]. *)
Record AddAnswers : Type := {
  overwrite : bool;
  promptedKey : string;
  switchTo : bool;
  now : string
}.

(** [allProfiles[name] = profile]: under the name [__proto__], on an
    object with no such property of its own, the assignment sets the
    object's prototype and adds no property. *)
Definition assign (name : string) (profile : Profile)
    (all : gmap string Profile) : gmap string Profile :=
  if String.eqb name "__proto__" && negb (bool_decide (is_Some (all !! name)))
  then all
  else <[name := profile]> all.

(** [profiles add <name>] with its [--key], [--description] and
    [--base-url] options.  The overwrite question is asked when
    [allProfiles[name]] is truthy, which it also is for a name every
    object inherits. *)
Definition profiles_add (name : string) (key description url : option string)
    (answers : AddAnswers) (st : State) : Outcome * State :=
  let allProfiles := profiles (profilesConfig st) in
  if has_member allProfiles name && negb (overwrite answers)
  then (Done "Cancelled.", st)
  else
    let apiKey :=
      match key with
      | Some k => if non_empty k then k else promptedKey answers
      | None => promptedKey answers
      end in
    let profile :=
      {| p_apiKey := apiKey;
         p_description := match description with
                          | Some d => d
                          | None => ""
                          end;
         p_baseUrl := match url with
                      | Some u => if non_empty u then u
                                  else "https://www.canvelete.com"
                      | None => "https://www.canvelete.com"
                      end;
         p_createdAt := now answers |} in
    let st := setProfiles (assign name profile allProfiles) st in
    if switchTo answers then
      (Done ("Switched to " +:+ dq +:+ name +:+ dq),
       setApiKey apiKey (setActiveProfile name st))
    else (Done ("Profile " +:+ dq +:+ name +:+ dq +:+ " created"), st).

(** The masked key of [profiles export]. *)
Definition mask_key (k : string) : string := Text.str_take 8 k +:+ "...".

(** One exported entry; [includeKeys] is [--include-keys]. *)
Definition export_profile (includeKeys : bool) (p : Profile) : Profile :=
  {| p_apiKey := if includeKeys then p_apiKey p else mask_key (p_apiKey p);
     p_description := p_description p;
     p_baseUrl := p_baseUrl p;
     p_createdAt := p_createdAt p |}.

(** [profiles export]: the object that is printed. *)
Definition profiles_export (includeKeys : bool) (st : State) :
    gmap string Profile :=
  export_profile includeKeys <$> profiles (profilesConfig st).

(** The test [profiles import] applies to an entry. *)
Definition importable (p : Profile) : bool :=
  non_empty (p_apiKey p) && negb (Text.includes (p_apiKey p) "...").

(** [profiles import <file>] on a file holding an object of profile
    entries; [merge] is [--merge].  The result carries the count of the
    success message. *)
Definition profiles_import (merge : bool) (imported : gmap string Profile)
    (st : State) : nat * State :=
  let base := if merge then profiles (profilesConfig st) else ∅ in
  let accepted := filter (fun entry => importable (snd entry) = true) imported in
  (size accepted, setProfiles (accepted ∪ base) st).

End Profiles.

(* ===================================================================== *)
(** ** The render commands: [render] up to its request, [batch-render]
    from its batch file, and [export] *)
(* ===================================================================== *)

Module RenderCmd.
Import Client Store.

(** The options of [render] as commander gives them: strings where a
    value was given, [format] and [quality] with their defaults. *)
Record Args : Type := {
  design : option string;
  template : option string;
  format : string;
  quality : string;
  width : option string;
  height : option string;
  data : option string;
  dataFile : option string;
  async : bool
}.

(** What the file system and [JSON.parse] give for [--data-file] and for
    [--data] ([None]: reading or parsing throws), and what [parseInt]
    gives for [--quality], [--width] and [--height]. *)
Record Inputs : Type := {
  dataFileJson : option Js.Val;
  dataJson : option Js.Val;
  qualityNumber : Js.Val;
  widthNumber : Js.Val;
  heightNumber : Js.Val
}.

(** [parseInt(text)] is the value [v]. *)
Definition reads (text : string) (v : Js.Val) : Prop :=
  Text.val (Text.parseInt text) = Some v.

(** The numbers of the inputs are those [parseInt] reads from the
    options. *)
Definition parsed_by (a : Args) (i : Inputs) : Prop :=
  reads (quality a) (qualityNumber i)
  /\ (forall w, width a = Some w -> reads w (widthNumber i))
  /\ (forall h, height a = Some h -> reads h (heightNumber i)).

(** Truthiness of an option value. *)
Definition given (o : option string) : bool :=
  match o with
  | Some s => non_empty s
  | None => false
  end.

Definition opt_val (o : option string) : Js.Val :=
  match o with
  | Some s => Js.Str s
  | None => Js.Undefined
  end.

(** [if (options.width) renderOptions.width = parseInt(options.width)];
    [number] is what [parseInt] gives. *)
Definition parsed_if_given (o : option string) (number : Js.Val) : Js.Val :=
  if given o then number else Js.Undefined.

(** The [renderOptions] object. *)
Definition renderOptions (a : Args) (i : Inputs) (dynamicData : Js.Val) :
    RenderOptions :=
  {| designId := opt_val (design a);
     templateId := opt_val (template a);
     Client.format := Js.Str (format a);
     Client.quality := qualityNumber i;
     Client.dynamicData := dynamicData;
     Client.width := parsed_if_given (width a) (widthNumber i);
     Client.height := parsed_if_given (height a) (heightNumber i) |}.

(** The dynamic data: [--data-file] first, else [--data], else [null];
    an exit when the chosen source does not parse. *)
Definition dynamic_data (a : Args) (i : Inputs) : Js.Val + Outcome :=
  if given (dataFile a) then
    match dataFileJson i with
    | Some v => inl v
    | None => inr (Exit 1 "Failed to read data file")
    end
  else if given (data a) then
    match dataJson i with
    | Some v => inl v
    | None => inr (Exit 1 "Invalid JSON data")
    end
  else inl Js.Null.

(** The action of [render] up to the request it awaits: an exit, or the
    request issued. *)
Definition prepare (env : Env) (st : State) (a : Args) (i : Inputs) :
    Fetch + Outcome :=
  match Cli.requireAuth env st with
  | inr exit => inr exit
  | inl _ =>
      if negb (given (design a)) && negb (given (template a))
      then inr (Exit 1 "Either --design or --template is required")
      else
        match dynamic_data a i with
        | inr exit => inr exit
        | inl dynamicData =>
            let client := Cli.createClient env st in
            if async a
            then inl (Api.renderAsync client (renderOptions a i dynamicData))
            else inl (render client (renderOptions a i dynamicData))
        end
  end.

(** A command line used as a concrete input: quality and width 0, data
    given both ways. *)
Definition demo_args : Args :=
  {| design := Some "design-1"; template := None; format := "png";
     quality := "0"; width := Some "0"; height := Some "600";
     data := Some "[1]"; dataFile := Some "data.json"; async := false |}.

Definition demo_inputs : Inputs :=
  {| dataFileJson := Some (Js.Arr [Js.Num 2]);
     dataJson := Some (Js.Arr [Js.Num 1]);
     qualityNumber := Js.Num 0; widthNumber := Js.Num 0;
     heightNumber := Js.Num 600 |}.

(** [export <designId>] up to its request. *)
Definition validFormats : list string := ["png"; "jpg"; "jpeg"; "pdf"; "svg"].

(** [quality] is what [parseInt] gives for [--quality]. *)
Definition export_prepare (env : Env) (st : State) (designId format : string)
    (quality : Js.Val) : Fetch + Outcome :=
  match Cli.requireAuth env st with
  | inr exit => inr exit
  | inl _ =>
      let format := Text.toLowerCase format in
      if negb (Text.list_includes validFormats format)
      then inr (Exit 1 ("Invalid format: " +:+ format))
      else inl (Api.exportDesign (Cli.createClient env st) designId
                  (Js.Str format) quality)
  end.

(** *** [batch-render] from the parsed batch file *)

(** The properties the loop reads on an entry: those of an object, none
    on another value; reading a property of [null] throws. *)
Definition entry_fields (v : Js.Val) : option (list (string * Js.Val)) :=
  match v with
  | Js.Obj fields => Some fields
  | Js.Null | Js.Undefined => None
  | _ => Some []
  end.

(** How [batch-render] ends: an exit before the loop, the summary line
    after it, or the uncaught error of an entry read outside the [try]. *)
Inductive BatchEnd : Type :=
| Refused (exit : Outcome)
| Summary (run : Renders.BatchRun)
| Uncaught (run : Renders.BatchRun).

Definition run_of (e : BatchEnd) : Renders.BatchRun :=
  match e with
  | Refused _ => Renders.batch_start
  | Summary run | Uncaught run => run
  end.

Section Batch.

Variable c : CanveleteAPIClient.
Variable outputDir : string.
Variable render_answer : nat -> Fetched.
Variable write_ok : nat -> string -> bool.

(** The [for] loop over the array's items. *)
Fixpoint batch_entries (i : nat) (items : list Js.Val) (run : Renders.BatchRun) :
    BatchEnd :=
  match items with
  | [] => Summary run
  | item :: rest =>
      match entry_fields item with
      | None => Uncaught run
      | Some config =>
          batch_entries (S i) rest
            (Renders.batch_item c outputDir render_answer write_ok i config run)
      end
  end.

(** [file] is what [JSON.parse] gives for the batch file ([None]: reading
    or parsing throws, and the message goes on with the error's own
    text).  The command is authenticated, [--file] is given and
    [mkdirSync] does not throw. *)
Definition batch_command (file : option Js.Val) : BatchEnd :=
  match file with
  | None => Refused (Exit 1 "Failed to read batch file")
  | Some (Js.Arr (item :: rest)) =>
      batch_entries 0 (item :: rest) Renders.batch_start
  | Some _ =>
      Refused (Exit 1 "Batch file must contain an array of render configurations")
  end.

End Batch.

End RenderCmd.

(* ===================================================================== *)
(** ** A server whose second answer is an HTTP error *)
(* ===================================================================== *)

Module WaitInputs.

Definition failing_server (k : nat) : Renders.Poll :=
  {| Renders.answer :=
       if (k <? 1)%nat then Renders.respond (Renders.job_with_status "pending")
       else Client.Responded {| Client.r_ok := false; Client.r_status := 500;
                                Client.r_json := None; Client.r_bytes := [] |};
     Renders.delay := 100 |}.

End WaitInputs.

(* ===================================================================== *)
(** ** The watch commands: the output path of [watch] *)
(* ===================================================================== *)

Module WatchOut.

(** The path [render] writes to: [output] is [--output]; [t1] and [t2]
    are the two readings of [Date.now()], [count] the incremented
    counter. *)
Definition output_path (output : option string) (format : Js.Val)
    (t1 t2 : Z) (count : nat) : string :=
  let outputPath :=
    match output with
    | Some o => if Store.non_empty o then o
                else "output_" +:+ pretty t1 +:+ "." +:+ Js.show format
    | None => "output_" +:+ pretty t1 +:+ "." +:+ Js.show format
    end in
  let outputPath := Path.replace outputPath "{{timestamp}}" (pretty t2) in
  Path.replace outputPath "{{count}}" (pretty count).

(** The paths of the files a session has written under [--output]. *)
Definition saved_paths (output : option string) (format : Js.Val)
    (s : Watch.Session) : list string :=
  map (fun e => output_path output format (snd e) (snd e) (fst e))
      (Watch.saved s).

(** No [Settle] input with a failing write. *)
Definition writes_succeed (inputs : list (N * Watch.Input)) : Prop :=
  Forall (fun i => match snd i with
                   | Watch.Settle _ _ false => False
                   | _ => True
                   end) inputs.

(** Every call of [render] so far is awaiting its response, has written
    its file, or has logged a failure. *)
Definition accounted (s : Watch.Session) : Prop :=
  length (Watch.fired s)
  = (length (Watch.inflight s) + length (Watch.saved s) + Watch.failures s)%nat.

(** The values [{{count}}] took in the files written. *)
Definition saved_counts (s : Watch.Session) : list nat :=
  map fst (Watch.saved s).

(** A change whose render is answered. *)
Definition numbered_inputs : list (N * Watch.Input) :=
  [(1000%N, Watch.FsEvent "change" (Watch.data_v 1));
   (600%N, Watch.Settle 0 Watch.png_response true)].

End WatchOut.

(* ===================================================================== *)
(** ** The watch commands: a [watch-dir] session awaiting one answer *)
(* ===================================================================== *)

Module WatchDirOut.

Definition one_in_flight : WatchDir.Session :=
  {| WatchDir.processedFiles := {[ "queue/a.json" ]};
     WatchDir.timers := [];
     WatchDir.inflight :=
       [{| WatchDir.path := "queue/a.json";
           WatchDir.request :=
             WatchDir.render_request Client.demo_client WatchDir.dir_options
               (Js.Obj [("name", Js.Str "x")]) |}];
     WatchDir.processed := [(WatchDir.AtStartup, "queue/a.json")];
     WatchDir.outputs := [];
     WatchDir.deleted := [];
     WatchDir.failures := 0 |}.

End WatchDirOut.

(* ===================================================================== *)
(** ** src/output.js: [truncate] *)
(* ===================================================================== *)

Module Output.

(** [truncate(str, length)]; [None] stands for a missing value. *)
Definition truncate (str : option string) (length : nat) : string :=
  match str with
  | None => "-"
  | Some s =>
      if String.eqb s "" then "-"
      else if (length <? String.length s)%nat
           then Text.str_take (length - 3) s +:+ "..."
           else s
  end.

End Output.

(* ===================================================================== *)
(** ** Properties of strings and paths *)
(* ===================================================================== *)

Module PathFacts.
Import Path.

Lemma chars_of_chars (l : list ascii) : chars (of_chars l) = l.
Proof. apply list_ascii_of_string_of_list_ascii. Qed.

Lemma chars_app (a b : string) : chars (a +:+ b) = chars a ++ chars b.
Proof. induction a as [|x a IH]; simpl; [reflexivity|]. now rewrite IH. Qed.

Lemma starts_with_app (pre l more : list ascii) :
  starts_with pre l = true -> starts_with pre (l ++ more) = true.
Proof.
  revert l. induction pre as [|a pre IH]; intros l; [reflexivity|].
  destruct l as [|b l]; simpl; [discriminate|].
  destruct (Ascii.eqb a b); simpl; [apply IH|discriminate].
Qed.

Lemma endsWith_app (a b suffix : string) :
  endsWith b suffix = true -> endsWith (a +:+ b) suffix = true.
Proof.
  unfold endsWith. intros H. rewrite chars_app, rev_app_distr.
  now apply starts_with_app.
Qed.

Lemma starts_with_spec (pre l : list ascii) :
  starts_with pre l = true -> exists rest, l = pre ++ rest.
Proof.
  revert l. induction pre as [|a pre IH]; intros l; [now exists l|].
  destruct l as [|b l]; [discriminate|].
  cbn [starts_with]. intros H. apply andb_prop in H. destruct H as [E H].
  apply Ascii.eqb_eq in E. subst b.
  destruct (IH l H) as [rest ->]. now exists rest.
Qed.

(** A path that ends in [.json] has a base name that ends in [.json]. *)
Lemma basename_keeps_json (p : string) :
  endsWith p ".json" = true -> endsWith (basename p) ".json" = true.
Proof.
  unfold endsWith, basename. rewrite chars_of_chars, rev_involutive.
  intros H. apply starts_with_spec in H. destruct H as [rest ->].
  reflexivity.
Qed.

Lemma append_empty (s : string) : s +:+ "" = s.
Proof.
  induction s as [|a s IH]; [reflexivity|].
  change (String a s +:+ "") with (String a (s +:+ "")). now rewrite IH.
Qed.

Lemma append_chain (a b c : string) : (a +:+ b) +:+ c = a +:+ (b +:+ c).
Proof.
  induction a as [|x a IH]; [reflexivity|].
  change (String x a +:+ b) with (String x (a +:+ b)).
  change (String x (a +:+ b) +:+ c) with (String x ((a +:+ b) +:+ c)).
  change (String x a +:+ (b +:+ c)) with (String x (a +:+ (b +:+ c))).
  now rewrite IH.
Qed.

Lemma plain_parts (name : string) :
  plain name = true ->
  name <> "" /\ String.eqb name "" = false /\ String.eqb name "." = false
  /\ String.eqb name ".." = false /\ existsb is_slash (chars name) = false.
Proof.
  unfold plain. intros H.
  apply andb_prop in H. destruct H as [H H4].
  apply andb_prop in H. destruct H as [H H3].
  apply andb_prop in H. destruct H as [H1 H2].
  apply negb_true_iff in H1, H2, H3, H4.
  repeat split; try assumption.
  intros ->. discriminate.
Qed.

Lemma split_slash_cons (p : string) : exists seg segs, split_slash p = seg :: segs.
Proof.
  induction p as [|a p (seg & segs & IH)]; [now exists "", []|].
  simpl. destruct (is_slash a); [now exists "", (split_slash p)|].
  rewrite IH. now exists (String a seg), segs.
Qed.

Lemma split_slash_whole (name : string) :
  existsb is_slash (chars name) = false -> split_slash name = [name].
Proof.
  induction name as [|a name IH]; [reflexivity|].
  simpl. intros H. apply orb_false_iff in H. destruct H as [Ha H].
  rewrite Ha. now rewrite IH.
Qed.

Lemma split_slash_join (dir name : string) :
  split_slash (dir +:+ "/" +:+ name) = split_slash dir ++ split_slash name.
Proof.
  induction dir as [|a dir IH]; [reflexivity|].
  change (String a dir +:+ "/" +:+ name)
    with (String a (dir +:+ "/" +:+ name)).
  simpl. destruct (is_slash a); [now rewrite IH|].
  rewrite IH. destruct (split_slash_cons dir) as (seg & segs & ->).
  reflexivity.
Qed.

Lemma keep_plain (above : bool) (kept : list string) (name : string) :
  plain name = true -> keep_segment above kept name = name :: kept.
Proof.
  intros H. destruct (plain_parts name H) as (_ & H1 & H2 & H3 & _).
  unfold keep_segment. now rewrite H1, H2, H3.
Qed.

Lemma join_slash_snoc (segs : list string) (name : string) :
  join_slash (segs ++ [name])
  = match segs with
    | [] => name
    | _ => join_slash segs +:+ "/" +:+ name
    end.
Proof.
  induction segs as [|seg segs IH]; [reflexivity|].
  destruct segs as [|seg' segs]; [reflexivity|].
  change (join_slash ((seg :: seg' :: segs) ++ [name]))
    with (seg +:+ "/" +:+ join_slash ((seg' :: segs) ++ [name])).
  rewrite IH.
  change (join_slash (seg :: seg' :: segs))
    with (seg +:+ "/" +:+ join_slash (seg' :: segs)).
  now rewrite !append_chain.
Qed.

Lemma last_not_slash (l more : list ascii) :
  existsb is_slash l = false -> l <> [] ->
  match rev (more ++ l) with
  | a :: _ => is_slash a
  | [] => false
  end = false.
Proof.
  intros H Hne. rewrite rev_app_distr.
  destruct (rev l) as [|a r] eqn:E.
  - apply (f_equal (@rev ascii)) in E. rewrite rev_involutive in E.
    now destruct Hne.
  - simpl. assert (Hin : In a l) by (apply in_rev; rewrite E; now left).
    destruct (is_slash a) eqn:Ha; [|reflexivity].
    rewrite <- H. symmetry. apply existsb_exists. now exists a.
Qed.

Lemma chars_nonempty (name : string) : name <> "" -> chars name <> [].
Proof. destruct name; [congruence|discriminate]. Qed.

(** [path.join] puts a prefix that depends on the directory alone before
    a plain file name. *)
Lemma path_join_plain (dir name : string) :
  plain name = true -> path_join dir name = dir_prefix dir +:+ name.
Proof.
  intros Hp. destruct (plain_parts name Hp) as (Hne & H1 & H2 & H3 & Hs).
  unfold path_join. rewrite H1.
  destruct (String.eqb dir "") eqn:Hd.
  - apply String.eqb_eq in Hd. subst dir.
    unfold normalize. rewrite H1.
    assert (Hf : first_is_slash name = false).
    { destruct name as [|a name]; [reflexivity|]. simpl in Hs.
      now apply orb_false_iff in Hs. }
    assert (Hl : last_is_slash name = false).
    { unfold last_is_slash. apply (last_not_slash (chars name) []);
        [exact Hs|now apply chars_nonempty]. }
    unfold kept_segments. rewrite Hf, Hl, (split_slash_whole name Hs).
    simpl fold_left. rewrite (keep_plain _ [] name Hp). simpl.
    now rewrite append_empty.
  - assert (Hf : first_is_slash (dir +:+ "/" +:+ name) = first_is_slash dir).
    { destruct dir; [discriminate|reflexivity]. }
    assert (Hl : last_is_slash (dir +:+ "/" +:+ name) = false).
    { unfold last_is_slash. rewrite chars_app.
      change (chars ("/" +:+ name)) with ("/"%char :: chars name).
      change (chars dir ++ "/"%char :: chars name)
        with (chars dir ++ ["/"%char] ++ chars name).
      rewrite app_assoc.
      apply last_not_slash; [exact Hs|now apply chars_nonempty]. }
    assert (He : String.eqb (dir +:+ "/" +:+ name) "" = false).
    { destruct dir; [discriminate|reflexivity]. }
    unfold normalize, dir_prefix, kept_segments.
    rewrite He, Hf, Hl, split_slash_join, (split_slash_whole name Hs).
    rewrite fold_left_app. simpl fold_left at 1.
    rewrite (keep_plain _ _ name Hp).
    simpl rev.
    destruct (rev (fold_left (keep_segment (negb (first_is_slash dir)))
                     (split_slash dir) [])) as [|seg segs] eqn:E.
    + cbn [app join_slash]. now rewrite append_empty.
    + change ((seg :: segs) ++ [name]) with (seg :: (segs ++ [name])).
      cbv iota beta.
      change (seg :: segs ++ [name]) with ((seg :: segs) ++ [name]).
      rewrite join_slash_snoc, append_empty. now rewrite !append_chain.
Qed.

Lemma endsWith_join (dir name suffix : string) :
  plain name = true ->
  endsWith name suffix = true -> endsWith (path_join dir name) suffix = true.
Proof.
  intros Hp H. rewrite path_join_plain by exact Hp. now apply endsWith_app.
Qed.

Lemma path_join_inj (dir a b : string) :
  plain a = true -> plain b = true ->
  path_join dir a = path_join dir b -> a = b.
Proof.
  intros Ha Hb. rewrite !path_join_plain by assumption.
  apply (inj (String.append (dir_prefix dir))).
Qed.

End PathFacts.

(* ===================================================================== *)
(** ** Properties of src/client.js *)
(* ===================================================================== *)

Module ClientFacts.
Import Client.

(** *** Properties of the client *)

Lemma assoc_app_miss (k : string) (xs ys : list (string * Js.Val)) :
  has_key k xs = false -> Js.assoc k (xs ++ ys) = Js.assoc k ys.
Proof.
  induction xs as [|[k' v] xs IH]; simpl; [reflexivity|].
  destruct (String.eqb k k'); simpl; [discriminate|exact IH].
Qed.

Lemma assoc_app_hit (k : string) (xs ys : list (string * Js.Val)) :
  has_key k xs = true -> Js.assoc k (xs ++ ys) = Js.assoc k xs.
Proof.
  induction xs as [|[k' v] xs IH]; simpl; [discriminate|].
  destruct (String.eqb k k'); simpl; [reflexivity|exact IH].
Qed.

Lemma assoc_set_if_other (k k' : string) (v : Js.Val) data :
  String.eqb k k' = false -> Js.assoc k (set_if k' v data) = Js.assoc k data.
Proof.
  intros Hne. unfold set_if. destruct (Js.truthy v); [|reflexivity].
  destruct (has_key k data) eqn:Hk.
  - now apply assoc_app_hit.
  - rewrite assoc_app_miss by exact Hk. simpl. rewrite Hne.
    clear Hne. induction data as [|[k0 v0] data IH]; simpl in *; [reflexivity|].
    destruct (String.eqb k k0); simpl in Hk; [discriminate|now apply IH].
Qed.

Lemma body_get_render (c : CanveleteAPIClient) (o : RenderOptions) (k : string) :
  body_get (render c o) k = Js.assoc k (render_data o).
Proof. reflexivity. Qed.

Lemma body_has_render (c : CanveleteAPIClient) (o : RenderOptions) (k : string) :
  body_has (render c o) k = has_key k (render_data o).
Proof. reflexivity. Qed.

Ltac case_fields o :=
  unfold render_data, set_if;
  destruct (Js.truthy (designId o)), (Js.truthy (templateId o)),
           (Js.truthy (dynamicData o)), (Js.truthy (width o)),
           (Js.truthy (height o)); reflexivity.

Lemma render_quality (c : CanveleteAPIClient) (o : RenderOptions) :
  body_get (render c o) "quality" = Js.or (quality o) (Js.Num 90).
Proof.
  rewrite body_get_render. unfold render_data.
  now rewrite !assoc_set_if_other by reflexivity.
Qed.

Lemma render_has_width (c : CanveleteAPIClient) (o : RenderOptions) :
  body_has (render c o) "width" = Js.truthy (width o).
Proof. rewrite body_has_render. case_fields o. Qed.

Lemma render_has_height (c : CanveleteAPIClient) (o : RenderOptions) :
  body_has (render c o) "height" = Js.truthy (height o).
Proof. rewrite body_has_render. case_fields o. Qed.

Lemma render_width_value (c : CanveleteAPIClient) (o : RenderOptions) :
  body_get (render c o) "width"
  = if Js.truthy (width o) then width o else Js.Undefined.
Proof. rewrite body_get_render. case_fields o. Qed.

Lemma render_height_value (c : CanveleteAPIClient) (o : RenderOptions) :
  body_get (render c o) "height"
  = if Js.truthy (height o) then height o else Js.Undefined.
Proof. rewrite body_get_render. case_fields o. Qed.

(** C9 (as stated, refuted): quality 0 lies outside [1,100], yet the body
    [render] sends carries 90 in its place. *)
Lemma render_quality_zero_replaced :
  quality (request_with_quality (Js.Num 0)) = Js.Num 0
  /\ ~ (1 <= 0 <= 100)
  /\ body_get (render demo_client (request_with_quality (Js.Num 0))) "quality"
     = Js.Num 90
  /\ body_get (render demo_client (request_with_quality (Js.Num 0))) "quality"
     <> quality (request_with_quality (Js.Num 0)).
Proof.
  split; [reflexivity|]. split; [lia|]. split; [reflexivity|].
  rewrite render_quality. simpl. discriminate.
Qed.

(** C9 (amended): for every render request the body carries
    [quality || 90]: a quality that is a non-zero number reaches it
    unchanged, whatever its range (no clamping), and every falsy quality
    (0, [NaN], a missing one) is replaced by 90.  [width] and [height] are
    in the body exactly when the caller gave a truthy value, then with
    that value, and the body never carries a width or height of 0. *)
Theorem render_passes_quality_and_omits_size
    (c : CanveleteAPIClient) (o : RenderOptions) :
  body_get (render c o) "quality" = Js.or (quality o) (Js.Num 90)
  /\ (forall z : Z, quality o = Js.Num z -> z <> 0 ->
        body_get (render c o) "quality" = Js.Num z)
  /\ (Js.truthy (quality o) = false ->
        body_get (render c o) "quality" = Js.Num 90)
  /\ (quality o = Js.Num 0 \/ quality o = Js.NaN \/ quality o = Js.Undefined ->
        body_get (render c o) "quality" = Js.Num 90)
  /\ body_has (render c o) "width" = Js.truthy (width o)
  /\ body_has (render c o) "height" = Js.truthy (height o)
  /\ body_get (render c o) "width"
     = (if Js.truthy (width o) then width o else Js.Undefined)
  /\ body_get (render c o) "height"
     = (if Js.truthy (height o) then height o else Js.Undefined)
  /\ body_get (render c o) "width" <> Js.Num 0
  /\ body_get (render c o) "height" <> Js.Num 0.
Proof.
  split; [apply render_quality|].
  split.
  { intros z Hq Hz. rewrite render_quality, Hq. unfold Js.or. simpl.
    now apply Z.eqb_neq in Hz as ->. }
  split.
  { intros Hq. rewrite render_quality. unfold Js.or. now rewrite Hq. }
  split.
  { intros Hq. rewrite render_quality.
    destruct Hq as [->|[->| ->]]; reflexivity. }
  split; [apply render_has_width|].
  split; [apply render_has_height|].
  split; [apply render_width_value|].
  split; [apply render_height_value|].
  split.
  - rewrite render_width_value.
    destruct (Js.truthy (width o)) eqn:Hw; [|discriminate].
    intros Hz. rewrite Hz in Hw. discriminate.
  - rewrite render_height_value.
    destruct (Js.truthy (height o)) eqn:Hh; [|discriminate].
    intros Hz. rewrite Hz in Hh. discriminate.
Qed.

Lemma render_passes_quality_and_omits_size_witness :
  body_get (render demo_client (request_with_quality (Js.Num 150))) "quality"
  = Js.Num 150
  /\ body_get (render demo_client (request_with_quality Js.NaN)) "quality"
     = Js.Num 90.
Proof.
  split.
  - apply (proj1 (proj2 (render_passes_quality_and_omits_size demo_client
                           (request_with_quality (Js.Num 150)))) 150);
      [reflexivity|lia].
  - apply (proj1 (proj2 (proj2 (render_passes_quality_and_omits_size
                                  demo_client (request_with_quality Js.NaN))))).
    reflexivity.
Defined.

(** C10: [getTemplate id] and [getDesign id] hand [fetch] the same request,
    a GET without body on the design-detail URL; that URL is not the one
    under [/api/automation/templates/]. *)
Theorem getTemplate_is_getDesign (c : CanveleteAPIClient) (id : string) :
  getTemplate c id = getDesign c id
  /\ f_method (getTemplate c id) = "GET"
  /\ f_url (getTemplate c id) = baseUrl c +:+ "/api/automation/designs/" +:+ id
  /\ f_body (getTemplate c id) = None
  /\ f_url (getTemplate c id)
     <> baseUrl c +:+ "/api/automation/templates/" +:+ id.
Proof.
  repeat split.
  unfold getTemplate, request. simpl f_url.
  intros Heq. apply (inj (String.append (baseUrl c))) in Heq.
  simpl in Heq. discriminate.
Qed.

End ClientFacts.

(* ===================================================================== *)
(** ** Properties of the credential stores *)
(* ===================================================================== *)

Module StoreFacts.
Import Store.

(** *** Properties of the stores *)

Lemma first_set_single (k : option string) (fallback : string) :
  first_set [k] fallback
  = match k with
    | Some e => if non_empty e then e else fallback
    | None => fallback
    end.
Proof. destruct k as [e|]; reflexivity. Qed.

Lemma getApiKey_first_set (env : Env) (st : State) :
  getApiKey env st = first_set [CANVELETE_API_KEY env] (apiKey (config st)).
Proof. now rewrite first_set_single. Qed.

Lemma getApiKey_no_override (env : Env) (st : State) :
  env_override env = false -> getApiKey env st = apiKey (config st).
Proof.
  unfold env_override, getApiKey.
  destruct (CANVELETE_API_KEY env) as [k|]; [|reflexivity].
  now intros ->.
Qed.

(** C5 (as stated, refuted): with the override set and an active profile
    holding a key, [getProfileApiKey] answers the profile's key where the
    stated order answers the override; and [getApiKey] never reads the
    profile store, so after a later login it answers the config field
    where the stated order answers the active profile's key. *)
Lemma stated_resolution_order_fails :
  getEffectiveApiKey_spec env_with_key prod_state = "cvt_env"
  /\ getProfileApiKey env_with_key prod_state = "cvt_prod"
  /\ getProfileApiKey env_with_key prod_state
     <> getEffectiveApiKey_spec env_with_key prod_state
  /\ getEffectiveApiKey_spec no_env prod_then_login = "cvt_prod"
  /\ getApiKey no_env prod_then_login = "cvt_login"
  /\ getApiKey no_env prod_then_login
     <> getEffectiveApiKey_spec no_env prod_then_login.
Proof. vm_compute. repeat split; discriminate. Qed.

(** C5 (amended): [getProfileApiKey] takes the first set, non-empty value
    among the active profile's stored key, then the environment override,
    and falls back to the config field; [getApiKey], which the API client
    uses, takes the environment override and falls back to the config
    field without reading the profile store. *)
Theorem api_key_resolution_order (env : Env) (st : State) :
  getProfileApiKey env st
  = first_set [active_profile_key st; CANVELETE_API_KEY env] (apiKey (config st))
  /\ getApiKey env st = first_set [CANVELETE_API_KEY env] (apiKey (config st)).
Proof.
  split; [|apply getApiKey_first_set].
  unfold getProfileApiKey, active_profile_key.
  destruct (profiles (profilesConfig st) !! activeProfile (profilesConfig st))
    as [profile|]; simpl.
  - destruct (non_empty (p_apiKey profile)); [reflexivity|].
    apply getApiKey_first_set.
  - apply getApiKey_first_set.
Qed.

(** The part of C6 the code keeps: without an environment override,
    [profiles use name] on a stored name ends normally, leaves the
    profiles as they were, points the active profile at [name] and writes
    the profile's key to the config field, so that both key readers answer
    that profile's key at once; on a name that is neither stored nor
    inherited it ends with the not-found exit and the stores are the ones
    it started from. *)
Lemma profiles_use_switches_or_rejects
    (name : string) (st : State) (env : Env)
    (Henv : env_override env = false) :
  (forall p : Profile,
      profiles (profilesConfig st) !! name = Some p ->
      (exists msg, fst (profiles_use name st) = Done msg)
      /\ activeProfile (profilesConfig (snd (profiles_use name st))) = name
      /\ profiles (profilesConfig (snd (profiles_use name st)))
         = profiles (profilesConfig st)
      /\ apiKey (config (snd (profiles_use name st))) = p_apiKey p
      /\ getProfileApiKey env (snd (profiles_use name st)) = p_apiKey p
      /\ getApiKey env (snd (profiles_use name st)) = p_apiKey p)
  /\ (profiles (profilesConfig st) !! name = None ->
      Js.inherited name = false ->
      profiles_use name st = (NotFoundError name, st)).
Proof.
  split.
  - intros p Hp. unfold profiles_use. rewrite Hp. simpl.
    split; [eexists; reflexivity|].
    repeat split.
    + unfold getProfileApiKey. simpl. rewrite Hp.
      destruct (non_empty (p_apiKey p)); [reflexivity|].
      now rewrite getApiKey_no_override.
    + now rewrite getApiKey_no_override.
  - intros Hn Hi. unfold profiles_use. now rewrite Hn, Hi.
Qed.

(** C6 (the code's slip): a name that is absent from the store but that
    every object inherits, as [constructor], gets past the not-found test
    of [profiles use]: the active-profile pointer is written and the
    command ends on an uncaught error, where the claim has a
    NotFoundError and an unchanged store. *)
Theorem profiles_use_inherited_name_slips :
  (forall (st : State) (name : string),
      profiles (profilesConfig st) !! name = None ->
      Js.inherited name = true ->
      profiles_use name st = (Uncaught "TypeError", setActiveProfile name st))
  /\ profiles (profilesConfig prod_state) !! "constructor" = None
  /\ profiles_use "constructor" prod_state
     = (Uncaught "TypeError", setActiveProfile "constructor" prod_state)
  /\ activeProfile (profilesConfig (snd (profiles_use "constructor" prod_state)))
     = "constructor"
  /\ activeProfile (profilesConfig prod_state) = "prod"
  /\ profiles_use "constructor" prod_state
     <> (NotFoundError "constructor", prod_state).
Proof.
  split.
  { intros st name Hn Hi. unfold profiles_use. now rewrite Hn, Hi. }
  split; [vm_compute; reflexivity|].
  split; [vm_compute; reflexivity|].
  split; [vm_compute; reflexivity|].
  split; [vm_compute; reflexivity|].
  vm_compute. discriminate.
Qed.

End StoreFacts.

(* ===================================================================== *)
(** ** Properties of [renders status --wait] and [batch-render] *)
(* ===================================================================== *)

Module RendersFacts.
Import Client Renders.

(** *** Properties of the polling loop *)

Section WaitFacts.

Variable c : CanveleteAPIClient.
Variable jobId : string.
Variable server : nat -> Poll.
Variable timeout : Js.Val.

Local Abbreviation loop := (wait_loop c jobId server timeout).
Local Abbreviation pollk := (poll c jobId server).
Local Abbreviation before := (elapsed_before server).

Lemma pollInterval_pos : 0 < pollInterval.
Proof. reflexivity. Qed.

Lemma elapsed_before_step (k : nat) :
  before k + pollInterval <= before (S k).
Proof. simpl. lia. Qed.

Lemma elapsed_before_lower (k : nat) : Z.of_nat k * pollInterval <= before k.
Proof.
  induction k as [|k IH]; [simpl; lia|].
  pose proof (elapsed_before_step k). lia.
Qed.

Lemma elapsed_before_mono (i k : nat) : (i <= k)%nat -> before i <= before k.
Proof.
  induction 1 as [|k Hle IH]; [lia|].
  pose proof (elapsed_before_step k). pose proof pollInterval_pos. lia.
Qed.

Lemma lt_timeout_mono (e e' : Z) :
  e <= e' -> lt_timeout e' timeout = true -> lt_timeout e timeout = true.
Proof.
  unfold lt_timeout. destruct timeout; try discriminate.
  intros Hle H. apply Z.ltb_lt in H. apply Z.ltb_lt. lia.
Qed.

(** An observation that is not [SawPending] ends the loop: it is the last
    one of the run. *)
Lemma not_pending_is_last (fuel k : nat) (e : Z) (i : nat) (o : Observation) :
  observed (loop fuel k e) !! i = Some o ->
  is_pending o = false ->
  S i = length (observed (loop fuel k e)).
Proof.
  revert k e i. induction fuel as [|fuel IH]; intros k e i; simpl.
  - intros H. discriminate.
  - destruct (lt_timeout e timeout); [|intros H; discriminate].
    destruct (pollk k) eqn:Hp; simpl;
      try (destruct i as [|i]; simpl; [reflexivity | intros H; discriminate]).
    destruct i as [|i]; simpl.
    + intros [= <-]. discriminate.
    + intros Hi Ho. f_equal. eapply IH; eassumption.
Qed.

(** The outcome is read off the last observation. *)
Lemma outcome_of_last (fuel k : nat) (e : Z) (o : Observation) :
  last (observed (loop fuel k e)) = Some o ->
  match o with
  | SawCompleted job => outcome (loop fuel k e) = Completed job
  | SawFailed job => outcome (loop fuel k e) = RenderFailed job
  | SawError err => outcome (loop fuel k e) = CheckFailed err
  | SawPending _ =>
      outcome (loop fuel k e) = TimedOut \/ outcome (loop fuel k e) = OutOfFuel
  end.
Proof.
  revert k e. induction fuel as [|fuel IH]; intros k e; simpl.
  - intros H. discriminate.
  - destruct (lt_timeout e timeout); [|intros H; discriminate].
    destruct (pollk k) eqn:Hp; simpl; try (intros [= <-]; reflexivity).
    specialize (IH (S k) (e + Z.of_N (delay (server k)) + pollInterval)).
    destruct (observed (loop fuel (S k) (e + Z.of_N (delay (server k)) + pollInterval)))
      as [|o' os] eqn:Hobs.
    + intros [= <-].
      clear IH. destruct fuel as [|fuel]; simpl in *; [now right|].
      destruct (lt_timeout _ timeout); [|now left].
      destruct (pollk (S k)); simpl in Hobs; discriminate.
    + intros Hl. apply IH. exact Hl.
Qed.

(** A run that starts at the test before poll [j], sees [m] pending
    answers and then one that is not pending while the loop test still
    holds, issues exactly these [m + 1] polls. *)
Lemma loop_reaches (m fuel j : nat) :
  (forall i, (j <= i < j + m)%nat -> is_pending (pollk i) = true) ->
  lt_timeout (before (j + m)) timeout = true ->
  is_pending (pollk (j + m)) = false ->
  (m < fuel)%nat ->
  observed (loop fuel j (before j)) = map pollk (seq j (S m))
  /\ sleeps (loop fuel j (before j)) = m.
Proof.
  revert fuel j. induction m as [|m IH]; intros fuel j Hpend Hlt Hlast Hfuel.
  - destruct fuel as [|fuel]; [lia|]. simpl.
    rewrite Nat.add_0_r in Hlt, Hlast. rewrite Hlt.
    destruct (pollk j) eqn:Hp; simpl; now split.
  - destruct fuel as [|fuel]; [lia|]. simpl.
    assert (Hj : lt_timeout (before j) timeout = true).
    { eapply lt_timeout_mono; [|exact Hlt]. apply elapsed_before_mono. lia. }
    rewrite Hj.
    pose proof (Hpend j ltac:(lia)) as Hpj.
    destruct (pollk j) eqn:Hp; try discriminate. simpl.
    destruct (IH fuel (S j)) as [Ho Hs].
    + intros i Hi. apply Hpend. lia.
    + replace (S j + m)%nat with (j + S m)%nat by lia. exact Hlt.
    + replace (S j + m)%nat with (j + S m)%nat by lia. exact Hlast.
    + lia.
    + simpl in Ho, Hs. rewrite Ho, Hs. now split.
Qed.

(** Enough fuel: the loop does not stop for want of it. *)
Lemma loop_fuel_enough (fuel k : nat) (e : Z) :
  (1 <= fuel)%nat ->
  (forall t, timeout = Js.Num t -> t - e <= (Z.of_nat fuel - 1) * pollInterval) ->
  outcome (loop fuel k e) <> OutOfFuel.
Proof.
  revert k e. induction fuel as [|fuel IH]; intros k e Hf Ht; [lia|].
  simpl. destruct (lt_timeout e timeout) eqn:Hlt; [|discriminate].
  destruct (pollk k); simpl; try discriminate.
  unfold lt_timeout in Hlt. destruct timeout as [| | |t| | | |] eqn:Htm;
    try discriminate.
  apply Z.ltb_lt in Hlt. specialize (Ht t eq_refl).
  pose proof pollInterval_pos.
  apply IH.
  - nia.
  - intros t' [= <-]. nia.
Qed.

Lemma fuel_for_enough :
  (1 <= fuel_for timeout)%nat
  /\ (forall t, timeout = Js.Num t ->
       t - 0 <= (Z.of_nat (fuel_for timeout) - 1) * pollInterval).
Proof.
  unfold fuel_for. destruct timeout as [| | |t| | | |]; split; try lia;
    try (intros t' H; discriminate).
  intros t' [= <-]. unfold pollInterval.
  destruct (Z.le_gt_cases 0 t) as [Hnn|Hneg].
  - assert (0 <= t / 2000) by (apply Z.div_pos; lia).
    pose proof (Z.mod_pos_bound t 2000 ltac:(lia)).
    pose proof (Z.div_mod t 2000 ltac:(lia)). lia.
  - lia.
Qed.

Lemma wait_never_out_of_fuel :
  outcome (wait c jobId server timeout) <> OutOfFuel.
Proof.
  unfold wait. destruct fuel_for_enough as [H1 H2].
  now apply loop_fuel_enough.
Qed.

(** With pending answers throughout, the loop leaves by its test: the
    number of polls is the first [n] past [k] at which the elapsed time has
    reached the timeout. *)
Lemma loop_all_pending (t : Z) (fuel k : nat) :
  timeout = Js.Num t ->
  (forall i, before i < t -> is_pending (pollk i) = true) ->
  (1 <= fuel)%nat ->
  t - before k <= (Z.of_nat fuel - 1) * pollInterval ->
  outcome (loop fuel k (before k)) = TimedOut
  /\ sleeps (loop fuel k (before k)) = length (observed (loop fuel k (before k)))
  /\ t <= before (k + length (observed (loop fuel k (before k))))
  /\ (forall i, (k <= i < k + length (observed (loop fuel k (before k))))%nat ->
      before i < t).
Proof.
  intros Htm Hpend. revert k.
  induction fuel as [|fuel IH]; intros k Hf Ht; [lia|].
  simpl. rewrite Htm. simpl. destruct (before k <? t) eqn:Hlt.
  - apply Z.ltb_lt in Hlt.
    pose proof (Hpend k Hlt) as Hk. destruct (pollk k) eqn:Hp; try discriminate.
    simpl. pose proof pollInterval_pos.
    destruct (IH (S k)) as (Ho & Hs & Hge & Hbelow).
    + nia.
    + pose proof (elapsed_before_step k). nia.
    + simpl in Ho, Hs, Hge, Hbelow. rewrite Htm in Ho, Hs, Hge, Hbelow.
      repeat split.
      * exact Ho.
      * now rewrite Hs.
      * replace (k + S _)%nat with (S (k + length (observed
           (wait_loop c jobId server (Js.Num t) fuel (S k)
              (before k + Z.of_N (delay (server k)) + pollInterval)))))%nat
          by lia.
        exact Hge.
      * intros i Hi. destruct (decide (i = k)) as [->|Hne]; [exact Hlt|].
        apply Hbelow. lia.
  - apply Z.ltb_ge in Hlt. simpl. rewrite Nat.add_0_r.
    repeat split; [exact Hlt | intros i Hi; lia].
Qed.

End WaitFacts.



Lemma elapsed_before_instant (server : nat -> Poll) (n : nat) :
  (forall k, delay (server k) = 0%N) ->
  elapsed_before server n = Z.of_nat n * pollInterval.
Proof.
  intros Hz. induction n as [|n IH]; [reflexivity|].
  simpl elapsed_before. rewrite IH, Hz. lia.
Qed.




(** *** Properties of the batch loop *)

Section BatchFacts.

Variable c : CanveleteAPIClient.
Variable outputDir : string.
Variable render_answer : nat -> Fetched.
Variable write_ok : nat -> string -> bool.

Local Abbreviation bloop := (batch_loop c outputDir render_answer write_ok).
Local Abbreviation bfail := (failures_from c outputDir render_answer write_ok).

Lemma batch_loop_accounts (configs : list (list (string * Js.Val)))
    (i : nat) (run : BatchRun) :
  attempts (bloop i configs run)
  = attempts run ++ map (fun config => render c (item_options config)) configs
  /\ failed (bloop i configs run) = (failed run + bfail i configs)%nat
  /\ (completed (bloop i configs run) + bfail i configs
      = completed run + length configs)%nat
  /\ (length (written (bloop i configs run)) + bfail i configs
      = length (written run) + length configs)%nat.
Proof.
  revert i run. induction configs as [|config rest IH]; intros i run.
  - simpl. rewrite app_nil_r. repeat split; lia.
  - simpl. destruct (IH (S i) (batch_item c outputDir render_answer write_ok
                               i config run)) as (Ha & Hf & Hc & Hw).
    rewrite Ha, Hf. unfold batch_item in *.
    destruct (try_item c outputDir render_answer write_ok i config);
      simpl in *; rewrite <- app_assoc; simpl; rewrite ?length_app in *;
      simpl in *; repeat split; lia.
Qed.

End BatchFacts.

(** The part of C7 the code keeps, on entries that are objects:
    [batch-render] issues the render request of every entry of the
    batch file, in the file's order, whichever entries fail; the summary
    counts the entries whose [try] block threw as failed and all the
    others as succeeded, so the two counts add up to the number of
    entries, and one file is written per success. *)
Lemma batch_attempts_all_and_counts
    (c : CanveleteAPIClient) (outputDir : string)
    (render_answer : nat -> Fetched) (write_ok : nat -> string -> bool)
    (configs : list (list (string * Js.Val))) :
  attempts (batch_render c outputDir render_answer write_ok configs)
  = map (fun config => render c (item_options config)) configs
  /\ failed (batch_render c outputDir render_answer write_ok configs)
     = failures_from c outputDir render_answer write_ok 0 configs
  /\ completed (batch_render c outputDir render_answer write_ok configs)
     = (length configs
        - failures_from c outputDir render_answer write_ok 0 configs)%nat
  /\ (completed (batch_render c outputDir render_answer write_ok configs)
      + failed (batch_render c outputDir render_answer write_ok configs)
      = length configs)%nat
  /\ length (written (batch_render c outputDir render_answer write_ok configs))
     = completed (batch_render c outputDir render_answer write_ok configs).
Proof.
  unfold batch_render.
  destruct (batch_loop_accounts c outputDir render_answer write_ok configs 0
              batch_start) as (Ha & Hf & Hc & Hw).
  simpl in *. repeat split; try assumption; lia.
Qed.

End RendersFacts.

(* ===================================================================== *)
(** ** Properties of [watch <dataFile>] *)
(* ===================================================================== *)

Module WatchFacts.
Import Client Watch.

(** *** Properties of the watch session *)

Section EngineFacts.

Variable c : CanveleteAPIClient.
Variable options : Options.

Local Abbreviation d := (timer_delay (debounce options)).

Lemma span_nonneg {A : Type} (events : list (N * A)) : 0 <= span events.
Proof. induction events as [|e events IH]; simpl; lia. Qed.

Lemma advance_idle (t : Z) (s : Session) :
  timers s = [] -> advance c options t s = at_time t [] s.
Proof. intros H. unfold advance. now rewrite H. Qed.

Lemma advance_before_due (t : Z) (s : Session) (h : nat) (due : Z) :
  timers s = [(h, due)] -> t < due ->
  advance c options t s = at_time t [(h, due)] s.
Proof.
  intros H Hlt. unfold advance. rewrite H.
  assert (Hd : is_due t (h, due) = false) by (apply Z.leb_gt; exact Hlt).
  rewrite !filter_cons, !filter_nil.
  destruct (decide (is_due t (h, due) = true)) as [E|_]; [congruence|].
  destruct (decide (is_due t (h, due) = false)) as [_|E]; [reflexivity|congruence].
Qed.

Lemma advance_fires (t : Z) (s : Session) (h : nat) (due : Z) :
  timers s = [(h, due)] -> due <= t ->
  advance c options t s = render_begin c options due (at_time t [] s).
Proof.
  intros H Hle. unfold advance. rewrite H.
  assert (Hd : is_due t (h, due) = true) by (apply Z.leb_le; exact Hle).
  rewrite !filter_cons, !filter_nil.
  destruct (decide (is_due t (h, due) = true)) as [_|E]; [|congruence].
  destruct (decide (is_due t (h, due) = false)) as [E|_]; [congruence|].
  reflexivity.
Qed.

Lemma clearTimeout_own (h : nat) (due : Z) : clearTimeout h [(h, due)] = [].
Proof.
  unfold clearTimeout. rewrite filter_cons, filter_nil. simpl.
  destruct (decide (h <> h)); [congruence|reflexivity].
Qed.

(** A [change] event re-arms: whatever single timer was armed is gone and
    the new one is due a full delay after the event. *)
Lemma on_change_rearms (s : Session) :
  one_timer s ->
  timers (on_fs_event options "change" s) = [(nextHandle s, now s + d)]
  /\ debounceTimer (on_fs_event options "change" s) = Some (nextHandle s).
Proof.
  unfold one_timer, on_fs_event. simpl.
  destruct (timers s) as [|[h due] [|tm rest]] eqn:Ht; [| |intros []].
  - intros _. split; [|reflexivity].
    destruct (debounceTimer s); [|reflexivity].
    unfold clearTimeout. now rewrite filter_nil.
  - intros ->. now rewrite clearTimeout_own.
Qed.

Lemma fired_render_begin (t : Z) (s : Session) :
  fired (render_begin c options t s) = fired s ++ [(t, file s)].
Proof. unfold render_begin. now destruct (parsed (file s)). Qed.

Lemma timers_render_begin (t : Z) (s : Session) :
  timers (render_begin c options t s) = timers s.
Proof. unfold render_begin. now destruct (parsed (file s)). Qed.

(** A [change] event that comes before the armed timer is due (or with
    none armed) fires nothing and leaves one timer, due a full delay
    after the event. *)
Lemma step_change (s : Session) (dt : N) (content : FileContent) :
  one_timer s ->
  (forall h due, timers s = [(h, due)] -> now s + Z.of_N dt < due) ->
  timers (step c options s (dt, FsEvent "change" content))
  = [(nextHandle s, now s + Z.of_N dt + d)]
  /\ debounceTimer (step c options s (dt, FsEvent "change" content))
     = Some (nextHandle s)
  /\ now (step c options s (dt, FsEvent "change" content)) = now s + Z.of_N dt
  /\ file (step c options s (dt, FsEvent "change" content)) = content
  /\ fired (step c options s (dt, FsEvent "change" content)) = fired s
  /\ inflight (step c options s (dt, FsEvent "change" content)) = inflight s.
Proof.
  intros H1 Hdue. unfold step. simpl fst. simpl snd.
  assert (Hadv : exists ts, advance c options (now s + Z.of_N dt) s
                            = at_time (now s + Z.of_N dt) ts s
                            /\ one_timer (at_time (now s + Z.of_N dt) ts s)).
  { unfold one_timer in H1.
    destruct (timers s) as [|[h due] [|tm rest]] eqn:Ht; [| |destruct H1].
    - exists []. split; [now apply advance_idle|exact I].
    - exists [(h, due)]. split; [|exact H1].
      apply advance_before_due with (h := h); [exact Ht|].
      now apply (Hdue h due). }
  destruct Hadv as (ts & -> & H1').
  unfold handle.
  destruct (on_change_rearms (set_file content (at_time (now s + Z.of_N dt) ts s)))
    as [Ht Hd]; [exact H1'|].
  split; [exact Ht|]. split; [exact Hd|]. now repeat split.
Qed.

(** The events of a burst that follow its first one: the timer is re-armed
    at each and nothing fires. *)
Lemma burst_rearms (more : list (N * FileContent)) (s : Session) (h : nat) :
  timers s = [(h, now s + d)] ->
  debounceTimer s = Some h ->
  span more < d ->
  (exists h',
      timers (run c options (changes more) s)
      = [(h', now (run c options (changes more) s) + d)]
      /\ debounceTimer (run c options (changes more) s) = Some h')
  /\ now (run c options (changes more) s) = now s + span more
  /\ file (run c options (changes more) s) = List.last (map snd more) (file s)
  /\ fired (run c options (changes more) s) = fired s
  /\ inflight (run c options (changes more) s) = inflight s.
Proof.
  revert s h. induction more as [|[dt content] more IH]; intros s h Ht Hd Hspan.
  - simpl. split; [exists h; now split|]. repeat split. lia.
  - simpl in Hspan. pose proof (span_nonneg more) as Hnn.
    destruct (step_change s dt content) as (Ht' & Hd' & Hn' & Hf' & Hfi' & Hin').
    { unfold one_timer. now rewrite Ht. }
    { intros h0 due0 E. rewrite Ht in E. injection E as _ <-. lia. }
    simpl run. change (fold_left (step c options) (changes more) ?x)
      with (run c options (changes more) x).
    set (s1 := step c options s (dt, FsEvent "change" content)) in *.
    destruct (IH s1 (nextHandle s)) as (Hex & Hn & Hf & Hfi & Hin).
    + rewrite Ht', Hn'. reflexivity.
    + exact Hd'.
    + lia.
    + split; [exact Hex|]. split; [rewrite Hn, Hn'; simpl; lia|].
      split; [|split; congruence].
      rewrite Hf, Hf'. simpl map.
      destruct (map snd more) eqn:Hm; [reflexivity|].
      clear. generalize f. induction l as [|x l IHl]; intros f0; [reflexivity|].
      simpl. destruct l; [reflexivity|]. apply (IHl x).
Qed.

Lemma spaced_snoc (gap : Z) (ts : list Z) (t : Z) :
  spaced gap ts -> Forall (fun x => x + gap <= t) ts -> spaced gap (ts ++ [t]).
Proof.
  induction ts as [|a [|b ts] IH]; intros Hs Hall; simpl; try exact I.
  - split; [|exact I]. now inversion Hall.
  - destruct Hs as [Hab Hs]. split; [exact Hab|].
    apply IH; [exact Hs|]. now inversion Hall.
Qed.

Lemma steady_start (content : FileContent) (answer : Fetched) (write_ok : bool) :
  steady options (start c options content answer write_ok).
Proof.
  unfold start, render_begin, render_settle, idle. simpl.
  destruct (parsed content); simpl.
  - destruct (await_request _ answer); simpl;
      (split; simpl; [exact I | repeat constructor; simpl; lia
                     | constructor | exact I]).
  - split; simpl; [exact I | repeat constructor; simpl; lia
                  | constructor | exact I].
Qed.

Lemma steady_settle (k : nat) (answer : Fetched) (write_ok : bool) (s : Session) :
  steady options s -> steady options (render_settle k answer write_ok s).
Proof.
  intros [H1 H2 H3 H4]. unfold render_settle.
  destruct (inflight s !! k); [|split; assumption].
  destruct (await_request _ answer); split; assumption.
Qed.

Lemma steady_advance (t : Z) (s : Session) :
  now s <= t -> steady options s ->
  steady options (advance c options t s) /\ now (advance c options t s) = t.
Proof.
  intros Hnow [H1 H2 H3 H4]. unfold one_timer in H1.
  destruct (timers s) as [|[h due] [|tm rest]] eqn:Ht; [| |destruct H1].
  - rewrite advance_idle by exact Ht. split; [|reflexivity].
    split; simpl; [exact I | | constructor | exact H4].
    eapply Forall_impl; [exact H2|]. simpl. intros f Hf. lia.
  - destruct (Z.le_gt_cases due t) as [Hdue|Hlater].
    + rewrite (advance_fires t s h due Ht Hdue).
      assert (Hn : now (render_begin c options due (at_time t [] s)) = t).
      { unfold render_begin. simpl. now destruct (parsed (file s)). }
      split; [|exact Hn].
      inversion H3 as [|? ? Hhead _]; subst. simpl in Hhead.
      split.
      * unfold one_timer. now rewrite timers_render_begin.
      * rewrite Hn, fired_render_begin. simpl. apply Forall_app. split.
        -- eapply Forall_impl; [exact H2|]. simpl. intros f Hf. lia.
        -- repeat constructor. simpl. exact Hdue.
      * rewrite timers_render_begin. simpl. constructor.
      * rewrite fired_render_begin. simpl. rewrite map_app. simpl.
        apply spaced_snoc; [exact H4|].
        apply Forall_map. exact Hhead.
    + rewrite (advance_before_due t s h due Ht Hlater). split; [|reflexivity].
      split; simpl; [exact H1 | | exact H3 | exact H4].
      eapply Forall_impl; [exact H2|]. simpl. intros f Hf. lia.
Qed.

Lemma steady_fs_event (eventType : string) (content : FileContent) (s : Session) :
  steady options s ->
  steady options (on_fs_event options eventType (set_file content s)).
Proof.
  intros Hs. pose proof Hs as [H1 H2 H3 H4].
  unfold on_fs_event at 1. destruct (String.eqb eventType "change") eqn:He.
  - apply String.eqb_eq in He. subst eventType.
    destruct (on_change_rearms (set_file content s)) as [Ht Hd]; [exact H1|].
    unfold on_fs_event in Ht, Hd. simpl String.eqb in Ht, Hd. cbv iota in Ht, Hd.
    split.
    + unfold one_timer. rewrite Ht. exact Hd.
    + exact H2.
    + rewrite Ht. constructor; [|constructor]. simpl.
      eapply Forall_impl; [exact H2|]. simpl. intros f Hf. lia.
    + exact H4.
  - split; assumption.
Qed.

Lemma steady_step (s : Session) (timed : N * Input) :
  steady options s -> steady options (step c options s timed).
Proof.
  intros Hs. unfold step.
  destruct (steady_advance (now s + Z.of_N (fst timed)) s ltac:(lia) Hs)
    as [Ha _].
  destruct (snd timed) as [eventType content|k answer write_ok|]; simpl.
  - now apply steady_fs_event.
  - now apply steady_settle.
  - exact Ha.
Qed.

Lemma steady_run (inputs : list (N * Input)) (s : Session) :
  steady options s -> steady options (run c options inputs s).
Proof.
  revert s. induction inputs as [|i inputs IH]; intros s Hs; [exact Hs|].
  simpl. apply IH. now apply steady_step.
Qed.

End EngineFacts.




(** C4 (as stated, refuted): with [--debounce 3000000000] the timer's
    delay is 1 ms; three changes 100 ms apart lie in a window far shorter
    than the debounce interval, yet each of them has its own render: two
    have begun before the burst is over, the third 1 ms after it. *)
Lemma long_debounce_fires_every_event :
  debounce long_debounce_options = Js.Num 3000000000
  /\ span (tl three_changes) < 3000000000
  /\ fired watching_long = [(0, data_v 0)]
  /\ fired (run demo_client long_debounce_options (changes three_changes)
              watching_long)
     = [(0, data_v 0); (1001, data_v 1); (1101, data_v 2)]
  /\ fired (step demo_client long_debounce_options
              (run demo_client long_debounce_options (changes three_changes)
                 watching_long)
              (100%N, Tick))
     = [(0, data_v 0); (1001, data_v 1); (1101, data_v 2); (1201, data_v 3)]
  /\ ~ (exists one,
          fired (step demo_client long_debounce_options
                   (run demo_client long_debounce_options
                      (changes three_changes) watching_long)
                   (100%N, Tick))
          = fired watching_long ++ [one]).
Proof.
  split; [reflexivity|]. split; [vm_compute; reflexivity|].
  split; [vm_compute; reflexivity|]. split; [vm_compute; reflexivity|].
  split; [vm_compute; reflexivity|].
  intros [one H]. vm_compute in H. discriminate.
Qed.

(** C4 (amended): a burst of [change] events, the first of them arriving
    with no timer armed or before the armed one is due, and the last less
    than the timer delay after the first (the delay [setTimeout] really
    uses: the [--debounce] value from 1 to 2^31 - 1, else 1 ms), begins
    no render while it lasts; once
    the delay has passed after its last event exactly one render has
    begun, at that event's time plus the delay, and it has read the
    content the file had at the last event.  No timer is left armed. *)
Theorem debounce_burst_fires_once
    (c : CanveleteAPIClient) (options : Options) (s : Session)
    (first : N * FileContent) (more : list (N * FileContent)) (wait : N)
    (Hone : one_timer s)
    (Hfirst : forall h due, timers s = [(h, due)] ->
                            now s + Z.of_N (fst first) < due)
    (Hwindow : span more < timer_delay (debounce options))
    (Hwait : timer_delay (debounce options) <= Z.of_N wait) :
  fired (run c options (changes (first :: more)) s) = fired s
  /\ fired (step c options (run c options (changes (first :: more)) s)
              (wait, Tick))
     = fired s ++ [(now s + Z.of_N (fst first) + span more
                    + timer_delay (debounce options),
                    List.last (map snd more) (snd first))]
  /\ timers (step c options (run c options (changes (first :: more)) s)
               (wait, Tick)) = [].
Proof.
  destruct first as [dt content]. simpl fst in *. simpl snd in *.
  destruct (step_change c options s dt content Hone Hfirst)
    as (Ht & Hd & Hn & Hf & Hfi & Hin).
  simpl changes. simpl run.
  change (fold_left (step c options) (changes more) ?x)
    with (run c options (changes more) x).
  set (s1 := step c options s (dt, FsEvent "change" content)) in *.
  destruct (burst_rearms c options more s1 (nextHandle s))
    as ((h' & Ht2 & Hd2) & Hn2 & Hf2 & Hfi2 & Hin2).
  - rewrite Ht, Hn. reflexivity.
  - exact Hd.
  - exact Hwindow.
  - set (s2 := run c options (changes more) s1) in *.
    split; [congruence|].
    unfold step. simpl fst. simpl snd. unfold handle.
    rewrite (advance_fires c options _ s2 h' _ Ht2) by lia.
    rewrite fired_render_begin, timers_render_begin. simpl.
    split; [|reflexivity].
    rewrite Hfi2, Hfi, Hf2, Hf, Hn2, Hn. reflexivity.
Qed.

Lemma debounce_burst_fires_once_witness :
  fired (step demo_client watch_options
           (run demo_client watch_options
              (changes [(200%N, data_v 2); (250%N, data_v 3)])
              (run demo_client watch_options
                 (changes [(1000%N, data_v 1)]) watching))
           (500%N, Tick))
  = fired watching ++ [(1950, data_v 3)].
Proof.
  apply (debounce_burst_fires_once demo_client watch_options
           (run demo_client watch_options (changes [(1000%N, data_v 1)]) watching)
           (200%N, data_v 2) [(250%N, data_v 3)] 500%N).
  - vm_compute. reflexivity.
  - intros h due H. vm_compute in H. injection H as _ <-. reflexivity.
  - vm_compute. reflexivity.
  - vm_compute. discriminate.
Defined.

End WatchFacts.

(* ===================================================================== *)
(** ** Properties of [watch-dir <directory>] *)
(* ===================================================================== *)

Module WatchDirFacts.
Import Client WatchDir.

(** *** Properties of the directory watch *)

Section EngineFacts.

Variable c : CanveleteAPIClient.
Variable options : Options.
Variable directory : string.

Local Abbreviation begin := (processFile_begin c options).
Local Abbreviation settle := (processFile_settle options).

(** The guard: a path already in [processedFiles] is not processed again. *)
Lemma begin_again (origin : Origin) (filePath : string) (data : option Js.Val)
    (s : Session) :
  filePath ∈ processedFiles s -> begin origin filePath data s = s.
Proof.
  intros Hin. unfold processFile_begin.
  destruct (decide (filePath ∈ processedFiles s)); [reflexivity|contradiction].
Qed.

(** A new path that ends in [.json] is marked and logged. *)
Lemma begin_new (origin : Origin) (filePath : string) (data : option Js.Val)
    (s : Session) :
  filePath ∉ processedFiles s ->
  Path.endsWith filePath ".json" = true ->
  processed (begin origin filePath data s) = processed s ++ [(origin, filePath)]
  /\ processedFiles (begin origin filePath data s)
     = {[ filePath ]} ∪ processedFiles s
  /\ timers (begin origin filePath data s) = timers s.
Proof.
  intros Hnew Hjson. unfold processFile_begin.
  destruct (decide (filePath ∈ processedFiles s)); [contradiction|].
  rewrite (PathFacts.basename_keeps_json filePath Hjson). simpl.
  now destruct data.
Qed.

(** Whatever the path, [processFile] logs it at most once and only if it
    was not marked before. *)
Lemma begin_cases (origin : Origin) (filePath : string) (data : option Js.Val)
    (s : Session) :
  begin origin filePath data s = s
  \/ ((filePath ∉ processedFiles s)
      /\ processed (begin origin filePath data s)
         = processed s ++ [(origin, filePath)]
      /\ processedFiles (begin origin filePath data s)
         = {[ filePath ]} ∪ processedFiles s
      /\ timers (begin origin filePath data s) = timers s).
Proof.
  unfold processFile_begin.
  destruct (decide (filePath ∈ processedFiles s)); [now left|].
  destruct (negb (Path.endsWith (Path.basename filePath) ".json"));
    [now left|].
  right. now destruct data.
Qed.

Lemma settle_keeps (k : nat) (answer : Fetched) (write_ok : bool) (s : Session) :
  processed (settle k answer write_ok s) = processed s
  /\ processedFiles (settle k answer write_ok s) = processedFiles s
  /\ timers (settle k answer write_ok s) = timers s.
Proof.
  unfold processFile_settle. destruct (inflight s !! k); [|now repeat split].
  destruct (await_request _ answer); [destruct write_ok|]; now repeat split.
Qed.

Lemma awaited_keeps (filePath : string) (a : Attempt) (s : Session) :
  processed (processFile_awaited c options filePath a s)
  = processed (begin AtStartup filePath (content a) s)
  /\ processedFiles (processFile_awaited c options filePath a s)
     = processedFiles (begin AtStartup filePath (content a) s).
Proof.
  unfold processFile_awaited.
  destruct (decide _); [now split|].
  destruct (settle_keeps (length (inflight s)) (answer a) (write_ok a)
              (begin AtStartup filePath (content a) s)) as (H1 & H2 & _).
  now split.
Qed.

Lemma tracked_extend (origin : Origin) (filePath : string) (s s' : Session) :
  tracked s ->
  filePath ∉ processedFiles s ->
  processed s' = processed s ++ [(origin, filePath)] ->
  processedFiles s' = {[ filePath ]} ∪ processedFiles s ->
  tracked s'.
Proof.
  intros [Hnd Hiff] Hnew Hp Hs. unfold tracked.
  rewrite Hp, Hs, fmap_app. simpl. split.
  - apply NoDup_app. split; [exact Hnd|]. split; [|apply NoDup_singleton].
    intros x Hx Hx'. apply list_elem_of_singleton in Hx'. subst x.
    apply Hnew. now apply Hiff.
  - intros p. rewrite elem_of_union, elem_of_singleton, elem_of_app,
      list_elem_of_singleton, Hiff. tauto.
Qed.

Lemma tracked_same (s s' : Session) :
  tracked s ->
  processed s' = processed s -> processedFiles s' = processedFiles s ->
  tracked s'.
Proof. intros H Hp Hs. unfold tracked. now rewrite Hp, Hs. Qed.

Lemma tracked_fresh : tracked fresh.
Proof.
  split; simpl; [apply NoDup_nil_2|].
  intros p. rewrite elem_of_empty, elem_of_nil. tauto.
Qed.

(** The startup loop: files that are distinct, end in [.json] and are not
    marked yet are logged one after the other, in order. *)
Lemma process_existing_logs (files : list string) (env : nat -> Attempt)
    (i : nat) (s : Session) :
  NoDup files ->
  Forall (fun f => Path.endsWith f ".json" = true) files ->
  (forall f, f ∈ files -> f ∉ processedFiles s) ->
  tracked s ->
  processed (process_existing c options i files env s)
  = processed s ++ (pair AtStartup <$> files)
  /\ tracked (process_existing c options i files env s)
  /\ timers (process_existing c options i files env s) = timers s.
Proof.
  revert i s. induction files as [|f files IH]; intros i s Hnd Hjson Hnew Htr.
  - simpl. now rewrite app_nil_r.
  - simpl. apply NoDup_cons in Hnd. destruct Hnd as [Hf Hnd].
    apply Forall_cons in Hjson. destruct Hjson as [Hfj Hjson].
    assert (Hfs : f ∉ processedFiles s) by (apply Hnew; left).
    destruct (begin_new AtStartup f (content (env i)) s Hfs Hfj)
      as (Hp & Hs & Ht).
    destruct (awaited_keeps f (env i) s) as [Hp' Hs'].
    set (s1 := processFile_awaited c options f (env i) s) in *.
    rewrite Hp in Hp'. rewrite Hs in Hs'.
    assert (Ht1 : timers s1 = timers s).
    { unfold s1, processFile_awaited. destruct (decide _); [exact Ht|].
      destruct (settle_keeps (length (inflight s)) (answer (env i))
                  (write_ok (env i)) (begin AtStartup f (content (env i)) s))
        as (_ & _ & Hts). now rewrite Hts. }
    destruct (IH (S i) s1 Hnd Hjson) as (Hlog & Htr' & Htm).
    + intros g Hg. rewrite Hs'. rewrite elem_of_union, elem_of_singleton.
      intros [->|Hgs]; [contradiction|].
      revert Hgs. apply Hnew. now right.
    + now apply (tracked_extend AtStartup f s).
    + rewrite Hlog, Hp', <- app_assoc. simpl.
      split; [reflexivity|]. split; [exact Htr'|]. now rewrite Htm.
Qed.

Lemma existingFiles_ready (listing : list string) :
  NoDup listing ->
  Forall (fun f => Path.plain f = true) listing ->
  NoDup (existingFiles directory listing)
  /\ Forall (fun f => Path.endsWith f ".json" = true)
       (existingFiles directory listing).
Proof.
  intros Hnd Hplain. unfold existingFiles.
  assert (Hin : forall f,
             f ∈ filter (fun f => Path.endsWith f ".json" = true) listing ->
             Path.plain f = true /\ Path.endsWith f ".json" = true).
  { intros f Hf. apply list_elem_of_filter in Hf. destruct Hf as [Hj Hf].
    split; [|exact Hj]. rewrite Forall_forall in Hplain. now apply Hplain. }
  split.
  - apply NoDup_fmap_2_strong; [|now apply NoDup_filter].
    intros a b Ha Hb. apply PathFacts.path_join_inj.
    + now apply Hin.
    + now apply Hin.
  - apply Forall_fmap, Forall_forall. intros f Hf. simpl.
    destruct (Hin f Hf) as [Hp Hj]. now apply PathFacts.endsWith_join.
Qed.

(** An awaited [processFile] on a new [.json] path, with nothing in
    flight, runs to its end: nothing is in flight after it, and it left
    one output or one failure. *)
Lemma awaited_settles (filePath : string) (a : Attempt) (s : Session) :
  filePath ∉ processedFiles s ->
  Path.endsWith filePath ".json" = true ->
  inflight s = [] ->
  inflight (processFile_awaited c options filePath a s) = []
  /\ outputs (processFile_awaited c options filePath a s)
     = outputs s ++ (if succeeds a then [output_for options filePath] else [])
  /\ failures (processFile_awaited c options filePath a s)
     = (failures s + (if succeeds a then 0 else 1))%nat.
Proof.
  intros Hnew Hjson Hfly.
  unfold processFile_awaited, processFile_begin.
  destruct (decide (filePath ∈ processedFiles s)); [contradiction|].
  rewrite (PathFacts.basename_keeps_json filePath Hjson). cbn [negb].
  unfold succeeds. destruct (content a) as [data|].
  - cbn [inflight]. rewrite Hfly. cbn [app length].
    destruct (decide (1%nat = 0%nat)) as [E|_]; [discriminate|].
    unfold processFile_settle. cbn [inflight lookup list_lookup path request].
    cbn [delete list_delete].
    unfold await_request, render_request, render, request. cbn [f_binary binary].
    destruct (answer a) as [message|r].
    + cbn. rewrite app_nil_r. repeat split; lia.
    + unfold handleResponse. destruct (r_ok r); cbn [negb andb].
      * destruct (write_ok a); cbn.
        -- repeat split; lia.
        -- rewrite app_nil_r. repeat split; lia.
      * cbn. rewrite app_nil_r. repeat split; lia.
  - cbn [inflight]. destruct (decide _) as [_|E]; [|now destruct E].
    cbn. rewrite app_nil_r. repeat split; [exact Hfly|lia].
Qed.

(** The startup loop settles every file before it goes on: at its end
    nothing is in flight, and each file left one output or one failure,
    in order. *)
Lemma process_existing_settles (files : list string) (env : nat -> Attempt)
    (i : nat) (s : Session) :
  NoDup files ->
  Forall (fun f => Path.endsWith f ".json" = true) files ->
  (forall f, f ∈ files -> f ∉ processedFiles s) ->
  inflight s = [] ->
  inflight (process_existing c options i files env s) = []
  /\ (length (outputs (process_existing c options i files env s))
      + failures (process_existing c options i files env s)
      = length (outputs s) + failures s + length files)%nat
  /\ ((forall k, succeeds (env k) = true) ->
      outputs (process_existing c options i files env s)
      = outputs s ++ (output_for options <$> files)
      /\ failures (process_existing c options i files env s) = failures s)
  /\ exists new, outputs (process_existing c options i files env s)
                 = outputs s ++ new.
Proof.
  revert i s. induction files as [|f files IH]; intros i s Hnd Hjson Hnew Hfly.
  - simpl. rewrite app_nil_r. repeat split; try assumption; try lia.
    exists []. now rewrite app_nil_r.
  - simpl. apply NoDup_cons in Hnd. destruct Hnd as [Hf Hnd].
    apply Forall_cons in Hjson. destruct Hjson as [Hfj Hjson].
    assert (Hfs : f ∉ processedFiles s) by (apply Hnew; left).
    destruct (awaited_settles f (env i) s Hfs Hfj Hfly) as (Hi & Ho & Hfa).
    destruct (begin_new AtStartup f (content (env i)) s Hfs Hfj)
      as (_ & Hs & _).
    destruct (awaited_keeps f (env i) s) as [_ Hs'].
    set (s1 := processFile_awaited c options f (env i) s) in *.
    rewrite Hs in Hs'.
    destruct (IH (S i) s1 Hnd Hjson) as (Hi2 & Hc2 & Hall & (new & Hnew2)).
    + intros g Hg. rewrite Hs'. rewrite elem_of_union, elem_of_singleton.
      intros [->|Hgs]; [contradiction|].
      revert Hgs. apply Hnew. now right.
    + exact Hi.
    + split; [exact Hi2|]. split; [|split].
      * rewrite Hc2, Ho, Hfa, length_app.
        destruct (succeeds (env i)); simpl; lia.
      * intros Hgood. destruct (Hall Hgood) as [Ho2 Hf2].
        rewrite Ho2, Hf2, Ho, Hfa, (Hgood i), <- app_assoc.
        split; [reflexivity|lia].
      * exists ((if succeeds (env i) then [output_for options f] else [])
                ++ new).
        now rewrite Hnew2, Ho, <- app_assoc.
Qed.

(** The watcher only adds to the outputs. *)
Lemma step_outputs (s : Session) (i : Input) :
  exists new, outputs (step c options directory s i) = outputs s ++ new.
Proof.
  destruct i as [eventType filename present|data|k answer wok]; cbn [step].
  - exists []. rewrite app_nil_r. unfold on_dir_event.
    destruct filename as [name|]; [|reflexivity].
    now destruct (_ && _ && _).
  - exists []. rewrite app_nil_r. unfold on_timeout.
    destruct (timers s) as [|filePath later]; [reflexivity|].
    unfold processFile_begin. cbn [processedFiles].
    destruct (decide _); [reflexivity|].
    destruct (negb _); [reflexivity|]. now destruct data.
  - unfold processFile_settle.
    destruct (inflight s !! k) as [call|];
      [|exists []; now rewrite app_nil_r].
    destruct (await_request _ answer); [destruct wok|]; cbn [outputs];
      try (exists []; now rewrite app_nil_r).
    eexists. reflexivity.
Qed.

Lemma run_outputs (inputs : list Input) (s : Session) :
  exists new,
    outputs (fold_left (step c options directory) inputs s) = outputs s ++ new.
Proof.
  revert s. induction inputs as [|i inputs IH]; intros s.
  - exists []. simpl. now rewrite app_nil_r.
  - simpl. destruct (step_outputs s i) as [new1 H1].
    destruct (IH (step c options directory s i)) as [new2 H2].
    exists (new1 ++ new2). now rewrite H2, H1, app_assoc.
Qed.

(** One input of the watcher: the log grows by at most one entry, which
    comes from an event. *)
Lemma step_logs (s : Session) (i : Input) :
  tracked s ->
  tracked (step c options directory s i)
  /\ exists extra,
      processed (step c options directory s i)
      = processed s ++ (pair FromEvent <$> extra).
Proof.
  intros Htr. destruct i as [eventType filename present|data|k answer wok];
    simpl.
  - unfold on_dir_event. destruct filename as [name|];
      [|split; [exact Htr|exists []; now rewrite app_nil_r]].
    destruct (_ && _ && _);
      (split; [exact Htr|exists []; simpl; now rewrite app_nil_r]).
  - unfold on_timeout. destruct (timers s) as [|filePath later];
      [split; [exact Htr|exists []; now rewrite app_nil_r]|].
    match goal with |- context [begin FromEvent filePath data ?st] =>
      set (s0 := st) end.
    assert (Htr0 : tracked s0) by exact Htr.
    destruct (begin_cases FromEvent filePath data s0)
      as [->|(Hnew & Hp & Hs & _)].
    + split; [exact Htr0|exists []; simpl; now rewrite app_nil_r].
    + split; [now apply (tracked_extend FromEvent filePath s0)|].
      exists [filePath]. exact Hp.
  - destruct (settle_keeps k answer wok s) as (Hp & Hs & _).
    split; [now apply (tracked_same s)|].
    exists []. simpl. now rewrite app_nil_r.
Qed.

Lemma run_logs (inputs : list Input) (s : Session) :
  tracked s ->
  tracked (fold_left (step c options directory) inputs s)
  /\ exists later,
      processed (fold_left (step c options directory) inputs s)
      = processed s ++ (pair FromEvent <$> later).
Proof.
  revert s. induction inputs as [|i inputs IH]; intros s Htr.
  - split; [exact Htr|]. exists []. simpl. now rewrite app_nil_r.
  - simpl. destruct (step_logs s i Htr) as [Htr1 [extra Hp1]].
    destruct (IH _ Htr1) as [Htr2 [later Hp2]].
    split; [exact Htr2|]. exists (extra ++ later).
    now rewrite Hp2, Hp1, fmap_app, app_assoc.
Qed.

End EngineFacts.



End WatchDirFacts.

(* ===================================================================== *)
(** ** Properties of the string methods *)
(* ===================================================================== *)

Module TextFacts.
Import Text.

Lemma append_cons (c : ascii) (a b : string) :
  String c a +:+ b = String c (a +:+ b).
Proof. reflexivity. Qed.

Lemma append_nil (b : string) : "" +:+ b = b.
Proof. reflexivity. Qed.

Lemma append_assoc (a b c : string) : (a +:+ b) +:+ c = a +:+ (b +:+ c).
Proof.
  induction a as [|x a IH]; [reflexivity|].
  rewrite !append_cons. now rewrite IH.
Qed.

Lemma length_append (a b : string) :
  String.length (a +:+ b) = (String.length a + String.length b)%nat.
Proof.
  induction a as [|c a IH]; [reflexivity|].
  rewrite append_cons. simpl. now rewrite IH.
Qed.

Lemma str_take_drop (n : nat) (s : string) : str_take n s +:+ str_drop n s = s.
Proof.
  revert s. induction n as [|n IH]; intros s; [reflexivity|].
  destruct s as [|c s]; simpl; [reflexivity|].
  rewrite append_cons. f_equal. apply IH.
Qed.

Lemma length_str_take (n : nat) (s : string) :
  String.length (str_take n s) = Nat.min n (String.length s).
Proof.
  revert s. induction n as [|n IH]; intros s; [reflexivity|].
  destruct s as [|c s]; simpl; [reflexivity|]. f_equal. apply IH.
Qed.

Lemma length_str_drop (n : nat) (s : string) :
  String.length (str_drop n s) = (String.length s - n)%nat.
Proof.
  revert s. induction n as [|n IH]; intros s; simpl; [lia|].
  destruct s as [|c s]; simpl; [reflexivity|]. apply IH.
Qed.

Lemma str_take_all (n : nat) (s : string) :
  (String.length s <= n)%nat -> str_take n s = s.
Proof.
  revert s. induction n as [|n IH]; intros s Hle.
  - destruct s; [reflexivity|simpl in Hle; lia].
  - destruct s as [|c s]; simpl; [reflexivity|].
    rewrite IH; [reflexivity|simpl in Hle; lia].
Qed.

Lemma str_drop_all (n : nat) (s : string) :
  (String.length s <= n)%nat -> str_drop n s = "".
Proof.
  revert s. induction n as [|n IH]; intros s Hle.
  - destruct s; [reflexivity|simpl in Hle; lia].
  - destruct s as [|c s]; simpl; [reflexivity|].
    apply IH. simpl in Hle. lia.
Qed.

Lemma startsWith_app (p rest : string) : startsWith (p +:+ rest) p = true.
Proof.
  induction p as [|c p IH]; [now destruct rest|].
  rewrite append_cons. simpl. now rewrite Ascii.eqb_refl, IH.
Qed.

Lemma includes_here (s p : string) : startsWith s p = true -> includes s p = true.
Proof. intros H. destruct s; cbn [includes]; now rewrite H. Qed.

Lemma includes_app (a p b : string) : includes (a +:+ p +:+ b) p = true.
Proof.
  induction a as [|c a IH].
  - rewrite append_nil. apply includes_here, startsWith_app.
  - rewrite append_cons. cbn [includes]. rewrite IH.
    now destruct (startsWith _ p).
Qed.

End TextFacts.

(* ===================================================================== *)
(** ** Properties of responses, [renderAsync] and [exportDesign] *)
(* ===================================================================== *)

Module ApiFacts.
Import Client Api.

Lemma non_empty_truthy (s : string) : s <> "" -> Js.truthy (Js.Str s) = true.
Proof.
  intros Hs. simpl. destruct (String.eqb s "") eqn:E; [|reflexivity].
  apply String.eqb_eq in E. contradiction.
Qed.



Lemma body_get_renderAsync (c : CanveleteAPIClient) (o : RenderOptions) (k : string) :
  body_get (renderAsync c o) k = Js.assoc k (renderAsync_data o).
Proof. reflexivity. Qed.

Lemma body_has_renderAsync (c : CanveleteAPIClient) (o : RenderOptions) (k : string) :
  body_has (renderAsync c o) k = has_key k (renderAsync_data o).
Proof. reflexivity. Qed.

Lemma renderAsync_no_size (c : CanveleteAPIClient) (o : RenderOptions) :
  body_has (renderAsync c o) "width" = false
  /\ body_has (renderAsync c o) "height" = false.
Proof.
  rewrite !body_has_renderAsync. unfold renderAsync_data, set_if.
  destruct (Js.truthy (designId o)), (Js.truthy (templateId o)),
    (Js.truthy (dynamicData o)); split; reflexivity.
Qed.

Ltac case_keys k :=
  repeat match goal with
         | |- context [String.eqb k ?x] => destruct (String.eqb k x)
         end.

(** X2: the request [renderAsync] issues goes to the async endpoint, is
    not binary and carries [async: true]; it never has a [width] or
    [height], whatever the options hold; every other property of its body
    is the one [render] sends for the same options. *)
Theorem renderAsync_drops_width_and_height
    (c : CanveleteAPIClient) (o : RenderOptions) :
  f_url (renderAsync c o) = baseUrl c +:+ "/api/v1/render/async"
  /\ f_binary (renderAsync c o) = false
  /\ body_get (renderAsync c o) "async" = Js.Bool true
  /\ body_has (renderAsync c o) "width" = false
  /\ body_has (renderAsync c o) "height" = false
  /\ (forall k : string,
        k <> "width" -> k <> "height" -> k <> "async" ->
        body_get (renderAsync c o) k = body_get (render c o) k).
Proof.
  split; [reflexivity|]. split; [reflexivity|].
  split; [|split; [|split]].
  - rewrite body_get_renderAsync. unfold renderAsync_data, set_if.
    destruct (Js.truthy (designId o)), (Js.truthy (templateId o)),
      (Js.truthy (dynamicData o)); reflexivity.
  - apply renderAsync_no_size.
  - apply renderAsync_no_size.
  - intros k Hw Hh Ha.
    apply String.eqb_neq in Hw, Hh, Ha.
    rewrite body_get_renderAsync, ClientFacts.body_get_render.
    unfold renderAsync_data, render_data, set_if.
    destruct (Js.truthy (designId o)), (Js.truthy (templateId o)),
      (Js.truthy (dynamicData o)), (Js.truthy (width o)),
      (Js.truthy (height o)); simpl; rewrite ?Hw, ?Hh, ?Ha;
      case_keys k; reflexivity.
Qed.

Lemma exportDesign_body (c : CanveleteAPIClient) (designId : string)
    (format quality : Js.Val) :
  format <> Js.Undefined -> quality <> Js.Undefined ->
  f_body (exportDesign c designId format quality)
  = Some [("format", format); ("quality", quality)].
Proof. intros Hf Hq. unfold exportDesign. simpl. now destruct format, quality. Qed.

End ApiFacts.

(* ===================================================================== *)
(** ** Properties of authentication and settings *)
(* ===================================================================== *)

Module CliFacts.
Import Store Cli.

Lemma non_empty_true (s : string) : s <> "" -> non_empty s = true.
Proof.
  intros Hs. unfold non_empty. destruct (String.eqb s "") eqn:E; [|reflexivity].
  apply String.eqb_eq in E. contradiction.
Qed.

Lemma getApiKey_override (env : Env) (st : State) (k : string) :
  CANVELETE_API_KEY env = Some k -> k <> "" -> getApiKey env st = k.
Proof.
  intros Hk Hne. unfold getApiKey. rewrite Hk. now rewrite non_empty_true.
Qed.

(** X3: after [profiles use] on a stored profile, the client
    [createClient] builds sends that profile's key when no override is
    set and the override when one is; its base URL is the one it had
    before the switch: the profile's own base URL is not used. *)
Theorem switch_sets_key_not_base_url
    (name : string) (st : State) (env : Env) (p : Profile)
    (Hp : profiles (profilesConfig st) !! name = Some p) :
  Client.baseUrl (createClient env (snd (profiles_use name st)))
  = Client.baseUrl (createClient env st)
  /\ baseUrl (config (snd (profiles_use name st))) = baseUrl (config st)
  /\ (env_override env = false ->
      Client.apiKey (createClient env (snd (profiles_use name st))) = p_apiKey p)
  /\ (forall k, CANVELETE_API_KEY env = Some k -> k <> "" ->
      Client.apiKey (createClient env (snd (profiles_use name st))) = k).
Proof.
  unfold profiles_use. rewrite Hp. simpl.
  split; [reflexivity|]. split; [reflexivity|]. split.
  - intros Henv. now rewrite StoreFacts.getApiKey_no_override.
  - intros k Hk Hne. now apply getApiKey_override.
Qed.

Lemma switch_sets_key_not_base_url_witness :
  Client.baseUrl (createClient no_env
                    (snd (profiles_use "prod"
                            (setProfiles {[ "prod" := prod_profile ]} initial))))
  = Client.baseUrl (createClient no_env
                      (setProfiles {[ "prod" := prod_profile ]} initial)).
Proof.
  apply (switch_sets_key_not_base_url "prod"
           (setProfiles {[ "prod" := prod_profile ]} initial) no_env prod_profile).
  vm_compute. reflexivity.
Defined.

(** X4: [auth logout] empties the stored key and leaves the profile store
    alone.  After it [requireAuth] stops a command exactly when no
    environment override is set; with an override the command goes on
    with the override as its key. *)
Theorem logout_then_requireAuth (env : Env) (st : State) :
  apiKey (config (snd (auth_logout st))) = ""
  /\ profilesConfig (snd (auth_logout st)) = profilesConfig st
  /\ (env_override env = false ->
      requireAuth env (snd (auth_logout st))
      = inr (Exit 1 "Error: Not authenticated."))
  /\ (forall k, CANVELETE_API_KEY env = Some k -> k <> "" ->
      requireAuth env (snd (auth_logout st)) = inl k).
Proof.
  split; [reflexivity|]. split; [reflexivity|]. split.
  - intros Henv. unfold requireAuth.
    now rewrite StoreFacts.getApiKey_no_override.
  - intros k Hk Hne. unfold requireAuth.
    rewrite (getApiKey_override env _ k Hk Hne). now rewrite non_empty_true.
Qed.

Lemma logout_then_requireAuth_witness :
  requireAuth env_with_key (snd (auth_logout prod_state)) = inl "cvt_env"
  /\ requireAuth no_env (snd (auth_logout prod_state))
     = inr (Exit 1 "Error: Not authenticated.").
Proof.
  split.
  - apply (proj2 (proj2 (proj2 (logout_then_requireAuth env_with_key prod_state)))
             "cvt_env"); [reflexivity|discriminate].
  - apply (proj1 (proj2 (proj2 (logout_then_requireAuth no_env prod_state)))).
    reflexivity.
Defined.

(** X5: [auth login] stores a key only after the test request came back
    ok: then the stored key is the [--key] value when one was given,
    else the prompted one, and it is what [getApiKey] answers without an
    override.  When the request is rejected or the response is not ok the
    command exits with code 1 and the stores are unchanged. *)
Theorem login_stores_validated_key_only
    (key : option string) (prompted : string) (validation : Client.Fetched)
    (st : State) :
  (forall r, validation = Client.Responded r -> Client.r_ok r = true ->
     (forall k, key = Some k -> k <> "" ->
        snd (auth_login key prompted validation st) = setApiKey k st)
     /\ (key = None ->
         snd (auth_login key prompted validation st) = setApiKey prompted st)
     /\ (forall env, env_override env = false ->
         getApiKey env (snd (auth_login key prompted validation st))
         = apiKey (config (snd (auth_login key prompted validation st))))
     /\ profilesConfig (snd (auth_login key prompted validation st))
        = profilesConfig st)
  /\ ((forall r, validation = Client.Responded r -> Client.r_ok r = false) ->
      snd (auth_login key prompted validation st) = st
      /\ exists message,
          fst (auth_login key prompted validation st) = Exit 1 message).
Proof.
  split.
  - intros r -> Hok. unfold auth_login. rewrite Hok. simpl.
    split; [|split; [|split]].
    + intros k -> Hne. now rewrite non_empty_true.
    + now intros ->.
    + intros env Henv. now rewrite StoreFacts.getApiKey_no_override.
    + reflexivity.
  - intros Hbad. unfold auth_login. destruct validation as [message|r].
    + split; [reflexivity|eexists; reflexivity].
    + rewrite (Hbad r eq_refl).
      destruct (Client.r_status r =? 401);
        (split; [reflexivity|eexists; reflexivity]).
Qed.

Lemma login_stores_validated_key_only_witness :
  snd (auth_login (Some "cvt_new") ""
         (Client.Responded {| Client.r_ok := true; Client.r_status := 200;
                              Client.r_json := None; Client.r_bytes := [] |})
         initial)
  = setApiKey "cvt_new" initial
  /\ snd (auth_login (Some "cvt_bad") ""
            (Client.Responded {| Client.r_ok := false; Client.r_status := 401;
                                 Client.r_json := None; Client.r_bytes := [] |})
            prod_state)
     = prod_state.
Proof.
  split.
  - apply (proj1 (proj1 (login_stores_validated_key_only (Some "cvt_new") ""
             (Client.Responded {| Client.r_ok := true; Client.r_status := 200;
                                  Client.r_json := None; Client.r_bytes := [] |})
             initial) _ eq_refl eq_refl) "cvt_new"); [reflexivity|discriminate].
  - apply (proj2 (login_stores_validated_key_only (Some "cvt_bad") ""
             (Client.Responded {| Client.r_ok := false; Client.r_status := 401;
                                  Client.r_json := None; Client.r_bytes := [] |})
             prod_state)).
    intros r [= <-]. reflexivity.
Defined.

Lemma config_set_step (key value : string) (st : State) :
  1 <= defaultQuality (config st) <= 100 ->
  1 <= defaultQuality (config (snd (config_set key value st))) <= 100
  /\ apiKey (config (snd (config_set key value st))) = apiKey (config st)
  /\ profilesConfig (snd (config_set key value st)) = profilesConfig st.
Proof.
  intros Hq. unfold config_set.
  destruct (negb _); [now repeat split|].
  destruct (String.eqb key "defaultQuality").
  - destruct (Text.parseInt value) as [q| |negative]; [|now repeat split..].
    destruct ((q <? 1) || (100 <? q)) eqn:E; [now repeat split|].
    apply orb_false_elim in E. destruct E as [E1 E2].
    apply Z.ltb_ge in E1, E2. simpl. repeat split; lia.
  - destruct (String.eqb key "baseUrl"); now repeat split.
Qed.

(** X6: [config set] changes nothing when it exits, and never changes the
    stored API key or the profile store.  Whatever sequence of
    [config set] commands is run, a default quality that was between 1
    and 100 stays so. *)
Theorem config_set_keeps_quality_in_range
    (commands : list (string * string)) (st : State)
    (Hq : 1 <= defaultQuality (config st) <= 100) :
  1 <= defaultQuality (config (config_sets commands st)) <= 100
  /\ apiKey (config (config_sets commands st)) = apiKey (config st)
  /\ profilesConfig (config_sets commands st) = profilesConfig st
  /\ (forall key value code message,
        fst (config_set key value st) = Exit code message ->
        snd (config_set key value st) = st).
Proof.
  assert (Hall : 1 <= defaultQuality (config (config_sets commands st)) <= 100
                 /\ apiKey (config (config_sets commands st)) = apiKey (config st)
                 /\ profilesConfig (config_sets commands st) = profilesConfig st).
  { revert st Hq. induction commands as [|[k v] commands IH]; intros st Hq;
      [now repeat split|].
    destruct (config_set_step k v st Hq) as (Hq' & Ha & Hp).
    destruct (IH _ Hq') as (H1 & H2 & H3).
    change (config_sets ((k, v) :: commands) st)
      with (config_sets commands (snd (config_set k v st))).
    split; [exact H1|]. split; congruence. }
  destruct Hall as (H1 & H2 & H3).
  split; [exact H1|]. split; [exact H2|]. split; [exact H3|].
  - intros key value code message. unfold config_set.
    destruct (negb _); [reflexivity|].
    destruct (String.eqb key "defaultQuality").
    + destruct (Text.parseInt value) as [q| |negative]; [|reflexivity..].
      destruct ((q <? 1) || (100 <? q)); [reflexivity|discriminate].
    + destruct (String.eqb key "baseUrl"); discriminate.
Qed.

Lemma config_set_keeps_quality_in_range_witness :
  1 <= defaultQuality
         (config (config_sets [("defaultQuality", "95"); ("defaultQuality", "0");
                               ("defaultQuality", "abc"); ("apiKey", "x")]
                    initial)) <= 100.
Proof.
  apply (config_set_keeps_quality_in_range
           [("defaultQuality", "95"); ("defaultQuality", "0");
            ("defaultQuality", "abc"); ("apiKey", "x")] initial).
  vm_compute. split; discriminate.
Defined.

Lemma str_take_take (n m : nat) (s : string) :
  (n <= m)%nat -> Text.str_take n (Text.str_take m s) = Text.str_take n s.
Proof.
  revert m s. induction n as [|n IH]; intros m s Hle; [reflexivity|].
  destruct m as [|m]; [lia|]. destruct s as [|c s]; [reflexivity|].
  simpl. f_equal. apply IH. lia.
Qed.

(** X7: the key preview of [auth status], [auth token], [whoami] and
    [config list] hides the characters between the first 8 and the last
    4: as many as the key has beyond 12.  A key of at most 8 characters
    is shown whole at the start of the preview, one of at most 4 twice. *)
Theorem key_preview_hides_beyond_twelve (k : string) :
  String.length (hidden k) = (String.length k - 12)%nat
  /\ ((12 <= String.length k)%nat ->
      k = Text.str_take 8 k +:+ hidden k
          +:+ Text.str_drop (String.length k - 4) k)
  /\ ((String.length k <= 8)%nat ->
      key_preview k = k +:+ "..." +:+ Text.str_drop (String.length k - 4) k)
  /\ ((String.length k <= 4)%nat -> key_preview k = k +:+ "..." +:+ k).
Proof.
  unfold hidden, key_preview. split; [|split; [|split]].
  - rewrite TextFacts.length_str_drop, TextFacts.length_str_take. lia.
  - intros Hlen.
    rewrite <- (str_take_take 8 (String.length k - 4) k) by lia.
    rewrite <- TextFacts.append_assoc. rewrite !TextFacts.str_take_drop.
    reflexivity.
  - intros Hlen. now rewrite TextFacts.str_take_all.
  - intros Hlen. rewrite TextFacts.str_take_all by lia.
    replace (String.length k - 4)%nat with 0%nat by lia. reflexivity.
Qed.

Lemma key_preview_hides_beyond_twelve_witness :
  key_preview "abcd" = "abcd" +:+ "..." +:+ "abcd".
Proof.
  apply (proj2 (proj2 (proj2 (key_preview_hides_beyond_twelve "abcd")))).
  simpl. lia.
Defined.

End CliFacts.

(* ===================================================================== *)
(** ** Properties of the profile commands *)
(* ===================================================================== *)

Module ProfilesFacts.
Import Store Profiles.

Lemma use_stored (name : string) (st : State) (p : Profile) :
  profiles (profilesConfig st) !! name = Some p ->
  snd (profiles_use name st) = setApiKey (p_apiKey p) (setActiveProfile name st).
Proof. intros Hp. unfold profiles_use. now rewrite Hp. Qed.

Lemma member_stored (all : gmap string Profile) (name : string) (p : Profile) :
  all !! name = Some p -> has_member all name = true.
Proof.
  intros Hp. unfold has_member.
  rewrite bool_decide_eq_true_2 by (rewrite Hp; eauto). reflexivity.
Qed.

Lemma member_absent (all : gmap string Profile) (name : string) :
  all !! name = None -> has_member all name = Js.inherited name.
Proof.
  intros Hp. unfold has_member.
  rewrite bool_decide_eq_false_2; [reflexivity|].
  rewrite Hp. intros [x Hx]. discriminate.
Qed.

(** X8: removing the profile that was switched to deletes it and points
    the active profile back at [default], but the config field keeps the
    removed profile's key: without an override [getApiKey] still answers
    that key, and the client is built as before the removal.  Switching
    to the removed name then fails with the not-found exit, unless the
    name is one every object inherits: then the switch writes the active
    profile and ends on an uncaught error. *)
Theorem remove_active_keeps_its_key
    (name : string) (st : State) (env : Env) (p : Profile)
    (Hp : profiles (profilesConfig st) !! name = Some p)
    (Henv : env_override env = false) :
  profiles (profilesConfig
              (snd (profiles_remove name (snd (profiles_use name st))))) !! name
  = None
  /\ activeProfile (profilesConfig
                     (snd (profiles_remove name (snd (profiles_use name st)))))
     = "default"
  /\ getApiKey env (snd (profiles_remove name (snd (profiles_use name st))))
     = p_apiKey p
  /\ Cli.createClient env (snd (profiles_remove name (snd (profiles_use name st))))
     = Cli.createClient env (snd (profiles_use name st))
  /\ (Js.inherited name = false ->
      profiles_use name (snd (profiles_remove name (snd (profiles_use name st))))
      = (NotFoundError name,
         snd (profiles_remove name (snd (profiles_use name st)))))
  /\ (Js.inherited name = true ->
      profiles_use name (snd (profiles_remove name (snd (profiles_use name st))))
      = (Uncaught "TypeError",
         setActiveProfile name
           (snd (profiles_remove name (snd (profiles_use name st)))))).
Proof.
  rewrite (use_stored name st p Hp).
  set (st1 := setApiKey (p_apiKey p) (setActiveProfile name st)).
  assert (H1 : profiles (profilesConfig st1) !! name = Some p) by exact Hp.
  assert (Hact : String.eqb
                   (activeProfile
                      (profilesConfig
                         (setProfiles (delete name (profiles (profilesConfig st1)))
                            st1))) name = true).
  { simpl. apply String.eqb_refl. }
  unfold profiles_remove. rewrite (member_stored _ name p H1).
  cbv zeta. rewrite Hact. cbn [snd].
  split; [simpl; apply lookup_delete_eq|]. split; [reflexivity|].
  split; [now rewrite StoreFacts.getApiKey_no_override|].
  split; [reflexivity|].
  split; intros Hi; unfold profiles_use; simpl;
    now rewrite lookup_delete_eq, Hi.
Qed.

Lemma remove_active_keeps_its_key_witness :
  getApiKey no_env
    (snd (profiles_remove "prod"
            (snd (profiles_use "prod"
                    (setProfiles {[ "prod" := prod_profile ]} initial)))))
  = "cvt_prod".
Proof.
  apply (remove_active_keeps_its_key "prod"
           (setProfiles {[ "prod" := prod_profile ]} initial) no_env prod_profile).
  - vm_compute. reflexivity.
  - reflexivity.
Defined.

(** X9: [profiles remove] on a name that is neither stored nor inherited
    by every object ends with the not-found exit and changes nothing; on
    any name it leaves every other profile as it was, never touches the
    config store, and moves the active-profile pointer only when it
    pointed at the removed name.  On a name that is not stored but
    inherited, as [constructor], it reports the removal although the
    profiles are what they were. *)
Theorem remove_touches_only_the_named_profile (name : string) (st : State) :
  (has_member (profiles (profilesConfig st)) name = false ->
   profiles_remove name st = (NotFoundError name, st))
  /\ (forall other, other <> name ->
        profiles (profilesConfig (snd (profiles_remove name st))) !! other
        = profiles (profilesConfig st) !! other)
  /\ config (snd (profiles_remove name st)) = config st
  /\ (activeProfile (profilesConfig st) <> name ->
      activeProfile (profilesConfig (snd (profiles_remove name st)))
      = activeProfile (profilesConfig st))
  /\ (profiles (profilesConfig st) !! name = None ->
      Js.inherited name = true ->
      fst (profiles_remove name st)
      = Done ("Profile " +:+ dq +:+ name +:+ dq +:+ " removed")
      /\ profiles (profilesConfig (snd (profiles_remove name st)))
         = profiles (profilesConfig st)).
Proof.
  unfold profiles_remove.
  destruct (has_member (profiles (profilesConfig st)) name) eqn:Hm.
  - split; [discriminate|]. cbv zeta.
    assert (Hother : forall other, other <> name ->
              delete name (profiles (profilesConfig st)) !! other
              = profiles (profilesConfig st) !! other)
      by (intros other Hne; now apply lookup_delete_ne).
    destruct (String.eqb _ name) eqn:E; cbn [snd fst].
    + split; [exact Hother|]. split; [reflexivity|]. split.
      * simpl in E. apply String.eqb_eq in E. intros Hne. contradiction.
      * intros Hn _. split; [reflexivity|]. simpl. now apply delete_id.
    + split; [exact Hother|]. split; [reflexivity|]. split; [reflexivity|].
      intros Hn _. split; [reflexivity|]. simpl. now apply delete_id.
  - split; [reflexivity|]. split; [reflexivity|]. split; [reflexivity|].
    split; [reflexivity|].
    intros Hn Hi. rewrite (member_absent _ name Hn), Hi in Hm. discriminate.
Qed.

Lemma remove_touches_only_the_named_profile_witness :
  profiles_remove "staging" prod_state = (NotFoundError "staging", prod_state)
  /\ fst (profiles_remove "constructor" prod_state)
     = Done ("Profile " +:+ dq +:+ "constructor" +:+ dq +:+ " removed").
Proof.
  split.
  - apply (proj1 (remove_touches_only_the_named_profile "staging" prod_state)).
    vm_compute. reflexivity.
  - apply (proj2 (proj2 (proj2 (proj2
             (remove_touches_only_the_named_profile "constructor" prod_state))))).
    + vm_compute. reflexivity.
    + reflexivity.
Defined.

Lemma masked_includes_dots (k : string) : Text.includes (mask_key k) "..." = true.
Proof.
  unfold mask_key.
  change (Text.str_take 8 k +:+ "...")
    with (Text.str_take 8 k +:+ "..." +:+ "").
  apply TextFacts.includes_app.
Qed.

Lemma masked_not_importable (p : Profile) :
  importable (export_profile false p) = false.
Proof.
  unfold importable, export_profile. simpl.
  rewrite masked_includes_dots. apply andb_false_r.
Qed.

Lemma export_with_keys_is_id (st : State) :
  profiles_export true st = profiles (profilesConfig st).
Proof.
  unfold profiles_export. apply map_eq. intros i. rewrite lookup_fmap.
  destruct (profiles (profilesConfig st) !! i) as [[k d u t]|]; reflexivity.
Qed.

Lemma state_eta (st : State) : setProfiles (profiles (profilesConfig st)) st = st.
Proof. destruct st as [cfg [ps active]]. reflexivity. Qed.



(** X11: importing a masked export imports nothing.  Without [--merge]
    the command still replaces the profiles: the store ends with none,
    while the active-profile pointer and the config key stay as they
    were; with [--merge] the stores are unchanged. *)
Theorem import_of_masked_export_wipes (st : State) :
  profiles_import false (profiles_export false st) st = (0%nat, setProfiles ∅ st)
  /\ profiles_import true (profiles_export false st) st = (0%nat, st)
  /\ activeProfile (profilesConfig
                     (snd (profiles_import false (profiles_export false st) st)))
     = activeProfile (profilesConfig st)
  /\ (forall env,
        getApiKey env (snd (profiles_import false (profiles_export false st) st))
        = getApiKey env st).
Proof.
  assert (Hnone : filter (fun entry : string * Profile =>
                            importable (snd entry) = true)
                    (profiles_export false st) = ∅).
  { apply map_empty. intros i. apply map_lookup_filter_None_2.
    unfold profiles_export. rewrite lookup_fmap.
    destruct (profiles (profilesConfig st) !! i) as [p|]; [right|now left].
    intros x [= <-]. simpl. rewrite masked_not_importable. discriminate. }
  unfold profiles_import. rewrite Hnone, map_size_empty.
  rewrite !(left_id_L ∅ (∪)). rewrite state_eta. now repeat split.
Qed.



(** X13: [profiles add] on a name that is stored, or that every object
    inherits, with the overwrite question answered no changes nothing.
    Otherwise, for a name other than [__proto__], the profile is stored
    under the name with the [--key] value, or the prompted key when none
    was given, and every other profile is as before; answering yes to the
    switch question makes it the active profile and writes its key to the
    config field, answering no leaves both alone; in either case a later
    [profiles use] of the name makes [getApiKey] answer that key when no
    override is set.  Under the name [__proto__] nothing is stored. *)
Theorem add_stores_and_optionally_switches
    (name : string) (key description url : option string)
    (answers : AddAnswers) (st : State) :
  (has_member (profiles (profilesConfig st)) name = true ->
   overwrite answers = false ->
   profiles_add name key description url answers st = (Done "Cancelled.", st))
  /\ (has_member (profiles (profilesConfig st)) name = false
      \/ overwrite answers = true ->
      name <> "__proto__" ->
      exists p,
        profiles (profilesConfig
                    (snd (profiles_add name key description url answers st)))
          !! name = Some p
        /\ (forall k, key = Some k -> k <> "" -> p_apiKey p = k)
        /\ (key = None -> p_apiKey p = promptedKey answers)
        /\ (forall other, other <> name ->
              profiles (profilesConfig
                          (snd (profiles_add name key description url answers st)))
                !! other = profiles (profilesConfig st) !! other)
        /\ (switchTo answers = true ->
            activeProfile (profilesConfig
                             (snd (profiles_add name key description url
                                     answers st))) = name
            /\ apiKey (config (snd (profiles_add name key description url
                                      answers st))) = p_apiKey p)
        /\ (switchTo answers = false ->
            activeProfile (profilesConfig
                             (snd (profiles_add name key description url
                                     answers st)))
            = activeProfile (profilesConfig st)
            /\ config (snd (profiles_add name key description url answers st))
               = config st)
        /\ (forall env, env_override env = false ->
              getApiKey env
                (snd (profiles_use name
                        (snd (profiles_add name key description url answers st))))
              = p_apiKey p))
  /\ (profiles (profilesConfig st) !! "__proto__" = None ->
      profiles (profilesConfig
                  (snd (profiles_add "__proto__" key description url answers st)))
      = profiles (profilesConfig st)).
Proof.
  split; [|split].
  - intros Hsome Hno. unfold profiles_add. rewrite Hsome, Hno. reflexivity.
  - intros Hgo Hname. unfold profiles_add.
    assert (Hcond : has_member (profiles (profilesConfig st)) name
                    && negb (overwrite answers) = false).
    { destruct Hgo as [->| ->]; [reflexivity|apply andb_false_r]. }
    rewrite Hcond. unfold assign.
    apply String.eqb_neq in Hname. rewrite Hname. cbn [andb].
    eexists. destruct (switchTo answers) eqn:Hsw; simpl;
      (split; [apply lookup_insert_eq|]);
      (split; [intros k -> Hne; simpl; now rewrite CliFacts.non_empty_true|]);
      (split; [now intros ->|]);
      (split; [intros other Hne; now apply lookup_insert_ne|]);
      (split; [intros Hx; try discriminate; now split|]);
      (split; [intros Hx; try discriminate; now split|]);
      intros env Henv; unfold profiles_use; simpl;
      rewrite lookup_insert_eq; simpl;
      now rewrite StoreFacts.getApiKey_no_override.
  - intros Hn. unfold profiles_add.
    destruct (has_member _ _ && negb _); [reflexivity|].
    unfold assign. rewrite Hn.
    rewrite bool_decide_eq_false_2 by (intros [x Hx]; discriminate).
    cbn [String.eqb Ascii.eqb Bool.eqb andb negb].
    now destruct (switchTo answers).
Qed.

Lemma add_stores_and_optionally_switches_witness :
  profiles_add "constructor" (Some "cvt_other") None None
    {| overwrite := false; promptedKey := ""; switchTo := true; now := "" |}
    prod_state
  = (Done "Cancelled.", prod_state).
Proof.
  apply (proj1 (add_stores_and_optionally_switches "constructor"
                  (Some "cvt_other") None None
                  {| overwrite := false; promptedKey := ""; switchTo := true;
                     now := "" |} prod_state)).
  - reflexivity.
  - reflexivity.
Defined.

End ProfilesFacts.

(* ===================================================================== *)
(** ** Properties of [render], [export] and [batch-render] as commands *)
(* ===================================================================== *)

Module RenderCmdFacts.
Import Client Store RenderCmd.

Lemma truthy_opt_val (o : option string) : Js.truthy (opt_val o) = given o.
Proof. destruct o; reflexivity. Qed.

Lemma has_designId_render (c : CanveleteAPIClient) (o : RenderOptions) :
  body_has (render c o) "designId" = Js.truthy (Client.designId o).
Proof. rewrite ClientFacts.body_has_render. ClientFacts.case_fields o. Qed.

Lemma has_templateId_render (c : CanveleteAPIClient) (o : RenderOptions) :
  body_has (render c o) "templateId" = Js.truthy (Client.templateId o).
Proof. rewrite ClientFacts.body_has_render. ClientFacts.case_fields o. Qed.

Ltac case_async o :=
  unfold Api.renderAsync_data, set_if;
  destruct (Js.truthy (Client.designId o)), (Js.truthy (Client.templateId o)),
           (Js.truthy (Client.dynamicData o)); reflexivity.

Lemma has_designId_renderAsync (c : CanveleteAPIClient) (o : RenderOptions) :
  body_has (Api.renderAsync c o) "designId" = Js.truthy (Client.designId o).
Proof. rewrite ApiFacts.body_has_renderAsync. case_async o. Qed.

Lemma has_templateId_renderAsync (c : CanveleteAPIClient) (o : RenderOptions) :
  body_has (Api.renderAsync c o) "templateId" = Js.truthy (Client.templateId o).
Proof. rewrite ApiFacts.body_has_renderAsync. case_async o. Qed.

Lemma quality_renderAsync (c : CanveleteAPIClient) (o : RenderOptions) :
  body_get (Api.renderAsync c o) "quality" = Js.or (Client.quality o) (Js.Num 90).
Proof. rewrite ApiFacts.body_get_renderAsync. case_async o. Qed.

Lemma dynamicData_render (c : CanveleteAPIClient) (o : RenderOptions) :
  body_get (render c o) "dynamicData"
  = if Js.truthy (Client.dynamicData o) then dynamicData o else Js.Undefined.
Proof. rewrite ClientFacts.body_get_render. ClientFacts.case_fields o. Qed.

Lemma dynamicData_renderAsync (c : CanveleteAPIClient) (o : RenderOptions) :
  body_get (Api.renderAsync c o) "dynamicData"
  = if Js.truthy (Client.dynamicData o) then dynamicData o else Js.Undefined.
Proof. rewrite ApiFacts.body_get_renderAsync. case_async o. Qed.

(** What [prepare] issues when it issues a request. *)
Lemma prepare_issued (env : Env) (st : State) (a : Args) (i : Inputs) (f : Fetch) :
  prepare env st a i = inl f ->
  non_empty (getApiKey env st) = true
  /\ (given (design a) = true \/ given (template a) = true)
  /\ exists dynamicData,
      dynamic_data a i = inl dynamicData
      /\ f = (if async a
              then Api.renderAsync (Cli.createClient env st)
                     (renderOptions a i dynamicData)
              else render (Cli.createClient env st)
                     (renderOptions a i dynamicData)).
Proof.
  unfold prepare, Cli.requireAuth.
  destruct (non_empty (getApiKey env st)); [|discriminate].
  destruct (given (design a)) eqn:Hd, (given (template a)) eqn:Ht; simpl;
    try discriminate;
    (destruct (dynamic_data a i) as [dynamicData|exit]; [|discriminate]);
    (intros Hf; split; [reflexivity|]; split; [tauto|];
     exists dynamicData; split; [reflexivity|];
     destruct (async a); congruence).
Qed.

(** X14: [render] issues no request unless the command is authenticated
    and [--design] or [--template] is given: otherwise it exits with code
    1 first.  A request it issues carries the bearer key of
    [getApiKey] and a [designId] or a [templateId]. *)
Theorem render_validates_before_any_request
    (env : Env) (st : State) (a : Args) (i : Inputs) :
  (non_empty (getApiKey env st) = false ->
   prepare env st a i = inr (Exit 1 "Error: Not authenticated."))
  /\ (non_empty (getApiKey env st) = true ->
      given (design a) = false -> given (template a) = false ->
      prepare env st a i
      = inr (Exit 1 "Either --design or --template is required"))
  /\ (forall f, prepare env st a i = inl f ->
        (given (design a) = true \/ given (template a) = true)
        /\ (body_has f "designId" = true \/ body_has f "templateId" = true)
        /\ In ("Authorization", "Bearer " +:+ getApiKey env st) (f_headers f)).
Proof.
  split; [|split].
  - intros Hk. unfold prepare, Cli.requireAuth. now rewrite Hk.
  - intros Hk Hd Ht. unfold prepare, Cli.requireAuth. now rewrite Hk, Hd, Ht.
  - intros f Hf.
    destruct (prepare_issued env st a i f Hf) as (_ & Hgiven & v & _ & ->).
    split; [exact Hgiven|]. split.
    + destruct (async a).
      * rewrite has_designId_renderAsync, has_templateId_renderAsync.
        simpl. now rewrite !truthy_opt_val.
      * rewrite has_designId_render, has_templateId_render.
        simpl. now rewrite !truthy_opt_val.
    + destruct (async a); simpl; now left.
Qed.

Lemma render_validates_before_any_request_witness :
  prepare no_env prod_state
    {| design := None; template := None; format := "png"; quality := "90";
       width := None; height := None; data := None; dataFile := None;
       async := false |}
    {| dataFileJson := None; dataJson := None; qualityNumber := Js.Num 90;
       widthNumber := Js.Undefined; heightNumber := Js.Undefined |}
  = inr (Exit 1 "Either --design or --template is required").
Proof.
  apply (proj1 (proj2 (render_validates_before_any_request no_env prod_state
           {| design := None; template := None; format := "png"; quality := "90";
              width := None; height := None; data := None; dataFile := None;
              async := false |}
           {| dataFileJson := None; dataJson := None;
              qualityNumber := Js.Num 90; widthNumber := Js.Undefined;
              heightNumber := Js.Undefined |})));
    reflexivity.
Defined.

Lemma reads_cases (text : string) (v : Js.Val) :
  reads text v ->
  (exists z, Text.parseInt text = Text.Int z /\ v = Js.Num z)
  \/ (Text.parseInt text = Text.NotANumber /\ v = Js.NaN).
Proof.
  unfold reads. destruct (Text.parseInt text) as [z| |negative]; simpl;
    intros [= <-]; [left; now exists z|now right].
Qed.

(** X15: in a request [render] issues the quality is the number
    [parseInt] reads from [--quality] (an integer as the double it is
    rounded to), with 90 in place of 0 and of a text that is no number:
    it is never 0 or [NaN].  The dynamic data come from [--data-file]
    whenever that option is given, whatever [--data] holds.  [width] is
    sent only in the synchronous mode and only when [--width] is given
    and parses to a number other than 0; with [--async] it is never
    sent.  Options that [parseInt] reads as an infinity are left out. *)
Theorem render_request_fields
    (env : Env) (st : State) (a : Args) (i : Inputs) (f : Fetch)
    (Hf : prepare env st a i = inl f)
    (Hparsed : parsed_by a i) :
  body_get f "quality" = Js.or (qualityNumber i) (Js.Num 90)
  /\ Js.truthy (body_get f "quality") = true
  /\ (forall z, Text.parseInt (quality a) = Text.Int z ->
        body_get f "quality" = (if z =? 0 then Js.Num 90 else Js.Num z))
  /\ (Text.parseInt (quality a) = Text.NotANumber ->
        body_get f "quality" = Js.Num 90)
  /\ (given (dataFile a) = true ->
      exists v, dataFileJson i = Some v
                /\ body_get f "dynamicData"
                   = (if Js.truthy v then v else Js.Undefined))
  /\ body_has f "width"
     = negb (async a) && given (width a) && Js.truthy (widthNumber i)
  /\ body_has f "height"
     = negb (async a) && given (height a) && Js.truthy (heightNumber i)
  /\ (forall w z, width a = Some w -> Text.parseInt w = Text.Int z ->
        body_has f "width" = negb (async a) && non_empty w && negb (z =? 0)).
Proof.
  destruct (prepare_issued env st a i f Hf) as (_ & _ & v & Hv & ->).
  destruct Hparsed as (Hquality & Hwidth & _).
  assert (Hq : body_get (if async a
                         then Api.renderAsync (Cli.createClient env st)
                                (renderOptions a i v)
                         else render (Cli.createClient env st)
                                (renderOptions a i v))
                 "quality" = Js.or (qualityNumber i) (Js.Num 90)).
  { destruct (async a).
    - now rewrite quality_renderAsync.
    - now rewrite ClientFacts.render_quality. }
  assert (Hw : body_has (if async a
                         then Api.renderAsync (Cli.createClient env st)
                                (renderOptions a i v)
                         else render (Cli.createClient env st)
                                (renderOptions a i v)) "width"
               = negb (async a) && given (width a)
                 && Js.truthy (widthNumber i)).
  { destruct (async a); simpl negb.
    - apply ApiFacts.renderAsync_no_size.
    - rewrite ClientFacts.render_has_width. simpl. unfold parsed_if_given.
      now destruct (given (width a)). }
  split; [exact Hq|]. split; [|split; [|split; [|split; [|split; [|split]]]]].
  - rewrite Hq. unfold Js.or.
    destruct (Js.truthy (qualityNumber i)) eqn:E; [exact E|reflexivity].
  - intros z Hz. rewrite Hq.
    destruct (reads_cases _ _ Hquality) as [(z' & Hz' & ->)|[Hz' _]];
      [|congruence].
    assert (z' = z) by congruence. subst z'. unfold Js.or. simpl.
    now destruct (z =? 0).
  - intros Hn. rewrite Hq.
    destruct (reads_cases _ _ Hquality) as [(z' & Hz' & _)|[_ ->]];
      [congruence|reflexivity].
  - intros Hfile. unfold dynamic_data in Hv. rewrite Hfile in Hv.
    destruct (dataFileJson i) as [w|]; [|discriminate].
    injection Hv as <-. exists w. split; [reflexivity|].
    destruct (async a);
      [rewrite dynamicData_renderAsync|rewrite dynamicData_render];
      reflexivity.
  - exact Hw.
  - destruct (async a); simpl negb.
    + apply ApiFacts.renderAsync_no_size.
    + rewrite ClientFacts.render_has_height. simpl. unfold parsed_if_given.
      now destruct (given (height a)).
  - intros w z Ha Hz. rewrite Hw, Ha.
    destruct (reads_cases _ _ (Hwidth w Ha)) as [(z' & Hz' & ->)|[Hz' _]];
      [|congruence].
    assert (z' = z) by congruence. subst z'. reflexivity.
Qed.

Lemma render_request_fields_witness :
  match prepare no_env prod_state demo_args demo_inputs with
  | inl f => body_get f "quality" = Js.Num 90
             /\ body_has f "width" = false
  | inr _ => False
  end.
Proof.
  destruct (prepare no_env prod_state demo_args demo_inputs) as [f|o] eqn:E.
  - assert (Hparsed : parsed_by demo_args demo_inputs).
    { split; [reflexivity|]. split; intros x [= <-]; reflexivity. }
    destruct (render_request_fields no_env prod_state demo_args demo_inputs f E
                Hparsed) as (_ & _ & Hq & _ & _ & Hw & _).
    rewrite (Hq 0 eq_refl), Hw. split; reflexivity.
  - vm_compute in E. discriminate.
Defined.

(** X16: [export] lower-cases the format and issues a request only for
    [png], [jpg], [jpeg], [pdf] or [svg]: any other format makes it exit
    with code 1 first.  The request carries the lower-cased format and
    what [parseInt] gave for [--quality], with no check of its range: the
    server reads a number as it is, 0 included, and reads [null] where
    [parseInt] gave [NaN]. *)
Theorem export_validates_format
    (env : Env) (st : State) (designId format : string) (quality : Js.Val) :
  (forall f, export_prepare env st designId format quality = inl f ->
     In (Text.toLowerCase format) validFormats
     /\ f_body f = Some [("format", Js.Str (Text.toLowerCase format));
                         ("quality", Api.param_default quality (Js.Num 100))]
     /\ f_binary f = true
     /\ f_url f = Cli.getBaseUrl env st +:+ "/api/automation/designs/"
                  +:+ designId +:+ "/export"
     /\ Api.sent_get f "format" = Js.Str (Text.toLowerCase format)
     /\ (forall z, quality = Js.Num z -> Api.sent_get f "quality" = Js.Num z)
     /\ (quality = Js.NaN -> Api.sent_get f "quality" = Js.Null))
  /\ (non_empty (getApiKey env st) = true ->
      ~ In (Text.toLowerCase format) validFormats ->
      export_prepare env st designId format quality
      = inr (Exit 1 ("Invalid format: " +:+ Text.toLowerCase format))).
Proof.
  unfold export_prepare, Cli.requireAuth.
  assert (Hin : Text.list_includes validFormats (Text.toLowerCase format) = true
                <-> In (Text.toLowerCase format) validFormats).
  { unfold Text.list_includes. rewrite existsb_exists. split.
    - intros (x & Hx & E). apply String.eqb_eq in E. now subst.
    - intros H. exists (Text.toLowerCase format). split; [exact H|].
      apply String.eqb_refl. }
  split.
  - intros f. destruct (non_empty (getApiKey env st)); [|discriminate].
    destruct (Text.list_includes validFormats (Text.toLowerCase format)) eqn:E;
      simpl; [|discriminate].
    intros [= <-]. split; [now apply Hin|].
    split; [reflexivity|]. split; [reflexivity|]. split; [reflexivity|].
    split; [reflexivity|].
    split; [intros z ->; reflexivity|intros ->; reflexivity].
  - intros Hk Hnot. rewrite Hk.
    destruct (Text.list_includes validFormats (Text.toLowerCase format)) eqn:E;
      [|reflexivity].
    exfalso. apply Hnot. now apply Hin.
Qed.

Lemma export_validates_format_witness :
  export_prepare no_env prod_state "design-1" "GIF" (Js.Num 100)
  = inr (Exit 1 ("Invalid format: " +:+ Text.toLowerCase "GIF")).
Proof.
  apply (proj2 (export_validates_format no_env prod_state "design-1" "GIF"
                  (Js.Num 100))).
  - reflexivity.
  - vm_compute. intros H. repeat (destruct H as [H|H]; [discriminate|]).
    exact H.
Defined.

Section BatchFacts.

Variable c : CanveleteAPIClient.
Variable outputDir : string.
Variable render_answer : nat -> Fetched.
Variable write_ok : nat -> string -> bool.

Local Abbreviation entries := (batch_entries c outputDir render_answer write_ok).
Local Abbreviation bloop :=
  (Renders.batch_loop c outputDir render_answer write_ok).

Lemma batch_entries_objects (configs : list (list (string * Js.Val)))
    (rest : list Js.Val) (i : nat) (run : Renders.BatchRun) :
  entries i (map Js.Obj configs ++ rest) run
  = entries (i + length configs) rest (bloop i configs run).
Proof.
  revert i run. induction configs as [|config configs IH]; intros i run.
  - simpl. now rewrite Nat.add_0_r.
  - simpl. rewrite IH. f_equal. lia.
Qed.

End BatchFacts.





(** C7 (the code's slip): a batch file whose second of three entries is
    [null] passes the array test; the first entry is attempted, then the
    entry read outside the [try] block throws and the command ends on the
    uncaught error: the third entry is never attempted and no summary is
    printed, where the claim has every entry attempted and counted. *)
Theorem batch_null_entry_aborts
    (c : CanveleteAPIClient) (outputDir : string)
    (render_answer : nat -> Fetched) (write_ok : nat -> string -> bool) :
  exists run : Renders.BatchRun,
    batch_command c outputDir render_answer write_ok
      (Some (Js.Arr [Js.Obj [("designId", Js.Str "d1")]; Js.Null;
                     Js.Obj [("designId", Js.Str "d2")]]))
    = Uncaught run
    /\ Renders.attempts run
       = [render c (Renders.item_options [("designId", Js.Str "d1")])]
    /\ (Renders.completed run + Renders.failed run = 1)%nat
    /\ (forall summary : Renders.BatchRun,
          batch_command c outputDir render_answer write_ok
            (Some (Js.Arr [Js.Obj [("designId", Js.Str "d1")]; Js.Null;
                           Js.Obj [("designId", Js.Str "d2")]]))
          <> Summary summary).
Proof.
  eexists. split; [reflexivity|].
  unfold Renders.batch_item.
  destruct (Renders.try_item c outputDir render_answer write_ok 0
              [("designId", Js.Str "d1")]);
    (split; [reflexivity|]); (split; [reflexivity|]);
    intros summary; discriminate.
Qed.

End RenderCmdFacts.

(* ===================================================================== *)
(** ** More properties of [renders status --wait] *)
(* ===================================================================== *)

Module WaitFacts.
Import Client Renders.

(** X19: with a [--timeout] that [parseInt] reads as no number, or as a
    number that is not positive, the wait loop issues no poll at all and
    the command leaves at once with the timeout exit. *)
Theorem wait_without_time_polls_nothing
    (c : CanveleteAPIClient) (jobId : string) (server : nat -> Poll)
    (text : string) (parsed : Js.Val)
    (Hread : Text.val (Text.parseInt text) = Some parsed)
    (Hnone : Text.parseInt text = Text.NotANumber
             \/ (exists s, Text.parseInt text = Text.Int s /\ s <= 0)) :
  renders_status_wait c jobId server parsed
  = {| outcome := TimedOut; observed := []; sleeps := 0 |}
  /\ exit_code (outcome (renders_status_wait c jobId server parsed)) = 1.
Proof.
  assert (H : renders_status_wait c jobId server parsed
              = {| outcome := TimedOut; observed := []; sleeps := 0 |}).
  { destruct Hnone as [Hn|(s & Hn & Hs)]; rewrite Hn in Hread;
      simpl in Hread; injection Hread as <-; [reflexivity|].
    unfold renders_status_wait, wait, fuel_for. simpl timeout_ms.
    destruct (Z.to_nat (s * 1000 / pollInterval) + 2)%nat as [|fuel] eqn:F;
      [lia|].
    cbn [wait_loop lt_timeout].
    assert (E : (0 <? s * 1000) = false) by (apply Z.ltb_ge; lia).
    now rewrite E. }
  rewrite H. split; reflexivity.
Qed.

Lemma wait_without_time_polls_nothing_witness :
  renders_status_wait demo_client "job-1" finishing_server Js.NaN
  = {| outcome := TimedOut; observed := []; sleeps := 0 |}
  /\ renders_status_wait demo_client "job-1" finishing_server (Js.Num (-5))
     = {| outcome := TimedOut; observed := []; sleeps := 0 |}.
Proof.
  split.
  - apply (wait_without_time_polls_nothing demo_client "job-1" finishing_server
             "soon" Js.NaN); [reflexivity|left; reflexivity].
  - apply (wait_without_time_polls_nothing demo_client "job-1" finishing_server
             "-5s" (Js.Num (-5))); [reflexivity|].
    right. exists (-5). split; [reflexivity|lia].
Defined.



End WaitFacts.

(* ===================================================================== *)
(** ** More properties of strings and paths *)
(* ===================================================================== *)

Module ReplaceFacts.
Import Path.

Lemma of_chars_chars (s : string) : of_chars (chars s) = s.
Proof. apply string_of_list_ascii_of_string. Qed.

Lemma of_chars_app (a b : list ascii) :
  of_chars (a ++ b) = of_chars a +:+ of_chars b.
Proof. induction a as [|x a IH]; simpl; [reflexivity|]. now rewrite IH. Qed.

Lemma starts_with_other (p0 a : ascii) (pattern l : list ascii) :
  a <> p0 -> starts_with (p0 :: pattern) (a :: l) = false.
Proof.
  intros Hne. cbn [starts_with].
  destruct (Ascii.eqb p0 a) eqn:E; [|reflexivity].
  apply Ascii.eqb_eq in E. now subst.
Qed.

(** The search for the pattern passes over characters that are not its
    first one. *)
Lemma replace_chars_skip (p0 : ascii) (pattern replacement pre l : list ascii) :
  p0 ∉ pre ->
  replace_chars (p0 :: pattern) replacement (pre ++ l)
  = pre ++ replace_chars (p0 :: pattern) replacement l.
Proof.
  induction pre as [|a pre IH]; intros Hfree; [reflexivity|].
  apply not_elem_of_cons in Hfree. destruct Hfree as [Hne Hfree].
  change ((a :: pre) ++ l) with (a :: (pre ++ l)).
  cbn [replace_chars]. rewrite starts_with_other by congruence.
  now rewrite IH.
Qed.

Lemma replace_chars_free (p0 : ascii) (pattern replacement l : list ascii) :
  p0 ∉ l -> replace_chars (p0 :: pattern) replacement l = l.
Proof.
  intros Hfree.
  rewrite <- (app_nil_r l) at 1. rewrite replace_chars_skip by exact Hfree.
  simpl. apply app_nil_r.
Qed.

Lemma timestamp_absent (replacement pre post : list ascii) :
  "{"%char ∉ pre -> "{"%char ∉ post ->
  replace_chars (chars "{{timestamp}}") replacement
    (pre ++ chars "{{count}}" ++ post)
  = pre ++ chars "{{count}}" ++ post.
Proof.
  intros Hpre Hpost.
  change (chars "{{timestamp}}") with ("{"%char :: chars "{timestamp}}").
  rewrite replace_chars_skip by exact Hpre. f_equal.
  change (chars "{{count}}" ++ post)
    with ("{"%char :: "{"%char :: "c"%char :: "o"%char :: "u"%char
          :: "n"%char :: "t"%char :: "}"%char :: "}"%char :: post).
  cbn [replace_chars starts_with chars list_ascii_of_string].
  cbv [Ascii.eqb Bool.eqb andb].
  now rewrite (replace_chars_free "{"%char) by exact Hpost.
Qed.

Lemma count_replaced (replacement pre post : list ascii) :
  "{"%char ∉ pre ->
  replace_chars (chars "{{count}}") replacement
    (pre ++ chars "{{count}}" ++ post)
  = pre ++ replacement ++ post.
Proof.
  intros Hpre.
  change (chars "{{count}}") with ("{"%char :: chars "{count}}") at 1.
  rewrite replace_chars_skip by exact Hpre. reflexivity.
Qed.

Lemma json_replaced (replacement stem : list ascii) :
  "."%char ∉ stem ->
  replace_chars (chars ".json") replacement (stem ++ chars ".json")
  = stem ++ replacement.
Proof.
  intros Hstem.
  change (chars ".json") with ("."%char :: chars "json") at 1.
  rewrite replace_chars_skip by exact Hstem. f_equal.
  cbn. apply app_nil_r.
Qed.

Lemma is_slash_other (a : ascii) : a <> "/"%char -> is_slash a = false.
Proof. intros H. unfold is_slash. now apply Ascii.eqb_neq. Qed.

Lemma until_slash_app (l rest : list ascii) :
  "/"%char ∉ l -> until_slash (l ++ "/"%char :: rest) = l.
Proof.
  induction l as [|a l IH]; intros Hfree; [reflexivity|].
  apply not_elem_of_cons in Hfree. destruct Hfree as [Hne Hfree].
  simpl. rewrite is_slash_other by congruence. now rewrite IH.
Qed.

Lemma until_slash_free (l : list ascii) :
  "/"%char ∉ l -> until_slash l = l.
Proof.
  induction l as [|a l IH]; intros Hfree; [reflexivity|].
  apply not_elem_of_cons in Hfree. destruct Hfree as [Hne Hfree].
  simpl. rewrite is_slash_other by congruence. now rewrite IH.
Qed.

Lemma drop_slashes_head (l more : list ascii) :
  "/"%char ∉ l -> l <> [] -> drop_slashes (l ++ more) = l ++ more.
Proof.
  destruct l as [|a l]; intros Hfree Hne; [contradiction|].
  apply not_elem_of_cons in Hfree. destruct Hfree as [Ha _].
  simpl. now rewrite is_slash_other by congruence.
Qed.

Lemma no_slash_chars (l : list ascii) :
  existsb is_slash l = false -> "/"%char ∉ l.
Proof.
  intros H Hin. apply list_elem_of_In in Hin.
  assert (E : existsb is_slash l = true)
    by (apply existsb_exists; now exists "/"%char).
  congruence.
Qed.

Lemma chars_no_slash (l : list ascii) :
  "/"%char ∉ l -> existsb is_slash l = false.
Proof.
  induction l as [|a l IH]; intros H; [reflexivity|].
  apply not_elem_of_cons in H. destruct H as [Ha H].
  simpl. rewrite is_slash_other by congruence. now apply IH.
Qed.

Lemma dir_prefix_shape (dir : string) :
  dir_prefix dir = "" \/ exists q, dir_prefix dir = q +:+ "/".
Proof.
  unfold dir_prefix.
  destruct (kept_segments (negb (first_is_slash dir)) dir) as [|seg segs].
  - destruct (first_is_slash dir); [right; now exists ""|now left].
  - right. eexists. symmetry. apply PathFacts.append_chain.
Qed.

(** The base name of a directory joined with a plain file name is the
    file name. *)
Lemma basename_join (dir name : string) :
  plain name = true -> basename (path_join dir name) = name.
Proof.
  intros Hp. rewrite PathFacts.path_join_plain by exact Hp.
  destruct (PathFacts.plain_parts name Hp) as (Hne & _ & _ & _ & Hs).
  assert (Hfree : "/"%char ∉ chars name) by now apply no_slash_chars.
  assert (Hrev : "/"%char ∉ rev (chars name)).
  { intros H. apply Hfree. apply list_elem_of_In, in_rev.
    now apply list_elem_of_In. }
  assert (Hnil : rev (chars name) <> []).
  { intros E. apply (f_equal (@rev ascii)) in E.
    rewrite rev_involutive in E. simpl in E.
    apply Hne. rewrite <- (of_chars_chars name). now rewrite E. }
  unfold basename.
  destruct (dir_prefix_shape dir) as [->|[q ->]].
  - change ("" +:+ name) with name.
    rewrite <- (app_nil_r (rev (chars name))).
    rewrite drop_slashes_head by assumption. rewrite app_nil_r.
    rewrite until_slash_free by assumption.
    rewrite rev_involutive. apply of_chars_chars.
  - rewrite !PathFacts.chars_app.
    change (chars "/") with ["/"%char].
    rewrite !rev_app_distr.
    change (rev ["/"%char] ++ rev (chars q)) with ("/"%char :: rev (chars q)).
    rewrite drop_slashes_head by assumption.
    rewrite until_slash_app by assumption.
    rewrite rev_involutive. apply of_chars_chars.
Qed.

(** A name [stem.json] is plain when the stem holds no slash. *)
Lemma plain_json (stem : string) :
  "/"%char ∉ chars stem -> plain (stem +:+ ".json") = true.
Proof.
  intros Hs. unfold plain.
  assert (Hlen : forall other, (String.length other < 5)%nat ->
                               String.eqb (stem +:+ ".json") other = false).
  { intros other Hlt. destruct (String.eqb _ other) eqn:E; [|reflexivity].
    apply String.eqb_eq in E. apply (f_equal String.length) in E.
    rewrite TextFacts.length_append in E. simpl in E. lia. }
  rewrite !Hlen by (simpl; lia). cbn [negb andb].
  rewrite PathFacts.chars_app, existsb_app, (chars_no_slash _ Hs).
  reflexivity.
Qed.

End ReplaceFacts.

(* ===================================================================== *)
(** ** More properties of [watch] *)
(* ===================================================================== *)

Module WatchRunFacts.
Import Client Watch WatchOut.

Section RunFacts.

Variable c : CanveleteAPIClient.
Variable options : Options.

(** A property of what [render] leaves behind that its two halves keep
    is kept by every run. *)
Lemma run_keeps (P : Session -> Prop) (Q : Input -> Prop) :
  (forall t s, P s -> P (render_begin c options t s)) ->
  (forall k answer write_ok s,
      Q (Settle k answer write_ok) -> P s ->
      P (render_settle k answer write_ok s)) ->
  (forall s s',
      inflight s' = inflight s -> fired s' = fired s -> saved s' = saved s ->
      failures s' = failures s -> renderCount s' = renderCount s ->
      P s -> P s') ->
  forall inputs s,
    Forall (fun i => Q (snd i)) inputs -> P s -> P (run c options inputs s).
Proof.
  intros Hbegin Hsettle Hframe.
  assert (Hadv : forall t s, P s -> P (advance c options t s)).
  { intros t s HP. unfold advance.
    assert (H0 : P (at_time t (filter (fun tm => is_due t tm = false) (timers s)) s))
      by (eapply Hframe; [..|exact HP]; reflexivity).
    revert H0. generalize (at_time t (filter (fun tm => is_due t tm = false) (timers s)) s).
    induction (filter (fun tm => is_due t tm = true) (timers s)) as [|tm due IH];
      intros s0 H0; [exact H0|].
    simpl. apply IH. now apply Hbegin. }
  induction inputs as [|[dt i] inputs IH]; intros s HQ HP; [exact HP|].
  apply Forall_cons in HQ. destruct HQ as [Hq HQ].
  simpl. apply IH; [exact HQ|].
  unfold step. simpl snd. simpl fst.
  specialize (Hadv (now s + Z.of_N dt) s HP).
  destruct i as [eventType content|k answer write_ok|]; simpl.
  - unfold on_fs_event. destruct (String.eqb eventType "change");
      (eapply Hframe; [..|exact Hadv]; reflexivity).
  - now apply Hsettle.
  - exact Hadv.
Qed.

Lemma accounted_begin (t : Z) (s : Session) :
  accounted s -> accounted (render_begin c options t s).
Proof.
  unfold accounted, render_begin. intros H.
  destruct (parsed (file s)); simpl; rewrite ?length_app; simpl; lia.
Qed.

Lemma accounted_settle (k : nat) (answer : Fetched) (write_ok : bool)
    (s : Session) :
  accounted s -> accounted (render_settle k answer write_ok s).
Proof.
  unfold accounted, render_settle. intros H.
  destruct (inflight s !! k) as [call|] eqn:Hk; [|exact H].
  pose proof (length_delete (inflight s) k ltac:(eauto)) as Hd.
  pose proof (lookup_lt_Some _ _ _ Hk) as Hlt.
  destruct (await_request (request call) answer); [destruct write_ok|];
    simpl; rewrite ?length_app; simpl; lia.
Qed.

Lemma counts_begin (t : Z) (s : Session) :
  saved (render_begin c options t s) = saved s
  /\ renderCount (render_begin c options t s) = renderCount s.
Proof. unfold render_begin. now destruct (parsed (file s)). Qed.

Lemma counts_sublist_settle (k : nat) (answer : Fetched) (write_ok : bool)
    (s : Session) :
  saved_counts s `sublist_of` seq 1 (renderCount s) ->
  saved_counts (render_settle k answer write_ok s)
    `sublist_of` seq 1 (renderCount (render_settle k answer write_ok s)).
Proof.
  unfold saved_counts, render_settle. intros H.
  destruct (inflight s !! k) as [call|]; [|exact H].
  destruct (await_request (request call) answer); [|exact H].
  cbn [saved renderCount]. rewrite seq_S.
  destruct write_ok.
  - rewrite map_app. apply sublist_app; [exact H|]. reflexivity.
  - now apply sublist_inserts_r.
Qed.

Lemma counts_all_settle (k : nat) (answer : Fetched) (s : Session) :
  saved_counts s = seq 1 (renderCount s) ->
  saved_counts (render_settle k answer true s)
  = seq 1 (renderCount (render_settle k answer true s)).
Proof.
  unfold saved_counts, render_settle. intros H.
  destruct (inflight s !! k) as [call|]; [|exact H].
  destruct (await_request (request call) answer); [|exact H].
  cbn [saved renderCount]. rewrite seq_S, map_app, H. reflexivity.
Qed.

Lemma start_cases (content : FileContent) (answer : Fetched) (write_ok : bool) :
  fired (start c options content answer write_ok) = [(0, content)]
  /\ timers (start c options content answer write_ok) = []
  /\ inflight (start c options content answer write_ok) = []
  /\ accounted (start c options content answer write_ok)
  /\ saved_counts (start c options content answer write_ok)
     `sublist_of` seq 1 (renderCount (start c options content answer write_ok))
  /\ (write_ok = true ->
      saved_counts (start c options content answer write_ok)
      = seq 1 (renderCount (start c options content answer write_ok))).
Proof.
  unfold start, render_begin, render_settle, accounted, saved_counts, idle.
  cbn [file parsed]. destruct (parsed content) as [data|]; cbn.
  - destruct (await_request _ answer); [destruct write_ok|]; cbn;
      repeat split; try reflexivity; try discriminate;
      try (constructor; constructor).
  - repeat split; constructor.
Qed.

End RunFacts.

(** X21: in every session of [watch], whatever the events, the answers
    and the outcome of the writes, each call of [render] so far is
    accounted for exactly once: it is still awaiting its response, or it
    wrote its file, or it logged a failure. *)
Theorem every_render_accounted
    (c : CanveleteAPIClient) (options : Options) (content : FileContent)
    (answer : Fetched) (write_ok : bool) (inputs : list (N * Input)) :
  accounted (run c options inputs (start c options content answer write_ok)).
Proof.
  apply (run_keeps c options accounted (fun _ => True)).
  - apply accounted_begin.
  - intros k a w s _. apply accounted_settle.
  - unfold accounted. intros s s' -> -> -> -> _. trivial.
  - apply Forall_forall. trivial.
  - apply start_cases.
Qed.

(** X22: the value substituted for [{{count}}] is the counter
    incremented at each good response, before the write: the counts of
    the files written are among 1 .. [renderCount], in increasing order
    and none twice (a render whose write fails uses up its count). *)
Theorem saved_counts_increase
    (c : CanveleteAPIClient) (options : Options) (content : FileContent)
    (answer : Fetched) (write_ok : bool) (inputs : list (N * Input)) :
  saved_counts (run c options inputs (start c options content answer write_ok))
    `sublist_of`
    seq 1 (renderCount (run c options inputs
                          (start c options content answer write_ok))).
Proof.
  apply (run_keeps c options
           (fun s => saved_counts s `sublist_of` seq 1 (renderCount s))
           (fun _ => True)).
  - intros t s H. unfold saved_counts.
    destruct (counts_begin c options t s) as [-> ->]. exact H.
  - intros k a w s _. apply counts_sublist_settle.
  - unfold saved_counts. intros s s' _ _ -> _ ->. trivial.
  - apply Forall_forall. trivial.
  - apply start_cases.
Qed.

Lemma output_path_count (pre post : string) (format : Js.Val) (t1 t2 : Z)
    (count : nat) :
  "{"%char ∉ Path.chars pre -> "{"%char ∉ Path.chars post ->
  output_path (Some (pre +:+ "{{count}}" +:+ post)) format t1 t2 count
  = pre +:+ pretty count +:+ post.
Proof.
  intros Hpre Hpost. unfold output_path.
  assert (Hne : Store.non_empty (pre +:+ "{{count}}" +:+ post) = true).
  { destruct pre; reflexivity. }
  rewrite Hne. unfold Path.replace.
  rewrite !PathFacts.chars_app.
  rewrite ReplaceFacts.timestamp_absent by assumption.
  rewrite PathFacts.chars_of_chars.
  rewrite ReplaceFacts.count_replaced by assumption.
  rewrite !ReplaceFacts.of_chars_app, !ReplaceFacts.of_chars_chars.
  reflexivity.
Qed.

(** X23: with an [--output] of the form [pre{{count}}post], where
    neither part holds a brace, and writes that succeed, the files
    written in a session are [pre1post], [pre2post], ... in this order,
    one for each good response. *)
Theorem count_placeholder_numbers_files
    (c : CanveleteAPIClient) (options : Options) (content : FileContent)
    (answer : Fetched) (inputs : list (N * Input))
    (pre post : string) (format : Js.Val)
    (Hwrites : writes_succeed inputs)
    (Hpre : "{"%char ∉ Path.chars pre)
    (Hpost : "{"%char ∉ Path.chars post) :
  saved_paths (Some (pre +:+ "{{count}}" +:+ post)) format
    (run c options inputs (start c options content answer true))
  = map (fun k : nat => pre +:+ pretty k +:+ post)
      (seq 1 (renderCount (run c options inputs
                             (start c options content answer true)))).
Proof.
  assert (Hall : saved_counts (run c options inputs
                                 (start c options content answer true))
                 = seq 1 (renderCount (run c options inputs
                                         (start c options content answer true)))).
  { apply (run_keeps c options
             (fun s => saved_counts s = seq 1 (renderCount s))
             (fun i => match i with Settle _ _ false => False | _ => True end)).
    - intros t s H. unfold saved_counts.
      destruct (counts_begin c options t s) as [-> ->]. exact H.
    - intros k a w s Hq. destruct w; [|contradiction].
      apply counts_all_settle.
    - unfold saved_counts. intros s s' _ _ -> _ ->. trivial.
    - exact Hwrites.
    - now apply start_cases. }
  rewrite <- Hall. unfold saved_paths, saved_counts. rewrite map_map.
  apply map_ext. intros e. now apply output_path_count.
Qed.

Lemma count_placeholder_numbers_files_witness :
  saved_paths (Some ("out_" +:+ "{{count}}" +:+ ".png")) (Js.Str "png")
    (run demo_client watch_options numbered_inputs
       (start demo_client watch_options (data_v 0) png_response true))
  = map (fun k : nat => "out_" +:+ pretty k +:+ ".png")
      (seq 1 (renderCount
                (run demo_client watch_options numbered_inputs
                   (start demo_client watch_options (data_v 0)
                      png_response true)))).
Proof.
  apply (count_placeholder_numbers_files demo_client watch_options (data_v 0)
           png_response numbered_inputs "out_" ".png" (Js.Str "png")).
  - repeat constructor.
  - intros H.
    repeat (apply elem_of_cons in H; destruct H as [H|H]; [discriminate|]).
    now apply elem_of_nil in H.
  - intros H.
    repeat (apply elem_of_cons in H; destruct H as [H|H]; [discriminate|]).
    now apply elem_of_nil in H.
Defined.

End WatchRunFacts.

(* ===================================================================== *)
(** ** More properties of [watch-dir] *)
(* ===================================================================== *)

Module WatchDirRunFacts.
Import Client WatchDir.

Section RunFacts.

Variable c : CanveleteAPIClient.
Variable options : Options.
Variable directory : string.

(** What holds of the deletions throughout a session. *)
Local Abbreviation careful := (fun s : Session =>
  (length (deleted s) <= length (outputs s))%nat
  /\ (deleteAfter options = false -> deleted s = [])
  /\ (forall p, p ∈ deleted s -> p ∈ snd <$> processed s)
  /\ (forall call, call ∈ inflight s -> path call ∈ snd <$> processed s)).

Lemma careful_begin (origin : Origin) (filePath : string)
    (data : option Js.Val) (s : Session) :
  careful s -> careful (processFile_begin c options origin filePath data s).
Proof.
  intros (Hlen & Hoff & Hdel & Hfly). unfold processFile_begin.
  destruct (decide (filePath ∈ processedFiles s)); [now repeat split|].
  destruct (negb (Path.endsWith (Path.basename filePath) ".json"));
    [now repeat split|].
  destruct data; cbn [deleted outputs processed inflight];
    (split; [exact Hlen|]); (split; [exact Hoff|]); split.
  - intros p Hp. rewrite fmap_app. apply elem_of_app. left. now apply Hdel.
  - intros call Hc. rewrite fmap_app. apply elem_of_app.
    apply elem_of_app in Hc. destruct Hc as [Hc|Hc]; [left; now apply Hfly|].
    right. apply list_elem_of_singleton in Hc. subst call. cbn.
    apply list_elem_of_singleton. reflexivity.
  - intros p Hp. rewrite fmap_app. apply elem_of_app. left. now apply Hdel.
  - intros call Hc. rewrite fmap_app. apply elem_of_app. left. now apply Hfly.
Qed.

Lemma careful_settle (k : nat) (answer : Fetched) (write_ok : bool)
    (s : Session) :
  careful s -> careful (processFile_settle options k answer write_ok s).
Proof.
  intros (Hlen & Hoff & Hdel & Hfly). unfold processFile_settle.
  destruct (inflight s !! k) as [call|] eqn:Hk; [|now repeat split].
  assert (Hcall : path call ∈ snd <$> processed s).
  { apply Hfly. eapply list_elem_of_lookup_2. exact Hk. }
  assert (Hrest : forall call', call' ∈ delete k (inflight s) ->
                                path call' ∈ snd <$> processed s).
  { intros call' H. apply Hfly. eapply list_elem_of_delete_inv. exact H. }
  destruct (await_request (request call) answer); [destruct write_ok|];
    cbn [deleted outputs processed inflight]; try now repeat split.
  destruct (deleteAfter options) eqn:Hda.
  - split; [rewrite !length_app; simpl; lia|].
    split; [discriminate|]. split; [|exact Hrest].
    intros p Hp. apply elem_of_app in Hp. destruct Hp as [Hp|Hp];
      [now apply Hdel|].
    apply list_elem_of_singleton in Hp. now subst p.
  - split; [rewrite length_app; simpl; lia|]. now repeat split.
Qed.

Lemma careful_existing (files : list string) (env : nat -> Attempt) (i : nat)
    (s : Session) :
  careful s -> careful (process_existing c options i files env s).
Proof.
  revert i s. induction files as [|file files IH]; intros i s H; [exact H|].
  simpl. apply IH. unfold processFile_awaited.
  destruct (decide _); [now apply careful_begin|].
  apply careful_settle. now apply careful_begin.
Qed.

Lemma careful_step (s : Session) (i : Input) :
  careful s -> careful (step c options directory s i).
Proof.
  intros H. destruct i as [eventType filename present|data|k answer write_ok];
    cbn [step].
  - unfold on_dir_event. destruct filename as [name|]; [|exact H].
    destruct (Js.truthy (Js.Str name) && Path.endsWith name ".json" && present);
      exact H.
  - unfold on_timeout. destruct (timers s) as [|filePath later]; [exact H|].
    apply careful_begin. exact H.
  - now apply careful_settle.
Qed.

Lemma careful_run (inputs : list Input) (s : Session) :
  careful s -> careful (fold_left (step c options directory) inputs s).
Proof.
  revert s. induction inputs as [|i inputs IH]; intros s H; [exact H|].
  simpl. apply IH. now apply careful_step.
Qed.

End RunFacts.

(** X25: in every session of [watch-dir], whatever the directory holds,
    the events and the answers: without [--delete-after] no file is ever
    deleted; with it, a file is deleted only after an output was written
    for it (there are never more deletions than outputs), and only a
    path that went through [processFile]. *)
Theorem delete_after_only_after_output
    (c : CanveleteAPIClient) (options : Options) (directory : string)
    (listing : list string) (env : nat -> Attempt) (inputs : list Input) :
  (deleteAfter options = false ->
   deleted (watch_dir c options directory listing env inputs) = [])
  /\ (length (deleted (watch_dir c options directory listing env inputs))
      <= length (outputs (watch_dir c options directory listing env inputs)))%nat
  /\ (forall p,
        p ∈ deleted (watch_dir c options directory listing env inputs) ->
        p ∈ snd <$> processed (watch_dir c options directory listing env inputs)).
Proof.
  destruct (careful_run c options directory inputs
              (startup c options directory listing env))
    as (Hlen & Hoff & Hdel & _).
  - apply careful_existing. cbn.
    split; [lia|]. split; [reflexivity|].
    split; intros x Hx; now apply elem_of_nil in Hx.
  - unfold watch_dir. now repeat split.
Qed.

Lemma delete_after_only_after_output_witness :
  deleted (watch_dir demo_client dir_options "queue" queue_listing
             (fun _ => good_attempt) queue_inputs) = [].
Proof.
  apply (proj1 (delete_after_only_after_output demo_client dir_options "queue"
                  queue_listing (fun _ => good_attempt) queue_inputs)).
  reflexivity.
Defined.

(** X26: the output of a processed file [stem.json] of the watched
    directory, for a [stem] with no dot and no slash, is
    [stem.<format>] in the output directory: when its render is
    answered and the write succeeds, that path is the one written.  The
    format is taken free of [$], which [String.prototype.replace] would
    read as a pattern of the replacement. *)
Theorem output_named_after_input
    (c : CanveleteAPIClient) (options : Options) (directory stem : string)
    (k : nat) (answer : Fetched) (s : Session) (call : InFlight)
    (Hslash : "/"%char ∉ Path.chars stem)
    (Hdot : "."%char ∉ Path.chars stem)
    (Hformat : "$"%char ∉ Path.chars (Js.show (format options)))
    (Hcall : inflight s !! k = Some call)
    (Hpath : path call = Path.path_join directory (stem +:+ ".json"))
    (Hanswer : exists payload,
        await_request (request call) answer = Ok payload) :
  outputs (processFile_settle options k answer true s)
  = outputs s
    ++ [Path.path_join (outputDir options)
          (stem +:+ "." +:+ Js.show (format options))].
Proof.
  destruct Hanswer as [payload Hok].
  unfold processFile_settle. rewrite Hcall, Hok, Hpath. cbn [outputs].
  rewrite ReplaceFacts.basename_join
    by (apply ReplaceFacts.plain_json; exact Hslash).
  unfold Path.replace. rewrite (PathFacts.chars_app stem ".json").
  rewrite ReplaceFacts.json_replaced by exact Hdot.
  rewrite ReplaceFacts.of_chars_app, !ReplaceFacts.of_chars_chars.
  reflexivity.
Qed.

Lemma output_named_after_input_witness :
  outputs (processFile_settle dir_options 0 (WatchDir.answer good_attempt) true
             WatchDirOut.one_in_flight)
  = outputs WatchDirOut.one_in_flight
    ++ [Path.path_join (outputDir dir_options)
          ("a" +:+ "." +:+ Js.show (format dir_options))].
Proof.
  apply (output_named_after_input demo_client dir_options "queue" "a" 0
           (WatchDir.answer good_attempt) WatchDirOut.one_in_flight
           {| path := "queue/a.json";
              request := render_request demo_client dir_options
                           (Js.Obj [("name", Js.Str "x")]) |}).
  - intros H.
    repeat (apply elem_of_cons in H; destruct H as [H|H]; [discriminate|]).
    now apply elem_of_nil in H.
  - intros H.
    repeat (apply elem_of_cons in H; destruct H as [H|H]; [discriminate|]).
    now apply elem_of_nil in H.
  - intros H.
    repeat (apply elem_of_cons in H; destruct H as [H|H]; [discriminate|]).
    now apply elem_of_nil in H.
  - reflexivity.
  - reflexivity.
  - eexists. reflexivity.
Defined.

End WatchDirRunFacts.

(* ===================================================================== *)
(** ** Properties of the table helpers *)
(* ===================================================================== *)

Module OutputFacts.
Import Output.

(** X27: [truncate] keeps a table cell within its column when the
    column has room for the ellipsis: for a length of at least 3 the
    result is never longer than the length asked for.  Below 3 it is
    not: a string longer than the length comes back as the three dots
    alone. *)
Theorem truncate_fits_from_three (str : option string) (n : nat) :
  ((3 <= n)%nat -> (String.length (truncate str n) <= n)%nat)
  /\ (forall s, (n < 3)%nat -> (n < String.length s)%nat ->
       truncate (Some s) n = "..."
       /\ (n < String.length (truncate (Some s) n))%nat).
Proof.
  split.
  - intros Hn. unfold truncate. destruct str as [s|]; [|simpl; lia].
    destruct (String.eqb s ""); [simpl; lia|].
    destruct (n <? String.length s)%nat eqn:Hlt.
    + apply Nat.ltb_lt in Hlt.
      rewrite TextFacts.length_append, TextFacts.length_str_take. simpl. lia.
    + apply Nat.ltb_ge in Hlt. exact Hlt.
  - intros s Hn Hlen.
    assert (E : truncate (Some s) n = "...").
    { unfold truncate. destruct (String.eqb s "") eqn:Hs.
      - apply String.eqb_eq in Hs. subst s. simpl in Hlen. lia.
      - apply Nat.ltb_lt in Hlen. rewrite Hlen.
        replace (n - 3)%nat with 0%nat by lia. reflexivity. }
    rewrite E. split; [reflexivity|simpl; lia].
Qed.

Lemma truncate_fits_from_three_witness :
  (String.length (truncate (Some "Quarterly report for the board") 20) <= 20)%nat
  /\ truncate (Some "abc") 2 = "...".
Proof.
  split.
  - apply (proj1 (truncate_fits_from_three
                    (Some "Quarterly report for the board") 20)). lia.
  - apply (proj2 (truncate_fits_from_three (Some "abc") 2) "abc");
      simpl; lia.
Defined.

End OutputFacts.
